(** * HDRView: border-aware rasters, filters, AHD arbitration and edit history

    A shallow embedding of [src/hdrimage.cpp] and [src/glimage.cpp].

    Conventions of the embedding.
    - A C++ [int] is a [Z]; [/] and [%] on ints are [Z.quot] and [Z.rem]
      (truncation towards zero), and dividing by zero is a fault.  The
      overflow of int arithmetic is not modelled; where a bound matters
      (the [size_t] arithmetic of the border pass) it is a hypothesis.
    - A C++ [float] is an exact rational ([Qc]): rounding, NaN and the
      infinities of IEEE binary32 are outside the model, so statements
      about channel values are statements of exact arithmetic.
    - Code that can throw or run into undefined behaviour returns a
      [result]: [Ok v], [Throw e] for a C++ exception, [Fault] for
      undefined behaviour (integer division by zero, an index outside an
      array or a vector).
    - [parallel_for] is run as a sequential loop over its index range.
    - Library functions whose values are not rational ([std::exp],
      [std::pow], [LinearToSRGB]) are the variables of a section: what is
      proved of the code that calls them holds for every function in
      their place, under the hypotheses stated. *)

From Stdlib Require Import ZArith List Bool Lia QArith Qcanon Qround Qcabs.
From Stdlib Require Import Sorting.Permutation Sorting.Sorted.
Import ListNotations.

Close Scope Qc_scope.
Open Scope Z_scope.

(** ** Results of fallible code *)

Inductive exn : Type :=
| out_of_range
| runtime_error.

Inductive result (A : Type) : Type :=
| Ok (a : A)
| Throw (e : exn)
| Fault.

Arguments Ok {A} a.
Arguments Throw {A} e.
Arguments Fault {A}.

Definition bind {A B : Type} (m : result A) (k : A -> result B) : result B :=
  match m with
  | Ok a => k a
  | Throw e => Throw e
  | Fault => Fault
  end.

Notation "x <- m ;; k" := (bind m (fun x => k))
  (at level 61, m at next level, right associativity).

Definition is_ok {A : Type} (m : result A) : bool :=
  match m with Ok _ => true | _ => false end.

(** [for (i = lo; i < lo + n; ++i) s = body(i, s)], stopping at the first
    throw or fault. *)
Fixpoint for_loop {S : Type} (n : nat) (lo : Z) (body : Z -> S -> result S)
  (s : S) : result S :=
  match n with
  | O => Ok s
  | Datatypes.S n' => s' <- body lo s ;; for_loop n' (lo + 1) body s'
  end.

(** [for (i = lo; i < hi; ++i)] *)
Definition for_range {S : Type} (lo hi : Z) (body : Z -> S -> result S)
  (s : S) : result S :=
  for_loop (Z.to_nat (hi - lo)) lo body s.

(** ** Pixels and rasters *)

Definition float := Qc.

Definition of_int (z : Z) : float := Q2Qc (inject_Z z).

Record Color4 : Type := mkColor4 { r : float; g : float; b : float; a : float }.

(** Modelled from the spec: [Color4] is declared in color.h, which is not
    part of the sources at hand; "4 floating-point channels (R, G, B, A),
    supporting elementwise arithmetic".  Indexing [c[k]] is defined for
    [k] in 0..3 only. *)
Definition channel (c : Color4) (k : Z) : result float :=
  if k =? 0 then Ok (r c)
  else if k =? 1 then Ok (g c)
  else if k =? 2 then Ok (b c)
  else if k =? 3 then Ok (a c)
  else Fault.

Definition set_channel (c : Color4) (k : Z) (v : float) : result Color4 :=
  if k =? 0 then Ok (mkColor4 v (g c) (b c) (a c))
  else if k =? 1 then Ok (mkColor4 (r c) v (b c) (a c))
  else if k =? 2 then Ok (mkColor4 (r c) (g c) v (a c))
  else if k =? 3 then Ok (mkColor4 (r c) (g c) (b c) v)
  else Fault.

Definition Color4_map2 (f : float -> float -> float) (c d : Color4) : Color4 :=
  mkColor4 (f (r c) (r d)) (f (g c) (g d)) (f (b c) (b d)) (f (a c) (a d)).

Definition Color4_add : Color4 -> Color4 -> Color4 := Color4_map2 Qcplus.
Definition Color4_sub : Color4 -> Color4 -> Color4 := Color4_map2 Qcminus.
Definition Color4_mul : Color4 -> Color4 -> Color4 := Color4_map2 Qcmult.

(** [c * s] for a float [s] *)
Definition Color4_scale (c : Color4) (s : float) : Color4 :=
  mkColor4 (r c * s)%Qc (g c * s)%Qc (b c * s)%Qc (a c * s)%Qc.

(** [Color4(s)]: the same value in the four channels *)
Definition Color4_const (s : float) : Color4 := mkColor4 s s s s.

(** const Color4 g_blackPixel(0,0,0,0); *)
Definition g_blackPixel : Color4 := mkColor4 0%Qc 0%Qc 0%Qc 0%Qc.

Inductive BorderMode : Type := BLACK | EDGE | REPEAT | MIRROR.

(** Modelled from the spec: [HDRImage] is declared in hdrimage.h, which is
    not part of the sources at hand; "a width x height dense grid of
    Pixels", "index (x,y) valid iff 0<=x<width, 0<=y<height".  The grid is
    a total function of which only the valid indices are ever read. *)
Record HDRImage : Type := mkImage {
  width : Z;
  height : Z;
  data : Z -> Z -> Color4
}.

Definition in_range (img : HDRImage) (x y : Z) : bool :=
  (0 <=? x) && (x <? width img) && (0 <=? y) && (y <? height img).

(** [img(x, y)] as a value *)
Definition at_ (img : HDRImage) (x y : Z) : result Color4 :=
  if in_range img x y then Ok (data img x y) else Fault.

(** [img(x, y) = c] *)
Definition assign (img : HDRImage) (x y : Z) (c : Color4) : result HDRImage :=
  if in_range img x y
  then Ok (mkImage (width img) (height img)
             (fun x' y' => if (x' =? x) && (y' =? y) then c else data img x' y'))
  else Fault.

(** [HDRImage::Constant(w, h, c)] *)
Definition Constant (w h : Z) (c : Color4) : result HDRImage :=
  if (0 <=? w) && (0 <=? h) then Ok (mkImage w h (fun _ _ => c)) else Fault.

(** A raster from its rows, for examples. *)
Definition of_rows (w h : Z) (rows : list (list Color4)) : HDRImage :=
  mkImage w h (fun x y =>
    nth (Z.to_nat x) (nth (Z.to_nat y) rows []) g_blackPixel).

Definition gray (z : Z) : Color4 := Color4_const (of_int z).

(** ** Border-aware access *)

(** Modelled from the spec: [clamp] is defined in common.h, which is not
    part of the sources at hand; "EDGE clamps to [0,dim-1]". *)
Definition clamp (v lo hi : Z) : Z :=
  if v <? lo then lo else if hi <? v then hi else v.

(** Modelled from the spec: [mod] is defined in common.h, which is not
    part of the sources at hand; "REPEAT wraps modulo dim": the result
    lies in 0..b-1 for a positive b.  An integer modulus by zero is a
    fault. *)
Definition imod (p b : Z) : result Z :=
  if b =? 0 then Fault else Ok (p mod b).

(** C++ [a / b] on ints *)
Definition idiv (p q : Z) : result Z :=
  if q =? 0 then Fault else Ok (Z.quot p q).

(** C++ [a % b] on ints *)
Definition irem (p q : Z) : result Z :=
  if q =? 0 then Fault else Ok (Z.rem p q).

(** int wrapCoord(int p, int maxP, HDRImage::BorderMode m) *)
Definition wrapCoord (p maxP : Z) (m : BorderMode) : result Z :=
  if (0 <=? p) && (p <? maxP) then Ok p
  else
    match m with
    | EDGE => Ok (clamp p 0 (maxP - 1))
    | REPEAT => imod p maxP
    | MIRROR =>
        frac <- imod p maxP ;;
        q <- idiv (Z.abs p) maxP ;;
        par <- irem q 2 ;;
        Ok (if negb (par =? 0) then maxP - 1 - frac else frac)
    | BLACK => Ok (-1)
    end.

(** const Color4 & HDRImage::pixel(int x, int y, BorderMode mX, BorderMode mY) const *)
Definition pixel (img : HDRImage) (x y : Z) (mX mY : BorderMode) : result Color4 :=
  x' <- wrapCoord x (width img) mX ;;
  y' <- wrapCoord y (height img) mY ;;
  if (x' <? 0) || (y' <? 0) then Ok g_blackPixel
  else at_ img x' y'.

(** Color4 & HDRImage::pixel(int x, int y, BorderMode mX, BorderMode mY):
    the cell the returned reference designates. *)
Definition pixel_ref (img : HDRImage) (x y : Z) (mX mY : BorderMode) : result (Z * Z) :=
  x' <- wrapCoord x (width img) mX ;;
  y' <- wrapCoord y (height img) mY ;;
  if (x' <? 0) || (y' <? 0) then Throw out_of_range
  else if in_range img x' y' then Ok (x', y') else Fault.

(** [img.pixel(x, y, mX, mY) = c] *)
Definition pixel_write (img : HDRImage) (x y : Z) (mX mY : BorderMode) (c : Color4)
  : result HDRImage :=
  loc <- pixel_ref img x y mX mY ;;
  assign img (fst loc) (snd loc) c.

(** ** Canvas resizing *)

Inductive CanvasAnchor : Type :=
| TOP_LEFT | TOP_CENTER | TOP_RIGHT
| MIDDLE_LEFT | MIDDLE_CENTER | MIDDLE_RIGHT
| BOTTOM_LEFT | BOTTOM_CENTER | BOTTOM_RIGHT.

(** The first [switch (anchor)] of [resizedCanvas]: [tlDst.x()] before clipping. *)
Definition tlDst_x (anchor : CanvasAnchor) (newW oldW : Z) : Z :=
  match anchor with
  | TOP_RIGHT | MIDDLE_RIGHT | BOTTOM_RIGHT => newW - oldW
  | TOP_CENTER | MIDDLE_CENTER | BOTTOM_CENTER => Z.quot (newW - oldW) 2
  | TOP_LEFT | MIDDLE_LEFT | BOTTOM_LEFT => 0
  end.

(** The second [switch (anchor)]: [tlDst.y()] before clipping. *)
Definition tlDst_y (anchor : CanvasAnchor) (newH oldH : Z) : Z :=
  match anchor with
  | BOTTOM_LEFT | BOTTOM_CENTER | BOTTOM_RIGHT => newH - oldH
  | MIDDLE_LEFT | MIDDLE_CENTER | MIDDLE_RIGHT => Z.quot (newH - oldH) 2
  | TOP_LEFT | TOP_CENTER | TOP_RIGHT => 0
  end.

(** [if (tlDst < 0) { tlSrc = -tlDst; tlDst = 0; }]: the pair (tlSrc, tlDst). *)
Definition clip_tl (tlDst : Z) : Z * Z :=
  if tlDst <? 0 then (- tlDst, 0) else (0, tlDst).

(** A [bw] x [bh] block at (x0, y0) lies inside the raster. *)
Definition block_fits (img : HDRImage) (x0 y0 bw bh : Z) : bool :=
  (0 <=? x0) && (0 <=? y0) && (0 <=? bw) && (0 <=? bh)
  && (x0 + bw <=? width img) && (y0 + bh <=? height img).

(** [dst.block(dx, dy, bw, bh) = src.block(sx, sy, bw, bh)] *)
Definition block_copy (dst : HDRImage) (dx dy : Z) (src : HDRImage) (sx sy bw bh : Z)
  : result HDRImage :=
  if block_fits dst dx dy bw bh && block_fits src sx sy bw bh
  then Ok (mkImage (width dst) (height dst)
             (fun x y =>
                if (dx <=? x) && (x <? dx + bw) && (dy <=? y) && (y <? dy + bh)
                then data src (x - dx + sx) (y - dy + sy)
                else data dst x y))
  else Fault.

(** HDRImage HDRImage::resizedCanvas(int newW, int newH, CanvasAnchor anchor,
                                     const Color4 & bgColor) const *)
Definition resizedCanvas (this : HDRImage) (newW newH : Z) (anchor : CanvasAnchor)
  (bgColor : Color4) : result HDRImage :=
  let oldW := width this in
  let oldH := height this in
  img <- Constant newW newH bgColor ;;
  let '(tlSrcX, tlDstX) := clip_tl (tlDst_x anchor newW oldW) in
  let '(tlSrcY, tlDstY) := clip_tl (tlDst_y anchor newH oldH) in
  let bsX := Z.min oldW newW in
  let bsY := Z.min oldH newH in
  block_copy img tlDstX tlDstY this tlSrcX tlSrcY bsX bsY.

(** ** Median filter *)

Definition Qcleb (u v : float) : bool := Qle_bool u v.
Definition Qcltb (u v : float) : bool := negb (Qle_bool v u).

Fixpoint insert_sorted (v : float) (l : list float) : list float :=
  match l with
  | [] => [v]
  | h :: t => if Qcleb v h then v :: l else h :: insert_sorted v t
  end.

Fixpoint sort (l : list float) : list float :=
  match l with
  | [] => []
  | h :: t => insert_sorted h (sort t)
  end.

(** [std::nth_element(first, first + nth, last)], by its contract: the
    element at position [nth] is the one a full sort would put there, no
    element before it is greater and none after it is smaller.  The sorted
    buffer is such a rearrangement. *)
Definition nth_element (buf : list float) (nth : Z) : list float := sort buf.

(** [buf[k]] on a [std::vector] or a C array: a fault outside 0..size-1. *)
Definition arr_at {A : Type} (buf : list A) (k : Z) : result A :=
  if k <? 0 then Fault
  else match nth_error buf (Z.to_nat k) with
       | Some v => Ok v
       | None => Fault
       end.

Definition vec_at (buf : list float) (k : Z) : result float := arr_at buf k.

(** The two neighbourhood loops of [medianFiltered] at pixel (x, y): the
    contents of [mBuffer] after them. *)
Definition gather (this : HDRImage) (radius : float) (radiusi channel_ : Z)
  (mX mY : BorderMode) (round : bool) (x y : Z) : result (list float) :=
  for_range (- radiusi) (radiusi + 1)
    (fun i mBuffer =>
       let xCoord := x + i in
       for_range (- radiusi) (radiusi + 1)
         (fun j mBuffer =>
            if round && Qcltb (radius * radius)%Qc (of_int (i * i + j * j))
            then Ok mBuffer
            else
              let yCoord := y + j in
              p <- pixel this xCoord yCoord mX mY ;;
              v <- channel p channel_ ;;
              Ok (mBuffer ++ [v]))
         mBuffer)
    [].

(** The body of the loop over x for one pixel. *)
Definition median_at (this : HDRImage) (radius : float) (radiusi channel_ : Z)
  (mX mY : BorderMode) (round : bool) (y x : Z) (tempBuffer : HDRImage)
  : result HDRImage :=
  mBuffer <- gather this radius radiusi channel_ mX mY round x y ;;
  let num := Z.of_nat (length mBuffer) in
  let med := Z.quot (num - 1) 2 in
  let mBuffer := nth_element mBuffer med in
  v <- vec_at mBuffer med ;;
  c <- at_ tempBuffer x y ;;
  c' <- set_channel c channel_ v ;;
  assign tempBuffer x y c'.

(** HDRImage HDRImage::medianFiltered(float radius, int channel,
                                      BorderMode mX, BorderMode mY, bool round) const *)
Definition medianFiltered (this : HDRImage) (radius : float) (channel_ : Z)
  (mX mY : BorderMode) (round : bool) : result HDRImage :=
  let radiusi := Qceiling radius in
  let tempBuffer := this in
  for_range 0 (height this)
    (fun y tempBuffer =>
       for_range 0 (width tempBuffer)
         (median_at this radius radiusi channel_ mX mY round y)
         tempBuffer)
    tempBuffer.

(** ** Box blur *)

(** [HDRImage(w, h)]: a raster whose cells are not initialised; the cells
    are given a fixed content here, and the filters below write every
    cell before they read it. *)
Definition new_image (w h : Z) : HDRImage := mkImage w h (fun _ _ => g_blackPixel).

(** [img * c]: every pixel multiplied channel by channel *)
Definition image_mul (img : HDRImage) (c : Color4) : HDRImage :=
  mkImage (width img) (height img) (fun x y => Color4_mul (data img x y) c).

(** The body of the loop over rows of [boxBlurredX]. *)
Definition boxBlurredX_row (this : HDRImage) (leftSize rightSize : Z) (mX : BorderMode)
  (y : Z) (imFilter : HDRImage) : result HDRImage :=
  imFilter <- assign imFilter 0 y (Color4_const 0%Qc) ;;
  imFilter <- for_range (- leftSize) (rightSize + 1)
    (fun dx imFilter =>
       acc <- at_ imFilter 0 y ;;
       p <- pixel this dx y mX mX ;;
       assign imFilter 0 y (Color4_add acc p))
    imFilter ;;
  for_range 1 (width this)
    (fun x imFilter =>
       prev <- at_ imFilter (x - 1) y ;;
       old <- pixel this (x - 1 - leftSize) y mX mX ;;
       new <- pixel this (x + rightSize) y mX mX ;;
       assign imFilter x y (Color4_add (Color4_sub prev old) new))
    imFilter.

(** HDRImage HDRImage::boxBlurredX(int leftSize, int rightSize, BorderMode mX) const *)
Definition boxBlurredX (this : HDRImage) (leftSize rightSize : Z) (mX : BorderMode)
  : result HDRImage :=
  let imFilter := new_image (width this) (height this) in
  imFilter <- for_range 0 (height imFilter)
    (boxBlurredX_row this leftSize rightSize mX) imFilter ;;
  Ok (image_mul imFilter (Color4_const (1 / of_int (leftSize + rightSize + 1))%Qc)).

(** ** Samplers *)

Definition half : float := (1 / of_int 2)%Qc.

(** [(int) std::floor(s)] *)
Definition floor_int (s : float) : Z := Qfloor s.

(** Modelled from the spec: [lerp] is defined in common.h, which is not
    part of the sources at hand; "standard 4-tap bilinear blend using
    fractional parts": (1 - t) * a + t * b. *)
Definition lerp (p q : Color4) (t : float) : Color4 :=
  Color4_add (Color4_scale p (1 - t)%Qc) (Color4_scale q t).

(** Color4 HDRImage::bilinear(float sx, float sy, BorderMode mX, BorderMode mY) const *)
Definition bilinear (this : HDRImage) (sx sy : float) (mX mY : BorderMode)
  : result Color4 :=
  let sx := (sx - half)%Qc in
  let sy := (sy - half)%Qc in
  let x0 := floor_int sx in
  let y0 := floor_int sy in
  let x1 := x0 + 1 in
  let y1 := y0 + 1 in
  let sx := (sx - of_int x0)%Qc in
  let sy := (sy - of_int y0)%Qc in
  p00 <- pixel this x0 y0 mX mY ;;
  p10 <- pixel this x1 y0 mX mY ;;
  p01 <- pixel this x0 y1 mX mY ;;
  p11 <- pixel this x1 y1 mX mY ;;
  Ok (lerp (lerp p00 p10 sx) (lerp p01 p11 sx) sy).

(** The cubic weight of [bicubic] at distance [d], with A = -0.75. *)
Definition cubic_weight (d : float) : float :=
  let A := (- (of_int 3 / of_int 4))%Qc in
  if Qcleb d 1%Qc
  then (((A + of_int 2) * d - (A + of_int 3)) * d * d + 1)%Qc
  else (((A * d - of_int 5 * A) * d + of_int 8 * A) * d - of_int 4 * A)%Qc.

(** Color4 HDRImage::bicubic(float sx, float sy, BorderMode mX, BorderMode mY) const *)
Definition bicubic (this : HDRImage) (sx sy : float) (mX mY : BorderMode)
  : result Color4 :=
  let sx := (sx - half)%Qc in
  let sy := (sy - half)%Qc in
  let bx := floor_int sx in
  let by_ := floor_int sy in
  let totalweight := 0%Qc in
  let val := mkColor4 0%Qc 0%Qc 0%Qc 0%Qc in
  acc <- for_range (by_ - 1) (by_ + 3)
    (fun y acc =>
       let disty := Qcabs (sy - of_int y) in
       let yweight := cubic_weight disty in
       for_range (bx - 1) (bx + 3)
         (fun x acc =>
            let '(val, totalweight) := acc in
            let distx := Qcabs (sx - of_int x) in
            let weight := (cubic_weight distx * yweight)%Qc in
            p <- pixel this x y mX mY ;;
            Ok (Color4_add val (Color4_scale p weight), (totalweight + weight)%Qc))
         acc)
    (val, totalweight) ;;
  let '(val, totalweight) := acc in
  Ok (Color4_scale val (1 / totalweight)%Qc).

(** ** AHD demosaicing: arbitration and border *)






(** A [size_t] value: 64 bits, wrapping. *)
Definition to_size_t (z : Z) : Z := z mod 2 ^ 64.

(** inline int bayerColor(int x, int y) *)
Definition bayerColor (x y : Z) : result Z :=
  let bayer := [[0; 1]; [1; 2]] in
  row <- arr_at bayer (Z.rem y 2) ;;
  arr_at row (Z.rem x 2).

(** [Vector3f] and [Vector3i]: three components, indexed by 0..2. *)
Definition vec3_get {A : Type} (v : A * A * A) (c : Z) : result A :=
  let '(v0, v1, v2) := v in
  if c =? 0 then Ok v0 else if c =? 1 then Ok v1 else if c =? 2 then Ok v2 else Fault.

Definition vec3_set {A : Type} (v : A * A * A) (c : Z) (u : A) : result (A * A * A) :=
  let '(v0, v1, v2) := v in
  if c =? 0 then Ok (u, v1, v2)
  else if c =? 1 then Ok (v0, u, v2)
  else if c =? 2 then Ok (v0, v1, u)
  else Fault.

(** The body of the loop over x of [demosaicBorder], once x is settled:
    the averages over the 3x3 window, written to the channels the Bayer
    pattern does not sample at (x, y).  [xs] and [ys] are [size_t]: at
    x = 0 (y = 0) they start at the largest value and the loop
    condition [xs <= x + 1] fails at once. *)
Definition border_pixel (this : HDRImage) (x y : Z) : result HDRImage :=
  acc <- for_range (to_size_t (y - 1)) (to_size_t (y + 1) + 1)
    (fun ys acc =>
       for_range (to_size_t (x - 1)) (to_size_t (x + 1) + 1)
         (fun xs acc =>
            let '(sum, count) := acc in
            if (ys <? to_size_t (height this)) && (xs <? to_size_t (width this))
            then
              c <- bayerColor xs ys ;;
              p <- at_ this xs ys ;;
              v <- channel p c ;;
              s <- vec3_get sum c ;;
              n <- vec3_get count c ;;
              sum <- vec3_set sum c (s + v)%Qc ;;
              count <- vec3_set count c (n + 1) ;;
              Ok (sum, count)
            else Ok acc)
         acc)
    ((0%Qc, 0%Qc, 0%Qc), (0, 0, 0)) ;;
  let '(sum, count) := acc in
  col <- bayerColor x y ;;
  for_range 0 3
    (fun c this =>
       if negb (col =? c) then
         n <- vec3_get count c ;;
         s <- vec3_get sum c ;;
         p <- at_ this x y ;;
         p' <- set_channel p c (if negb (n =? 0) then (s / of_int n)%Qc else 1%Qc) ;;
         assign this x y p'
       else Ok this)
    this.

(** The loop over x of [demosaicBorder] for row y, from column x on.  The
    loop assigns to its own counter ("skip the center of the image"), so
    it runs on fuel: [None] when the fuel is used up. *)
Fixpoint border_row (fuel : nat) (border y x : Z) (this : HDRImage)
  : option (result HDRImage) :=
  match fuel with
  | O => None
  | S fuel' =>
      if x <? to_size_t (width this) then
        let x :=
          if (x =? border) && (border <=? y) && (y <? to_size_t (height this - border))
          then to_size_t (width this - border) else x in
        match border_pixel this x y with
        | Ok this' => border_row fuel' border y (to_size_t (x + 1)) this'
        | Throw e => Some (Throw e)
        | Fault => Some Fault
        end
      else Some (Ok this)
  end.

(** The loop over the [n] rows from y on. *)
Fixpoint border_rows (fuel n : nat) (border y : Z) (this : HDRImage)
  : option (result HDRImage) :=
  match n with
  | O => Some (Ok this)
  | S n' =>
      match border_row fuel border y 0 this with
      | Some (Ok this') => border_rows fuel n' border (y + 1) this'
      | other => other
      end
  end.

(** void HDRImage::demosaicBorder(size_t border); [fuel] bounds the
    iterations of the loop over x in each row. *)
Definition demosaicBorder (fuel : nat) (border : Z) (this : HDRImage)
  : option (result HDRImage) :=
  border_rows fuel (Z.to_nat (height this)) border 0 this.


(** ** Edit history and the controller *)

(** Modelled from the spec: the undo records are declared in
    commandhistory.h, which is not part of the sources at hand; "reversible
    edit records, each wrapping enough state to reconstruct the prior/next
    raster". *)
Record ImageCommandUndo : Type := mkUndo {
  undo_fn : HDRImage -> HDRImage;
  redo_fn : HDRImage -> HDRImage
}.

Module CommandHistory.

(** Modelled from the spec: [CommandHistory] is declared in
    commandhistory.h, which is not part of the sources at hand; "an
    ordered undo stack and a redo stack of reversible edit records",
    "operates by replacing the Controller's raster reference", "return
    false if the respective stack is empty". *)
Record t : Type := mk {
  undo_stack : list ImageCommandUndo;
  redo_stack : list ImageCommandUndo
}.

(** "appends the reversible record to history"; the records undone
    before it can no longer be redone. *)
Definition addCommand (h : t) (c : ImageCommandUndo) : t :=
  mk (c :: undo_stack h) [].

(** [undo(img)] and [redo(img)]: the history, the raster and the boolean
    they return. *)
Definition undo (h : t) (img : HDRImage) : t * HDRImage * bool :=
  match undo_stack h with
  | [] => (h, img, false)
  | c :: rest => (mk rest (c :: redo_stack h), undo_fn c img, true)
  end.

Definition redo (h : t) (img : HDRImage) : t * HDRImage * bool :=
  match redo_stack h with
  | [] => (h, img, false)
  | c :: rest => (mk (c :: undo_stack h) rest, redo_fn c img, true)
  end.

End CommandHistory.

Module LazyGLTextureLoader.

(** The members the upload logic reads and writes; [m_texture] is the GL
    texture name, 0 when there is none. *)
Record t : Type := mk {
  m_texture : Z;
  m_dirty : bool;
  m_nextScanline : Z
}.

(** Modelled from the spec: [setDirty] is defined in glimage.h, which is
    not part of the sources at hand; "any successful raster replacement
    sets a dirty flag", the upload starting again at the first scanline. *)
Definition setDirty (l : t) : t := mk (m_texture l) true 0.

(** The [while (true)] loop of [uploadToGPU]: (m_nextScanline, m_dirty)
    after it.  [budget] is the number of further chunks the time budget
    allows: the loop leaves when [timer.elapsed() > milliseconds]. *)
Fixpoint upload_loop (budget : nat) (maxLines h next : Z) (dirty : bool) : Z * bool :=
  let next := next + maxLines in
  if h <=? next then (-1, false)
  else match budget with
       | O => (next, dirty)
       | S budget' => upload_loop budget' maxLines h next dirty
       end.

(** bool LazyGLTextureLoader::uploadToGPU(img, milliseconds, mipLevel, chunkSize);
    the GL calls have no effect on the members. *)
Definition uploadToGPU (l : t) (img : HDRImage) (chunkSize : Z) (budget : nat)
  : result (t * bool) :=
  if negb (m_dirty l) && negb (m_texture l =? 0) then Ok (l, false)
  else
    let tex := if m_texture l =? 0 then 1 else m_texture l in
    q <- idiv chunkSize (width img) ;;
    let maxLines := Z.max 1 q in
    let '(next, dirty) :=
      upload_loop budget maxLines (height img) (m_nextScanline l) (m_dirty l) in
    Ok (mk tex dirty next, negb dirty).

End LazyGLTextureLoader.

Module GLImage.

(** Modelled from the spec: the asynchronous task is declared in async.h,
    which is not part of the sources at hand; "a one-shot unit of work
    producing a (new raster, history record) pair".  A task is given by
    the pair its [get()] returns once joined. *)
Record AsyncTask : Type := mkTask {
  get : HDRImage * ImageCommandUndo
}.

Record t : Type := mk {
  m_image : HDRImage;
  m_history : CommandHistory.t;
  m_histogramDirty : bool;
  m_texture : LazyGLTextureLoader.t;
  m_asyncCommand : option AsyncTask;
  m_asyncRetrieved : bool
}.

Section Upload.

(** The default [chunkSize] of the texture upload and the number of
    chunks its time budget allows. *)
Variable chunkSize : Z.
Variable budget : nat.

(** void GLImage::uploadToGPU() const *)
Definition uploadToGPU (s : t) : result t :=
  up <- LazyGLTextureLoader.uploadToGPU (m_texture s) (m_image s) chunkSize budget ;;
  let '(tex, done) := up in
  Ok (mk (m_image s) (m_history s) (m_histogramDirty s) tex
        (if done then None else m_asyncCommand s) (m_asyncRetrieved s)).

(** bool GLImage::waitForAsyncResult() const *)
Definition waitForAsyncResult (s : t) : result (t * bool) :=
  match m_asyncCommand s with
  | None => Ok (s, false)
  | Some task =>
      if m_asyncRetrieved s then Ok (s, false)
      else
        let result := get task in
        let s := mk (fst result)
                    (CommandHistory.addCommand (m_history s) (snd result))
                    true
                    (LazyGLTextureLoader.setDirty (m_texture s))
                    (m_asyncCommand s)
                    true in
        s <- uploadToGPU s ;;
        Ok (s, true)
  end.

(** void GLImage::asyncModify(const ImageCommand & command) *)
Definition asyncModify (s : t) (command : HDRImage -> HDRImage * ImageCommandUndo)
  : result t :=
  w <- waitForAsyncResult s ;;
  let s := fst w in
  Ok (mk (m_image s) (m_history s) (m_histogramDirty s) (m_texture s)
        (Some (mkTask (command (m_image s)))) false).

(** bool GLImage::undo() *)
Definition undo (s : t) : result (t * bool) :=
  w <- waitForAsyncResult s ;;
  let s := fst w in
  let '(h, img, done) := CommandHistory.undo (m_history s) (m_image s) in
  if done then
    Ok (mk img h true (LazyGLTextureLoader.setDirty (m_texture s))
          (m_asyncCommand s) (m_asyncRetrieved s), true)
  else
    Ok (mk img h (m_histogramDirty s) (m_texture s)
          (m_asyncCommand s) (m_asyncRetrieved s), false).

(** bool GLImage::redo() *)
Definition redo (s : t) : result (t * bool) :=
  w <- waitForAsyncResult s ;;
  let s := fst w in
  let '(h, img, done) := CommandHistory.redo (m_history s) (m_image s) in
  if done then
    Ok (mk img h true (LazyGLTextureLoader.setDirty (m_texture s))
          (m_asyncCommand s) (m_asyncRetrieved s), true)
  else
    Ok (mk img h (m_histogramDirty s) (m_texture s)
          (m_asyncCommand s) (m_asyncRetrieved s), false).

End Upload.

End GLImage.

(** ** The specification's wording, for comparison with the code *)

(** "EDGE clamps to [0,dim-1]. REPEAT wraps modulo dim. MIRROR reflects
    with period 2*dim, selecting the reflected or direct offset based on
    parity of floor(p/dim)." *)
Definition wrapCoord_spec (p dim : Z) (m : BorderMode) : Z :=
  match m with
  | BLACK => if (0 <=? p) && (p <? dim) then p else -1
  | EDGE => Z.max 0 (Z.min p (dim - 1))
  | REPEAT => p mod dim
  | MIRROR => if Z.odd (p / dim) then dim - 1 - p mod dim else p mod dim
  end.

(** "CENTER -> floor((newW-oldW)/2)" *)
Definition center_offset_spec (newW oldW : Z) : Z := (newW - oldW) / 2.

(** A read that cannot fail, for statements about rasters with at least
    one pixel. *)
Definition pixel_val (img : HDRImage) (x y : Z) (mX mY : BorderMode) : Color4 :=
  match pixel img x y mX mY with
  | Ok c => c
  | _ => g_blackPixel
  end.

Definition channel_val (c : Color4) (k : Z) : float :=
  match channel c k with
  | Ok v => v
  | _ => 0%Qc
  end.

(** lo, lo+1, ..., lo+n-1 *)
Definition zrange (lo : Z) (n : nat) : list Z :=
  map (fun k => lo + Z.of_nat k) (seq 0 n).

(** "a square (or, if round, circular -- i^2+j^2 <= radius^2)
    neighborhood of integer half-extent ceil(radius)": its offsets. *)
Definition neighborhood (radius : float) (round : bool) : list (Z * Z) :=
  let e := Qceiling radius in
  let side := zrange (- e) (Z.to_nat (2 * e + 1)) in
  filter (fun ij => negb round
                    || Qcleb (of_int (fst ij * fst ij + snd ij * snd ij))
                             (radius * radius)%Qc)
         (list_prod side side).

(** The chosen channel's border-aware values over the neighbourhood of (x, y). *)
Definition neighborhood_values (img : HDRImage) (radius : float) (channel_ : Z)
  (mX mY : BorderMode) (round : bool) (x y : Z) : list float :=
  map (fun ij => channel_val (pixel_val img (x + fst ij) (y + snd ij) mX mY) channel_)
      (neighborhood radius round).




(** "the order-statistic at index floor((N-1)/2)" *)
Definition median_rank (N : nat) : nat := Z.to_nat ((Z.of_nat N - 1) / 2).

Definition set_channel_val (c : Color4) (k : Z) (v : float) : Color4 :=
  match set_channel c k v with
  | Ok c' => c'
  | _ => c
  end.

(** The value [medianFiltered] writes at (x, y). *)
Definition median_value (img : HDRImage) (radius : float) (channel_ : Z)
  (mX mY : BorderMode) (round : bool) (x y : Z) : float :=
  let vals := neighborhood_values img radius channel_ mX mY round x y in
  nth (median_rank (length vals)) (sort vals) 0%Qc.

(** A 3x3 raster that is [P] everywhere but at its centre, where it is [Q]. *)
Definition outlier_raster (P Q : Color4) : HDRImage :=
  of_rows 3 3 [[P; P; P]; [P; Q; P]; [P; P; P]].

Definition Color4_zero : Color4 := Color4_const 0%Qc.

Definition Color4_sum (l : list Color4) : Color4 :=
  fold_right Color4_add Color4_zero l.

(** [c / d] for a float [d] *)
Definition Color4_div (c : Color4) (d : float) : Color4 :=
  mkColor4 (r c / d)%Qc (g c / d)%Qc (b c / d)%Qc (a c / d)%Qc.

(** "the border-aware sum of input pixels (x-leftSize .. x+rightSize, y)" *)
Definition window_sum (img : HDRImage) (leftSize rightSize : Z) (mX : BorderMode)
  (x y : Z) : Color4 :=
  Color4_sum (map (fun dx => pixel_val img (x + dx) y mX mX)
                  (zrange (- leftSize) (Z.to_nat (leftSize + rightSize + 1)))).

(** The 5x1 raster [1,2,3,4,5]. *)
Definition ramp5 : HDRImage :=
  of_rows 5 1 [[gray 1; gray 2; gray 3; gray 4; gray 5]].



(** Rasters and maps of one value, for examples. *)
Definition flat_image (w h : Z) (c : Color4) : HDRImage := mkImage w h (fun _ _ => c).

(** A controller with an empty history, an empty raster and no command
    outstanding. *)
Definition idle_controller : GLImage.t :=
  GLImage.mk (new_image 0 0) (CommandHistory.mk [] []) true
    (LazyGLTextureLoader.mk 0 true 0) None false.

(** An edit that replaces the raster by a 1x1 raster and records how to
    go back and forth. *)
Definition paint_command (img : HDRImage) : HDRImage * ImageCommandUndo :=
  (of_rows 1 1 [[gray 1]],
   mkUndo (fun _ => img) (fun _ => of_rows 1 1 [[gray 1]])).

(** ** Further code of hdrimage.cpp and glimage.cpp *)

Inductive Sampler : Type := NEAREST | BILINEAR | BICUBIC.

(** Color4 HDRImage::nearest(float sx, float sy, BorderMode mX, BorderMode mY) const *)
Definition nearest (this : HDRImage) (sx sy : float) (mX mY : BorderMode)
  : result Color4 :=
  pixel this (floor_int sx) (floor_int sy) mX mY.

(** Color4 HDRImage::sample(float sx, float sy, Sampler s, BorderMode mX, BorderMode mY) const *)
Definition sample (this : HDRImage) (sx sy : float) (s : Sampler) (mX mY : BorderMode)
  : result Color4 :=
  match s with
  | NEAREST => nearest this sx sy mX mY
  | BILINEAR => bilinear this sx sy mX mY
  | BICUBIC => bicubic this sx sy mX mY
  end.




(** [ArrayXXf]: a dense array of floats, [a_rows] x [a_cols]. *)
Record ArrayXXf : Type := mkArray {
  a_rows : Z;
  a_cols : Z;
  a_data : Z -> Z -> float
}.

(** [kernel(i, j)] *)
Definition array_at (k : ArrayXXf) (i j : Z) : result float :=
  if (0 <=? i) && (i <? a_rows k) && (0 <=? j) && (j <? a_cols k)
  then Ok (a_data k i j) else Fault.

(** "for every pixel in the kernel": the accumulated colour and weight at
    the pixel (x, y). *)
Definition convolved_at (this : HDRImage) (kernel : ArrayXXf) (mX mY : BorderMode)
  (centerX centerY x y : Z) : result (Color4 * float) :=
  for_range 0 (a_rows kernel)
    (fun xFilter acc =>
       let xx := x - xFilter + centerX in
       for_range 0 (a_cols kernel)
         (fun yFilter acc =>
            let '(accum, weightSum) := acc in
            let yy := y - yFilter + centerY in
            k <- array_at kernel xFilter yFilter ;;
            p <- pixel this xx yy mX mY ;;
            Ok (Color4_add accum (Color4_scale p k), (weightSum + k)%Qc))
         acc)
    (mkColor4 0%Qc 0%Qc 0%Qc 0%Qc, 0%Qc).

(** HDRImage HDRImage::convolved(const ArrayXXf &kernel, BorderMode mX, BorderMode mY) const *)
Definition convolved (this : HDRImage) (kernel : ArrayXXf) (mX mY : BorderMode)
  : result HDRImage :=
  let imFilter := new_image (width this) (height this) in
  let centerX := Z.quot (a_rows kernel - 1) 2 in
  let centerY := Z.quot (a_cols kernel - 1) 2 in
  for_range 0 (width imFilter)
    (fun x imFilter =>
       for_range 0 (height imFilter)
         (fun y imFilter =>
            acc <- convolved_at this kernel mX mY centerX centerY x y ;;
            let '(accum, weightSum) := acc in
            assign imFilter x y (Color4_div accum weightSum))
         imFilter)
    imFilter.

(** static int nextOddInt(int i) *)
Definition nextOddInt (i : Z) : Z :=
  if Z.rem i 2 =? 0 then i + 1 else i.

(** The table [mosaic] of [bayerMosaic]. *)
Definition mosaic : list (list Color4) :=
  [[mkColor4 1%Qc 0%Qc 0%Qc 1%Qc; mkColor4 0%Qc 1%Qc 0%Qc 1%Qc];
   [mkColor4 0%Qc 1%Qc 0%Qc 1%Qc; mkColor4 0%Qc 0%Qc 1%Qc 1%Qc]].

(** void HDRImage::bayerMosaic(const Vector2i &redOffset); [redOffset] is
    the pair (x, y). *)
Definition bayerMosaic (this : HDRImage) (redOffset : Z * Z) : result HDRImage :=
  for_range 0 (height this)
    (fun y this =>
       r_ <- imod (y - snd redOffset) 2 ;;
       for_range 0 (width this)
         (fun x this =>
            c <- imod (x - fst redOffset) 2 ;;
            row <- arr_at mosaic r_ ;;
            m <- arr_at row c ;;
            p <- at_ this x y ;;
            assign this x y (Color4_mul p m))
         this)
    this.

(** Modelled from the spec: the [clamp] of floats is defined in common.h,
    which is not part of the sources at hand; "clamped to the range of the
    two nearest same-direction green neighbors". *)
Definition clampf (v lo hi : float) : float :=
  if Qcltb v lo then lo else if Qcltb hi v then hi else v.

(** inline float clamp2(float value, float mn, float mx) *)
Definition clamp2 (value mn mx : float) : float :=
  if Qcltb mx mn then clampf value mx mn else clampf value mn mx.

Definition quarter : float := (1 / of_int 4)%Qc.

(** inline float interpGreenH(const HDRImage &raw, int x, int y) *)
Definition interpGreenH (raw : HDRImage) (x y : Z) : result float :=
  l1 <- at_ raw (x - 1) y ;;
  r1 <- at_ raw (x + 1) y ;;
  c0 <- at_ raw x y ;;
  l2 <- at_ raw (x - 2) y ;;
  r2 <- at_ raw (x + 2) y ;;
  let v := (half * (g l1 + g r1 + g c0) - quarter * (g l2 + g r2))%Qc in
  Ok (clamp2 v (g l1) (g r1)).

(** inline float interpGreenV(const HDRImage &raw, int x, int y) *)
Definition interpGreenV (raw : HDRImage) (x y : Z) : result float :=
  u1 <- at_ raw x (y - 1) ;;
  d1 <- at_ raw x (y + 1) ;;
  c0 <- at_ raw x y ;;
  u2 <- at_ raw x (y - 2) ;;
  d2 <- at_ raw x (y + 2) ;;
  let v := (half * (g u1 + g d1 + g c0) - quarter * (g u2 + g d2))%Qc in
  Ok (clamp2 v (g u1) (g d1)).

(** bool GLImage::canModify() const *)
Definition canModify (s : GLImage.t) : bool :=
  match GLImage.m_asyncCommand s with
  | None => true
  | Some _ => false
  end.

(** [n] calls of [LazyGLTextureLoader::uploadToGPU] in a row, the k-th
    with the time budget [budgets k]: the loader after them, and whether
    the last call reported the upload complete. *)
Fixpoint upload_calls (n : nat) (budgets : nat -> nat) (l : LazyGLTextureLoader.t)
  (img : HDRImage) (chunkSize : Z) : result (LazyGLTextureLoader.t * bool) :=
  match n with
  | O => Ok (l, false)
  | S n' =>
      up <- LazyGLTextureLoader.uploadToGPU l img chunkSize (budgets O) ;;
      match n' with
      | O => Ok up
      | S _ => upload_calls n' (fun k => budgets (S k)) (fst up) img chunkSize
      end
  end.

(** The two branches of the cubic weight of [bicubic]. *)
Definition cubic_near (d : float) : float :=
  let A := (- (of_int 3 / of_int 4))%Qc in
  (((A + of_int 2) * d - (A + of_int 3)) * d * d + 1)%Qc.

Definition cubic_far (d : float) : float :=
  let A := (- (of_int 3 / of_int 4))%Qc in
  (((A * d - of_int 5 * A) * d + of_int 8 * A) * d - of_int 4 * A)%Qc.

(** Every pixel of the raster is [c]. *)
Definition constant_raster (img : HDRImage) (c : Color4) : Prop :=
  forall x y, in_range img x y = true -> data img x y = c.

Definition Qc_sum (l : list float) : float := fold_right Qcplus 0%Qc l.

(** The sum of the weights of a kernel. *)
Definition kernel_sum (kernel : ArrayXXf) : float :=
  Qc_sum (map (fun i =>
                 Qc_sum (map (fun j => a_data kernel i j)
                             (zrange 0 (Z.to_nat (a_cols kernel)))))
              (zrange 0 (Z.to_nat (a_rows kernel)))).

(** The weighted sum [convolved] accumulates at (x, y): the tap (i, j) of
    the kernel weighs the pixel (x - i + centerX, y - j + centerY). *)
Definition convolution_sum (img : HDRImage) (kernel : ArrayXXf) (mX mY : BorderMode)
  (x y : Z) : Color4 :=
  let centerX := Z.quot (a_rows kernel - 1) 2 in
  let centerY := Z.quot (a_cols kernel - 1) 2 in
  Color4_sum
    (map (fun i =>
            Color4_sum
              (map (fun j =>
                      Color4_scale
                        (pixel_val img (x - i + centerX) (y - j + centerY) mX mY)
                        (a_data kernel i j))
                   (zrange 0 (Z.to_nat (a_cols kernel)))))
         (zrange 0 (Z.to_nat (a_rows kernel)))).

(** The kernel of one weight. *)
Definition kernel_1x1 (k : float) : ArrayXXf := mkArray 1 1 (fun _ _ => k).

(** The 3x3 sharpening kernel 0 -1 0 / -1 5 -1 / 0 -1 0. *)
Definition sharpen3 : ArrayXXf :=
  mkArray 3 3 (fun i j =>
    if (i =? 1) && (j =? 1) then of_int 5
    else if (i =? 1) || (j =? 1) then of_int (-1) else 0%Qc).

(** [ArrayXXf fData(rows, cols)]: a size below 0 is a fault.  The
    coefficients are not initialised by the source; every one that is
    read below has been written before. *)
Definition alloc_array (rows cols : Z) : result ArrayXXf :=
  if (0 <=? rows) && (0 <=? cols)
  then Ok (mkArray rows cols (fun _ _ => 0%Qc)) else Fault.

(** [fData(i, j) = v] *)
Definition array_set (k : ArrayXXf) (i j : Z) (v : float) : result ArrayXXf :=
  if (0 <=? i) && (i <? a_rows k) && (0 <=? j) && (j <? a_cols k)
  then Ok (mkArray (a_rows k) (a_cols k)
             (fun i' j' => if (i' =? i) && (j' =? j) then v else a_data k i' j'))
  else Fault.

(** [kernel.transpose()] *)
Definition transpose (k : ArrayXXf) : ArrayXXf :=
  mkArray (a_cols k) (a_rows k) (fun i j => a_data k j i).

Section Gaussian.

(** [std::exp], of which nothing but its values is used. *)
Variable exp : float -> float.

(** The argument of [std::exp] at the tap [i]. *)
Definition gaussian_arg (sigma : float) (offset i : Z) : float :=
  (- of_int ((i - offset) * (i - offset)) / (of_int 2 * (sigma * sigma)))%Qc.

(** ArrayXXf horizontalGaussianKernel(float sigma, float truncate) *)
Definition horizontalGaussianKernel (sigma truncate : float) : result ArrayXXf :=
  let offset := Qceiling (truncate * sigma)%Qc in
  let filterSize := 2 * offset + 1 in
  fData <- alloc_array filterSize 1 ;;
  st <- for_range 0 filterSize
          (fun i st =>
             let '(fData, normalizer) := st in
             fData <- array_set fData i 0 (exp (gaussian_arg sigma offset i)) ;;
             v <- array_at fData i 0 ;;
             Ok (fData, (normalizer + v)%Qc))
          (fData, 0%Qc) ;;
  let '(fData, normalizer) := st in
  for_range 0 filterSize
    (fun i fData =>
       v <- array_at fData i 0 ;;
       array_set fData i 0 (v / normalizer)%Qc)
    fData.

(** HDRImage HDRImage::GaussianBlurredX(float sigmaX, BorderMode mX, float truncateX) const *)
Definition GaussianBlurredX (this : HDRImage) (sigmaX : float) (mX : BorderMode)
  (truncateX : float) : result HDRImage :=
  kernel <- horizontalGaussianKernel sigmaX truncateX ;;
  convolved this kernel mX mX.

(** HDRImage HDRImage::GaussianBlurredY(float sigmaY, BorderMode mY, float truncateY) const *)
Definition GaussianBlurredY (this : HDRImage) (sigmaY : float) (mY : BorderMode)
  (truncateY : float) : result HDRImage :=
  kernel <- horizontalGaussianKernel sigmaY truncateY ;;
  convolved this (transpose kernel) mY mY.

(** HDRImage HDRImage::GaussianBlurred(float sigmaX, float sigmaY, BorderMode mX, BorderMode mY,
                                       float truncateX, float truncateY) const *)
Definition GaussianBlurred (this : HDRImage) (sigmaX sigmaY : float) (mX mY : BorderMode)
  (truncateX truncateY : float) : result HDRImage :=
  blurredX <- GaussianBlurredX this sigmaX mX truncateX ;;
  GaussianBlurredY blurredX sigmaY mY truncateY.

End Gaussian.

(** A stand-in for [std::exp] that is 1 at 0 and 1/2 elsewhere. *)
Definition exp_step (t : float) : float :=
  if Qc_eq_bool t 0%Qc then 1%Qc else half.

(** The body of the loop over columns of [boxBlurredY]. *)
Definition boxBlurredY_col (this : HDRImage) (leftSize rightSize : Z) (mY : BorderMode)
  (x : Z) (imFilter : HDRImage) : result HDRImage :=
  imFilter <- assign imFilter x 0 (Color4_const 0%Qc) ;;
  imFilter <- for_range (- leftSize) (rightSize + 1)
    (fun dy imFilter =>
       acc <- at_ imFilter x 0 ;;
       p <- pixel this x dy mY mY ;;
       assign imFilter x 0 (Color4_add acc p))
    imFilter ;;
  for_range 1 (height this)
    (fun y imFilter =>
       prev <- at_ imFilter x (y - 1) ;;
       old <- pixel this x (y - 1 - leftSize) mY mY ;;
       new <- pixel this x (y + rightSize) mY mY ;;
       assign imFilter x y (Color4_add (Color4_sub prev old) new))
    imFilter.

(** HDRImage HDRImage::boxBlurredY(int leftSize, int rightSize, BorderMode mY) const *)
Definition boxBlurredY (this : HDRImage) (leftSize rightSize : Z) (mY : BorderMode)
  : result HDRImage :=
  let imFilter := new_image (width this) (height this) in
  imFilter <- for_range 0 (width imFilter)
    (boxBlurredY_col this leftSize rightSize mY) imFilter ;;
  Ok (image_mul imFilter (Color4_const (1 / of_int (leftSize + rightSize + 1))%Qc)).

(** The border-aware sum of the pixels (x, y-leftSize .. y+rightSize). *)
Definition window_sum_y (img : HDRImage) (leftSize rightSize : Z) (mY : BorderMode)
  (x y : Z) : Color4 :=
  Color4_sum (map (fun dy => pixel_val img x (y + dy) mY mY)
                  (zrange (- leftSize) (Z.to_nat (leftSize + rightSize + 1)))).



(** The pixel [p] with 1 in the colour channels other than [col]. *)
Definition ones_but (p : Color4) (col : Z) : Color4 :=
  mkColor4 (if col =? 0 then r p else 1%Qc)
           (if col =? 1 then g p else 1%Qc)
           (if col =? 2 then b p else 1%Qc)
           (a p).

(** [B] has, at every pixel of [A], the alpha of [A] and its value in the
    channel the Bayer pattern samples there. *)
Definition keeps_samples (A B : HDRImage) : Prop :=
  forall x y col, in_range A x y = true -> bayerColor x y = Ok col ->
    a (data B x y) = a (data A x y)
    /\ channel (data B x y) col = channel (data A x y) col.

(** A 6x1 raster for examples. *)
Definition ramp6 : HDRImage :=
  of_rows 6 1 [[gray 1; gray 2; gray 3; gray 4; gray 5; gray 6]].

(** The channel of the pixel (x, y) that the mosaic with its first red
    pixel at [redOffset] keeps: 0 (red), 1 (green) or 2 (blue). *)
Definition mosaic_channel (redOffset : Z * Z) (x y : Z) : Z :=
  let c := (x - fst redOffset) mod 2 in
  let r_ := (y - snd redOffset) mod 2 in
  if (r_ =? 0) && (c =? 0) then 0
  else if (r_ =? 1) && (c =? 1) then 2
  else 1.

(** The pixel [p] with 0 in the colour channels other than [k]. *)
Definition only_channel (p : Color4) (k : Z) : Color4 :=
  mkColor4 (if k =? 0 then r p else 0%Qc)
           (if k =? 1 then g p else 0%Qc)
           (if k =? 2 then b p else 0%Qc)
           (a p).

(** A 5x5 raster whose green channel is x + 10 y. *)
Definition green_grid : HDRImage :=
  mkImage 5 5 (fun x y => mkColor4 0%Qc (of_int (x + 10 * y)) 0%Qc 1%Qc).

(** ** The CIE L*a*b* table of demosaicAHD *)

(** [(int) v] for a float [v]: towards zero. *)
Definition trunc_int (v : float) : Z :=
  if Qcltb v 0%Qc then Qceiling v else Qfloor v.

(** [int(z)] for a [size_t] value [z]: the low 32 bits, signed. *)
Definition to_int (z : Z) : Z := (z + 2 ^ 31) mod 2 ^ 32 - 2 ^ 31.

(** [Matrix3f * Vector3f] *)
Definition mat_vec (M : Z -> Z -> float) (c : float * float * float)
  : float * float * float :=
  let '(c0, c1, c2) := c in
  let row := fun i : Z => (M i 0%Z * c0 + M i 1%Z * c1 + M i 2%Z * c2)%Qc in
  (row 0, row 1, row 2).

(** [LUT[clamp((int) (v * LUT.size()), 0, int(LUT.size()-1))]]: a read of
    the vector outside its size is a fault. *)
Definition lut_lookup (LUT : list float) (v : float) : result float :=
  let size := Z.of_nat (length LUT) in
  arr_at LUT (clamp (trunc_int (v * of_int size)%Qc) 0 (to_int (to_size_t (size - 1)))).

(** inline Vector3f cameraToLab(const Vector3f c, const Matrix3f & cameraToXYZ,
                                const vector<float> & LUT) *)
Definition cameraToLab (c : float * float * float) (cameraToXYZ : Z -> Z -> float)
  (LUT : list float) : result (float * float * float) :=
  let '(x0, y0, z0) := mat_vec cameraToXYZ c in
  x <- lut_lookup LUT x0 ;;
  y <- lut_lookup LUT y0 ;;
  z <- lut_lookup LUT z0 ;;
  Ok ((of_int 116 * y - of_int 16)%Qc,
      (of_int 500 * (x - y))%Qc,
      (of_int 200 * (y - z))%Qc).

(** [labLUT[i] = v] *)
Definition vec_set (buf : list float) (i : Z) (v : float) : result (list float) :=
  if (0 <=? i) && (i <? Z.of_nat (length buf))
  then Ok (firstn (Z.to_nat i) buf ++ v :: skipn (S (Z.to_nat i)) buf)
  else Fault.

(** [Array<Vector3f,Dynamic,Dynamic> Image3f]; [i3_rows] is the width. *)
Record Image3f : Type := mkImage3f {
  i3_rows : Z;
  i3_cols : Z;
  i3_data : Z -> Z -> float * float * float
}.

(** [lab(x, y) = v] *)
Definition image3f_set (im : Image3f) (x y : Z) (v : float * float * float)
  : result Image3f :=
  if (0 <=? x) && (x <? i3_rows im) && (0 <=? y) && (y <? i3_cols im)
  then Ok (mkImage3f (i3_rows im) (i3_cols im)
             (fun x' y' => if (x' =? x) && (y' =? y) then v else i3_data im x' y'))
  else Fault.

Section LabTable.

(** [std::pow(r, 1.0f / 3.0f)], of which nothing is used. *)
Variable cube_root : float -> float.

(** "Precompute a table for the nonlinear part of the CIELab conversion":
    [labLUT.reserve(0xFFFF)] reserves memory and leaves the size of the
    vector at 0, and the loop runs from 0 to [labLUT.size()]. *)
Definition labLUT_of_demosaicAHD : result (list float) :=
  let labLUT : list float := [] in
  for_range 0 (Z.of_nat (length labLUT))
    (fun i labLUT =>
       let r_ := (of_int i * 1 / of_int (to_size_t (Z.of_nat (length labLUT) - 1)))%Qc in
       vec_set labLUT i
         (if Qcltb (of_int 8856 / of_int 1000000)%Qc r_
          then cube_root r_
          else (of_int 7787 / of_int 1000 * r_ + of_int 4 / of_int 29)%Qc))
    labLUT.

(** "convert both interpolated images to CIE L*a*b*": one of the two
    loops of [demosaicAHD], for the candidate [rgb]. *)
Definition lab_pass (this rgb : HDRImage) (scale : float)
  (cameraToXYZ : Z -> Z -> float) (labLUT : list float) : result Image3f :=
  let lab := mkImage3f (width this) (height this) (fun _ _ => (0%Qc, 0%Qc, 0%Qc)) in
  for_range 0 (height this)
    (fun y lab =>
       for_range 0 (width rgb)
         (fun x lab =>
            p <- at_ rgb x y ;;
            c0 <- channel p 0 ;;
            c1 <- channel p 1 ;;
            c2 <- channel p 2 ;;
            v <- cameraToLab ((c0 * scale)%Qc, (c1 * scale)%Qc, (c2 * scale)%Qc)
                   cameraToXYZ labLUT ;;
            image3f_set lab x y v)
         lab)
    lab.

(** The table and the pass over one candidate, as [demosaicAHD] runs them. *)
Definition demosaicAHD_lab (this rgb : HDRImage) (scale : float)
  (cameraToXYZ : Z -> Z -> float) : result Image3f :=
  labLUT <- labLUT_of_demosaicAHD ;;
  lab_pass this rgb scale cameraToXYZ labLUT.

End LabTable.

(** ** Histograms *)







Section Histograms.

(** [LinearToSRGB] of colorspace.h and the colour
    [Color4 gain(pow(2.f, exposure), 1.f)], of which nothing but their
    values is used. *)
Variable LinearToSRGB : Color4 -> Color4.
Variable gain : float -> Color4.



End Histograms.



(** ** Green interpolation along rows and columns *)

(** [parallel_for(begin, end, step, body)] and [for (i = lo; i < hi; i += step)]
    for a step above 0: the indices lo, lo + step, ... below hi, in
    order. *)
Definition for_range_step {S : Type} (lo hi step : Z) (body : Z -> S -> result S)
  (s : S) : result S :=
  for_loop (Z.to_nat ((hi - lo + step - 1) / step)) 0
    (fun k s => body (lo + step * k) s) s.

(** [this(x, y).g = v] *)
Definition set_green (this : HDRImage) (x y : Z) (v : float) : result HDRImage :=
  p <- at_ this x y ;;
  assign this x y (mkColor4 (r p) v (b p) (a p)).

(** void HDRImage::demosaicGreenHorizontal(const HDRImage &raw, const Vector2i &redOffset) *)
Definition demosaicGreenHorizontal (this raw : HDRImage) (redOffset : Z * Z)
  : result HDRImage :=
  for_range_step (snd redOffset) (height this) 2
    (fun y this =>
       for_range_step (2 + fst redOffset) (width this - 2) 2
         (fun x this =>
            v <- interpGreenH raw x y ;;
            this <- set_green this x y v ;;
            v <- interpGreenH raw (x + 1) (y + 1) ;;
            set_green this (x + 1) (y + 1) v)
         this)
    this.

(** void HDRImage::demosaicGreenVertical(const HDRImage &raw, const Vector2i &redOffset) *)
Definition demosaicGreenVertical (this raw : HDRImage) (redOffset : Z * Z)
  : result HDRImage :=
  for_range_step (2 + snd redOffset) (height this - 2) 2
    (fun y this =>
       for_range_step (fst redOffset) (width this) 2
         (fun x this =>
            v <- interpGreenV raw x y ;;
            this <- set_green this x y v ;;
            v <- interpGreenV raw (x + 1) (y + 1) ;;
            set_green this (x + 1) (y + 1) v)
         this)
    this.

(** [m] is a fault, or a raster of the size of [A]. *)
Definition fault_or_sized (A : HDRImage) (m : result HDRImage) : Prop :=
  m = Fault
  \/ exists out, m = Ok out /\ width out = width A /\ height out = height A.

(** [B] has the red, blue and alpha of [A] at every pixel. *)
Definition same_but_green (A B : HDRImage) : Prop :=
  width B = width A /\ height B = height A /\
  forall x y, r (data B x y) = r (data A x y)
              /\ b (data B x y) = b (data A x y)
              /\ a (data B x y) = a (data A x y).

(** An 8x8 raster whose green channel is x + 10 y. *)
Definition green_grid8 : HDRImage :=
  mkImage 8 8 (fun x y => mkColor4 0%Qc (of_int (x + 10 * y)) 0%Qc 1%Qc).

(** * Properties *)

Ltac case_bool :=
  match goal with
  | |- context [if ?c then _ else _] => destruct c eqn:?
  end.

(** ** Border-aware access *)

Lemma wrapCoord_in_range (p maxP : Z) (m : BorderMode) :
  0 <= p < maxP -> wrapCoord p maxP m = Ok p.
Proof.
  intros Hp. unfold wrapCoord.
  replace ((0 <=? p) && (p <? maxP)) with true; [reflexivity|].
  symmetry. apply andb_true_iff. split; [apply Z.leb_le | apply Z.ltb_lt]; lia.
Qed.

Lemma wrapCoord_edge (p maxP : Z) :
  0 < maxP -> wrapCoord p maxP EDGE = Ok (wrapCoord_spec p maxP EDGE).
Proof.
  intros Hd. unfold wrapCoord, wrapCoord_spec, clamp.
  destruct ((0 <=? p) && (p <? maxP)) eqn:E.
  - apply andb_true_iff in E. destruct E as [E1 E2].
    apply Z.leb_le in E1. apply Z.ltb_lt in E2. f_equal. lia.
  - f_equal. apply andb_false_iff in E.
    destruct (p <? 0) eqn:E1; [apply Z.ltb_lt in E1; lia|].
    apply Z.ltb_ge in E1.
    destruct (maxP - 1 <? p) eqn:E2; [apply Z.ltb_lt in E2; lia|].
    apply Z.ltb_ge in E2.
    destruct E as [E | E]; [apply Z.leb_gt in E | apply Z.ltb_ge in E]; lia.
Qed.

Lemma wrapCoord_repeat (p maxP : Z) :
  0 < maxP -> wrapCoord p maxP REPEAT = Ok (wrapCoord_spec p maxP REPEAT).
Proof.
  intros Hd. unfold wrapCoord, wrapCoord_spec, imod.
  destruct ((0 <=? p) && (p <? maxP)) eqn:E.
  - apply andb_true_iff in E. destruct E as [E1 E2].
    apply Z.leb_le in E1. apply Z.ltb_lt in E2.
    rewrite Z.mod_small by lia. reflexivity.
  - destruct (maxP =? 0) eqn:E0; [apply Z.eqb_eq in E0; lia | reflexivity].
Qed.


Lemma wrapCoord_total (p maxP : Z) (m : BorderMode) :
  0 < maxP -> m <> BLACK ->
  exists q, wrapCoord p maxP m = Ok q /\ 0 <= q < maxP.
Proof.
  intros Hd Hm. unfold wrapCoord.
  destruct ((0 <=? p) && (p <? maxP)) eqn:E.
  - apply andb_true_iff in E. destruct E as [E1 E2].
    apply Z.leb_le in E1. apply Z.ltb_lt in E2. exists p. split; [reflexivity | lia].
  - pose proof (Z.mod_pos_bound p maxP Hd) as Hb.
    destruct m; [congruence | | |].
    + exists (clamp p 0 (maxP - 1)). split; [reflexivity|].
      unfold clamp. repeat case_bool; lia.
    + unfold imod. destruct (maxP =? 0) eqn:E0; [apply Z.eqb_eq in E0; lia|].
      exists (p mod maxP). split; [reflexivity | lia].
    + unfold imod, idiv, irem.
      destruct (maxP =? 0) eqn:E0; [apply Z.eqb_eq in E0; lia|].
      cbn [bind]. change (2 =? 0) with false. cbn [bind].
      eexists. split; [reflexivity|].
      case_bool; lia.
Qed.

(** C1 (the MIRROR case on a negative coordinate): at p = -1 and dim = 5
    the specification reflects to 0, as floor(-1/5) = -1 is odd; the code
    takes the parity of |p| / dim = 0 and returns the direct offset 4.
    The other cases of the claim hold: [wrapCoord_in_range],
    [wrapCoord_edge], [wrapCoord_repeat], [wrapCoord_mirror_nonneg]. *)
Theorem wrapCoord_mirror_negative :
  wrapCoord (-1) 5 MIRROR = Ok 4 /\ wrapCoord_spec (-1) 5 MIRROR = 0.
Proof. split; reflexivity. Qed.

(** A raster of no pixels. *)
Example pixel_empty_raster_example :
  pixel (new_image 0 0) 0 0 EDGE EDGE = Ok g_blackPixel.
Proof. reflexivity. Qed.

(** C2, as stated, fails: on a raster of width 0 REPEAT and MIRROR divide
    by the width. *)
Lemma pixel_empty_raster_faults :
  pixel (new_image 0 0) 0 0 REPEAT REPEAT = Fault /\
  pixel (new_image 0 0) 0 0 MIRROR MIRROR = Fault /\
  ~ (forall (img : HDRImage) (m : BorderMode) (x y : Z),
       m <> BLACK -> is_ok (pixel img x y m m) = true).
Proof.
  split; [reflexivity|]. split; [reflexivity|].
  intros H. specialize (H (new_image 0 0) REPEAT 0 0).
  assert (Hm : REPEAT <> BLACK) by discriminate.
  specialize (H Hm). discriminate H.
Qed.

(** C2, amended: on a raster with at least one pixel, every read under
    EDGE, REPEAT or MIRROR returns a stored pixel, whatever the integers
    x and y. *)
Theorem pixel_total (img : HDRImage) (m : BorderMode) (x y : Z) :
  0 < width img -> 0 < height img -> m <> BLACK ->
  exists x' y', in_range img x' y' = true /\
                pixel img x y m m = Ok (data img x' y').
Proof.
  intros Hw Hh Hm.
  destruct (wrapCoord_total x (width img) m Hw Hm) as [x' [Ex Bx]].
  destruct (wrapCoord_total y (height img) m Hh Hm) as [y' [Ey By]].
  assert (Hr : in_range img x' y' = true).
  { unfold in_range. repeat (apply andb_true_iff; split);
      try apply Z.leb_le; try apply Z.ltb_lt; lia. }
  exists x', y'. split; [exact Hr|].
  unfold pixel. rewrite Ex, Ey. cbn [bind].
  replace ((x' <? 0) || (y' <? 0)) with false.
  - unfold at_. rewrite Hr. reflexivity.
  - symmetry. apply orb_false_iff. split; apply Z.ltb_ge; lia.
Qed.

Lemma pixel_total_witness :
  exists x' y', in_range (of_rows 2 1 [[gray 1; gray 2]]) x' y' = true /\
                pixel (of_rows 2 1 [[gray 1; gray 2]]) (-7) 9 MIRROR MIRROR
                = Ok (data (of_rows 2 1 [[gray 1; gray 2]]) x' y').
Proof.
  apply (pixel_total (of_rows 2 1 [[gray 1; gray 2]]) MIRROR (-7) 9).
  - reflexivity.
  - reflexivity.
  - discriminate.
Defined.

Lemma in_range_iff (img : HDRImage) (x y : Z) :
  in_range img x y = true <-> (0 <= x < width img /\ 0 <= y < height img).
Proof.
  unfold in_range. rewrite !andb_true_iff, !Z.leb_le, !Z.ltb_lt. lia.
Qed.

Lemma in_range_intro (img : HDRImage) (x y : Z) :
  0 <= x < width img -> 0 <= y < height img -> in_range img x y = true.
Proof. intros. apply in_range_iff. split; assumption. Qed.

Lemma inside_true (p maxP : Z) :
  0 <= p < maxP -> (0 <=? p) && (p <? maxP) = true.
Proof. intros. rewrite andb_true_iff, Z.leb_le, Z.ltb_lt. lia. Qed.

Lemma wrapCoord_black (p maxP : Z) :
  wrapCoord p maxP BLACK = Ok (if (0 <=? p) && (p <? maxP) then p else -1).
Proof. unfold wrapCoord. case_bool; reflexivity. Qed.

(** C3: under BLACK a read outside the raster returns the pixel
    (0,0,0,0) and a write there throws [out_of_range]; inside the raster
    the read returns the stored pixel and the write replaces it. *)
Theorem pixel_black (img : HDRImage) (x y : Z) (c : Color4) :
  g_blackPixel = mkColor4 0%Qc 0%Qc 0%Qc 0%Qc /\
  pixel img x y BLACK BLACK
  = Ok (if in_range img x y then data img x y else g_blackPixel) /\
  pixel_write img x y BLACK BLACK c
  = (if in_range img x y
     then Ok (mkImage (width img) (height img)
                (fun x' y' => if (x' =? x) && (y' =? y) then c else data img x' y'))
     else Throw out_of_range).
Proof.
  split; [reflexivity|].
  unfold pixel, pixel_write, pixel_ref. rewrite !wrapCoord_black.
  destruct (in_range img x y) eqn:R.
  - pose proof R as R'. apply in_range_iff in R'. destruct R' as [Hx Hy].
    rewrite !inside_true by assumption. cbn [bind].
    replace (x <? 0) with false by (symmetry; apply Z.ltb_ge; lia).
    replace (y <? 0) with false by (symmetry; apply Z.ltb_ge; lia).
    cbn [orb fst snd bind]. unfold at_, assign. rewrite R. cbn [bind fst snd].
    rewrite R. split; reflexivity.
  - destruct ((0 <=? x) && (x <? width img)) eqn:X;
      destruct ((0 <=? y) && (y <? height img)) eqn:Y; cbn [bind].
    + unfold in_range in R. rewrite <- andb_assoc, X, Y in R. discriminate R.
    + rewrite orb_true_r. split; reflexivity.
    + split; reflexivity.
    + split; reflexivity.
Qed.

(** ** Canvas resizing *)

Lemma quot2_bounds (d : Z) :
  (0 <= d -> 0 <= Z.quot d 2 <= d) /\ (d < 0 -> d <= Z.quot d 2 <= 0).
Proof.
  split; intros Hd.
  - rewrite Z.quot_div_nonneg by lia.
    pose proof (Z.div_mod d 2 ltac:(lia)). pose proof (Z.mod_pos_bound d 2 ltac:(lia)). lia.
  - replace d with (- (- d)) by lia. rewrite Z.quot_opp_l by lia.
    rewrite Z.quot_div_nonneg by lia.
    pose proof (Z.div_mod (- d) 2 ltac:(lia)).
    pose proof (Z.mod_pos_bound (- d) 2 ltac:(lia)). lia.
Qed.

Lemma tlDst_x_bounds (anchor : CanvasAnchor) (newW oldW : Z) :
  (0 <= newW - oldW -> 0 <= tlDst_x anchor newW oldW <= newW - oldW) /\
  (newW - oldW < 0 -> newW - oldW <= tlDst_x anchor newW oldW <= 0).
Proof.
  pose proof (quot2_bounds (newW - oldW)).
  destruct anchor; cbn [tlDst_x]; lia.
Qed.

Lemma tlDst_y_bounds (anchor : CanvasAnchor) (newH oldH : Z) :
  (0 <= newH - oldH -> 0 <= tlDst_y anchor newH oldH <= newH - oldH) /\
  (newH - oldH < 0 -> newH - oldH <= tlDst_y anchor newH oldH <= 0).
Proof.
  pose proof (quot2_bounds (newH - oldH)).
  destruct anchor; cbn [tlDst_y]; lia.
Qed.

(** What the clipping of one axis yields: the block starts at
    [max 0 o] in the destination and at [max 0 o - o] in the source. *)
Lemma clip_tl_eq (o : Z) : clip_tl o = (Z.max 0 o - o, Z.max 0 o).
Proof.
  unfold clip_tl. destruct (Z.ltb_spec o 0); f_equal; lia.
Qed.

Lemma range_bool_iff (lo n v : Z) :
  (lo <=? v) && (v <? lo + n) = true <-> lo <= v < lo + n.
Proof. rewrite andb_true_iff, Z.leb_le, Z.ltb_lt. reflexivity. Qed.

(** C9, as stated, fails: for a CENTER anchor the offset is the quotient
    truncated towards zero, not the floor; shrinking a 4x1 raster to 1x1
    keeps the pixel of column 1, where the floor would keep column 2. *)
Lemma resizedCanvas_center_truncates :
  tlDst_x MIDDLE_CENTER 1 4 = -1 /\
  center_offset_spec 1 4 = -2 /\
  exists out,
    resizedCanvas (of_rows 4 1 [[gray 10; gray 20; gray 30; gray 40]])
      1 1 MIDDLE_CENTER g_blackPixel = Ok out /\
    data out 0 0 = gray 20.
Proof.
  split; [reflexivity|]. split; [reflexivity|].
  eexists. split; reflexivity.
Qed.

(** C9, amended: for sizes that are not negative, [resizedCanvas] returns
    a newW x newH raster that shows the old raster placed at the offset
    (ox, oy) and [bgColor] elsewhere; ox is newW-oldW for RIGHT anchors,
    (newW-oldW)/2 truncated towards zero for CENTER anchors (the floor
    when newW >= oldW) and 0 for LEFT anchors, and likewise oy; the
    copied region is the block of min(oldW,newW) x min(oldH,newH) pixels
    that starts at (max 0 ox, max 0 oy). *)
Theorem resizedCanvas_correct (this : HDRImage) (newW newH : Z)
  (anchor : CanvasAnchor) (bgColor : Color4) :
  0 <= width this -> 0 <= height this -> 0 <= newW -> 0 <= newH ->
  let oldW := width this in
  let oldH := height this in
  let ox := tlDst_x anchor newW oldW in
  let oy := tlDst_y anchor newH oldH in
  (ox = match anchor with
        | TOP_RIGHT | MIDDLE_RIGHT | BOTTOM_RIGHT => newW - oldW
        | TOP_CENTER | MIDDLE_CENTER | BOTTOM_CENTER => Z.quot (newW - oldW) 2
        | TOP_LEFT | MIDDLE_LEFT | BOTTOM_LEFT => 0
        end) /\
  (oy = match anchor with
        | BOTTOM_LEFT | BOTTOM_CENTER | BOTTOM_RIGHT => newH - oldH
        | MIDDLE_LEFT | MIDDLE_CENTER | MIDDLE_RIGHT => Z.quot (newH - oldH) 2
        | TOP_LEFT | TOP_CENTER | TOP_RIGHT => 0
        end) /\
  (oldW <= newW -> Z.quot (newW - oldW) 2 = center_offset_spec newW oldW) /\
  (oldH <= newH -> Z.quot (newH - oldH) 2 = center_offset_spec newH oldH) /\
  exists out,
    resizedCanvas this newW newH anchor bgColor = Ok out /\
    width out = newW /\ height out = newH /\
    forall x y, 0 <= x < newW -> 0 <= y < newH ->
      data out x y
      = (if in_range this (x - ox) (y - oy)
         then data this (x - ox) (y - oy) else bgColor) /\
      (in_range this (x - ox) (y - oy) = true <->
       Z.max 0 ox <= x < Z.max 0 ox + Z.min oldW newW /\
       Z.max 0 oy <= y < Z.max 0 oy + Z.min oldH newH).
Proof.
  intros Hw Hh HnW HnH oldW oldH ox oy.
  split; [destruct anchor; reflexivity|].
  split; [destruct anchor; reflexivity|].
  split; [intros; unfold center_offset_spec; apply Z.quot_div_nonneg; lia|].
  split; [intros; unfold center_offset_spec; apply Z.quot_div_nonneg; lia|].
  pose proof (tlDst_x_bounds anchor newW oldW) as [Bx1 Bx2].
  pose proof (tlDst_y_bounds anchor newH oldH) as [By1 By2].
  fold ox in Bx1, Bx2. fold oy in By1, By2.
  unfold resizedCanvas, Constant.
  rewrite (proj2 (andb_true_iff _ _)) by (split; apply Z.leb_le; assumption).
  cbn [bind]. fold oldW oldH ox oy. rewrite !clip_tl_eq.
  unfold block_copy, block_fits. cbn [width height data].
  fold oldW oldH.
  match goal with
  | |- context [if ?c then _ else _] => assert (Hfit : c = true)
  end.
  { rewrite !andb_true_iff, !Z.leb_le. lia. }
  rewrite Hfit. eexists. split; [reflexivity|].
  cbn [width height data]. split; [reflexivity|]. split; [reflexivity|].
  intros x y Hx Hy.
  assert (Hiff : in_range this (x - ox) (y - oy) = true <->
                 Z.max 0 ox <= x < Z.max 0 ox + Z.min oldW newW /\
                 Z.max 0 oy <= y < Z.max 0 oy + Z.min oldH newH).
  { rewrite in_range_iff. fold oldW oldH. lia. }
  split; [|exact Hiff].
  rewrite <- andb_assoc.
  destruct (in_range this (x - ox) (y - oy)) eqn:R.
  - destruct Hiff as [Hiff _]. specialize (Hiff eq_refl).
    rewrite (proj2 (range_bool_iff _ _ _)) by lia.
    rewrite (proj2 (range_bool_iff _ _ _)) by lia.
    cbn [andb]. f_equal; lia.
  - match goal with
    | |- (if ?c then _ else _) = _ => destruct c eqn:C
    end; [|reflexivity].
    apply andb_true_iff in C. destruct C as [C1 C2].
    apply range_bool_iff in C1. apply range_bool_iff in C2.
    destruct Hiff as [_ Hiff].
    specialize (Hiff (conj C1 C2)). discriminate Hiff.
Qed.

Lemma resizedCanvas_correct_witness :
  exists out,
    resizedCanvas (of_rows 2 1 [[gray 1; gray 2]]) 5 1 BOTTOM_CENTER g_blackPixel = Ok out /\
    width out = 5 /\ height out = 1.
Proof.
  destruct (resizedCanvas_correct (of_rows 2 1 [[gray 1; gray 2]]) 5 1
              BOTTOM_CENTER g_blackPixel)
    as [_ [_ [_ [_ [out [E [W [H _]]]]]]]].
  - cbn. lia.
  - cbn. lia.
  - lia.
  - lia.
  - exists out. split; [exact E|]. split; assumption.
Defined.

(** ** Loops *)

Lemma for_loop_ext {S : Type} (n : nat) (lo : Z) (f h : Z -> S -> result S) (s : S) :
  (forall i s', lo <= i < lo + Z.of_nat n -> f i s' = h i s') ->
  for_loop n lo f s = for_loop n lo h s.
Proof.
  revert lo s. induction n as [|n IH]; intros lo s Hext; [reflexivity|].
  cbn [for_loop]. rewrite Hext by lia.
  destruct (h lo s) as [s1| |]; cbn [bind]; try reflexivity.
  apply IH. intros i s' Hi. apply Hext. lia.
Qed.

Lemma for_range_ext {S : Type} (lo hi : Z) (f h : Z -> S -> result S) (s : S) :
  (forall i s', lo <= i < hi -> f i s' = h i s') ->
  for_range lo hi f s = for_range lo hi h s.
Proof.
  intros Hext. unfold for_range. apply for_loop_ext.
  intros i s' Hi. apply Hext. lia.
Qed.

(** A loop whose body appends to a buffer. *)
Lemma for_loop_append {A : Type} (n : nat) (lo : Z) (f : Z -> list A) (buf : list A) :
  for_loop n lo (fun i buf => Ok (buf ++ f i)) buf
  = Ok (buf ++ flat_map f (zrange lo n)).
Proof.
  revert lo buf. induction n as [|n IH]; intros lo buf.
  - cbn. rewrite app_nil_r. reflexivity.
  - cbn [for_loop bind]. rewrite IH. unfold zrange. cbn [seq map flat_map].
    rewrite <- seq_shift, map_map, <- app_assoc. do 3 f_equal.
    + f_equal. lia.
    + f_equal. apply map_ext. intros k. lia.
Qed.

(** A loop over the pixels of one row that rewrites each pixel from its
    own old value. *)
Lemma for_loop_row (body : Z -> HDRImage -> result HDRImage)
  (F : Z -> Color4 -> Color4) (y : Z) (n : nat) (lo : Z) (tb : HDRImage) :
  (forall x, lo <= x < lo + Z.of_nat n -> 0 <= x < width tb /\ 0 <= y < height tb) ->
  (forall x tb1, lo <= x < lo + Z.of_nat n ->
     width tb1 = width tb -> height tb1 = height tb ->
     body x tb1 = assign tb1 x y (F x (data tb1 x y))) ->
  exists tb', for_loop n lo body tb = Ok tb' /\
    width tb' = width tb /\ height tb' = height tb /\
    forall x' y', data tb' x' y'
      = if (y' =? y) && ((lo <=? x') && (x' <? lo + Z.of_nat n))
        then F x' (data tb x' y') else data tb x' y'.
Proof.
  revert lo tb. induction n as [|n IH]; intros lo tb Hin Hbody.
  - exists tb. repeat split; try reflexivity. intros x' y'.
    replace ((lo <=? x') && (x' <? lo + Z.of_nat 0)) with false.
    + rewrite andb_false_r. reflexivity.
    + symmetry. apply andb_false_iff.
      destruct (Z.leb_spec lo x'); [right; apply Z.ltb_ge; lia | left; reflexivity].
  - cbn [for_loop]. rewrite Hbody by lia. unfold assign at 1.
    destruct (Hin lo ltac:(lia)) as [Hx0 Hy0].
    rewrite in_range_intro by lia. cbn [bind].
    match goal with
    | |- context [for_loop n (lo + 1) body ?t] => set (tb1 := t)
    end.
    destruct (IH (lo + 1) tb1) as [tb' [E [W [H D]]]].
    + intros x Hx. cbn [tb1 width height]. apply Hin. lia.
    + intros x tb2 Hx W2 H2. apply Hbody; [lia | exact W2 | exact H2].
    + exists tb'. split; [exact E|]. split; [exact W|]. split; [exact H|].
      intros x' y'. rewrite D. subst tb1. cbn [data].
      destruct (Z.eqb_spec y' y) as [->|Ny]; cbn [andb].
      * destruct (Z.eqb_spec x' lo) as [->|Nx]; cbn [andb].
        -- replace (lo + 1 <=? lo) with false by (symmetry; apply Z.leb_gt; lia).
           cbn [andb]. rewrite Z.leb_refl.
           replace (lo <? lo + Z.of_nat (S n)) with true
             by (symmetry; apply Z.ltb_lt; lia).
           reflexivity.
        -- replace (lo + 1 + Z.of_nat n) with (lo + Z.of_nat (S n)) by lia.
           replace (lo + 1 <=? x') with (lo <=? x'); [reflexivity|].
           destruct (Z.leb_spec lo x'), (Z.leb_spec (lo + 1) x'); try reflexivity; lia.
      * rewrite andb_false_r. reflexivity.
Qed.

(** A loop over rows whose inner loop rewrites the pixels of columns
    xlo..xhi-1 of its row. *)
Lemma for_loop_rows (inner : Z -> HDRImage -> result HDRImage)
  (F : Z -> Z -> Color4 -> Color4) (xlo xhi : Z) (m : nat) (ylo : Z) (tb : HDRImage) :
  (forall y tb1, ylo <= y < ylo + Z.of_nat m ->
     width tb1 = width tb -> height tb1 = height tb ->
     exists tb2, inner y tb1 = Ok tb2 /\
       width tb2 = width tb1 /\ height tb2 = height tb1 /\
       forall x' y', data tb2 x' y'
         = if (y' =? y) && ((xlo <=? x') && (x' <? xhi))
           then F x' y' (data tb1 x' y') else data tb1 x' y') ->
  exists tb', for_loop m ylo inner tb = Ok tb' /\
    width tb' = width tb /\ height tb' = height tb /\
    forall x' y', data tb' x' y'
      = if ((ylo <=? y') && (y' <? ylo + Z.of_nat m)) && ((xlo <=? x') && (x' <? xhi))
        then F x' y' (data tb x' y') else data tb x' y'.
Proof.
  revert ylo tb. induction m as [|m IH]; intros ylo tb Hinner.
  - exists tb. repeat split; try reflexivity. intros x' y'.
    replace ((ylo <=? y') && (y' <? ylo + Z.of_nat 0)) with false; [reflexivity|].
    symmetry. apply andb_false_iff.
    destruct (Z.leb_spec ylo y'); [right; apply Z.ltb_ge; lia | left; reflexivity].
  - cbn [for_loop].
    destruct (Hinner ylo tb) as [tb1 [E1 [W1 [H1 D1]]]]; try lia; try reflexivity.
    rewrite E1. cbn [bind].
    destruct (IH (ylo + 1) tb1) as [tb' [E [W [H D]]]].
    + intros y tb2 Hy W2 H2.
      destruct (Hinner y tb2) as [tb3 [E3 [W3 [H3 D3]]]]; try lia; try congruence.
      exists tb3. repeat split; assumption.
    + exists tb'. split; [exact E|]. split; [congruence|]. split; [congruence|].
      intros x' y'. rewrite D, D1.
      destruct (Z.eqb_spec y' ylo) as [->|Ny]; cbn [andb].
      * replace (ylo + 1 <=? ylo) with false by (symmetry; apply Z.leb_gt; lia).
        cbn [andb]. rewrite Z.leb_refl.
        replace (ylo <? ylo + Z.of_nat (S m)) with true
          by (symmetry; apply Z.ltb_lt; lia).
        reflexivity.
      * replace (ylo + 1 + Z.of_nat m) with (ylo + Z.of_nat (S m)) by lia.
        replace (ylo + 1 <=? y') with (ylo <=? y'); [reflexivity|].
        destruct (Z.leb_spec ylo y'), (Z.leb_spec (ylo + 1) y'); try reflexivity; lia.
Qed.

(** ** Reads on a raster with at least one pixel *)

Lemma wrapCoord_ok (p maxP : Z) (m : BorderMode) :
  0 < maxP -> exists q, wrapCoord p maxP m = Ok q /\ -1 <= q < maxP.
Proof.
  intros Hd. destruct m.
  - rewrite wrapCoord_black. eexists. split; [reflexivity|].
    destruct ((0 <=? p) && (p <? maxP)) eqn:E; [|lia].
    apply andb_true_iff in E. destruct E as [E1 E2].
    apply Z.leb_le in E1. apply Z.ltb_lt in E2. lia.
  - destruct (wrapCoord_total p maxP EDGE Hd ltac:(discriminate)) as [q [E B]].
    exists q. split; [exact E | lia].
  - destruct (wrapCoord_total p maxP REPEAT Hd ltac:(discriminate)) as [q [E B]].
    exists q. split; [exact E | lia].
  - destruct (wrapCoord_total p maxP MIRROR Hd ltac:(discriminate)) as [q [E B]].
    exists q. split; [exact E | lia].
Qed.

Lemma pixel_ok (img : HDRImage) (x y : Z) (mX mY : BorderMode) :
  0 < width img -> 0 < height img ->
  pixel img x y mX mY = Ok (pixel_val img x y mX mY).
Proof.
  intros Hw Hh. unfold pixel_val.
  destruct (wrapCoord_ok x (width img) mX Hw) as [x' [Ex Bx]].
  destruct (wrapCoord_ok y (height img) mY Hh) as [y' [Ey By]].
  unfold pixel. rewrite Ex, Ey. cbn [bind].
  destruct ((x' <? 0) || (y' <? 0)) eqn:E; [reflexivity|].
  apply orb_false_iff in E. destruct E as [E1 E2].
  apply Z.ltb_ge in E1. apply Z.ltb_ge in E2.
  unfold at_. rewrite in_range_intro by lia. reflexivity.
Qed.

Lemma pixel_val_in_range (img : HDRImage) (x y : Z) (mX mY : BorderMode) :
  in_range img x y = true -> pixel_val img x y mX mY = data img x y.
Proof.
  intros R. pose proof R as R'. apply in_range_iff in R'. destruct R' as [Hx Hy].
  unfold pixel_val, pixel. rewrite !wrapCoord_in_range by assumption. cbn [bind].
  replace (x <? 0) with false by (symmetry; apply Z.ltb_ge; lia).
  replace (y <? 0) with false by (symmetry; apply Z.ltb_ge; lia).
  cbn [orb]. unfold at_. rewrite R. reflexivity.
Qed.

Lemma channel_cases (k : Z) :
  0 <= k <= 3 -> k = 0 \/ k = 1 \/ k = 2 \/ k = 3.
Proof. lia. Qed.

Lemma channel_ok (c : Color4) (k : Z) :
  0 <= k <= 3 -> channel c k = Ok (channel_val c k).
Proof.
  intros Hk. unfold channel_val.
  destruct (channel_cases k Hk) as [-> | [-> | [-> | ->]]]; reflexivity.
Qed.

Lemma set_channel_ok (c : Color4) (k : Z) (v : float) :
  0 <= k <= 3 -> set_channel c k v = Ok (set_channel_val c k v).
Proof.
  intros Hk. unfold set_channel_val.
  destruct (channel_cases k Hk) as [-> | [-> | [-> | ->]]]; reflexivity.
Qed.


Lemma channel_set_other (c : Color4) (k j : Z) (v : float) :
  0 <= k <= 3 -> j <> k -> channel (set_channel_val c k v) j = channel c j.
Proof.
  intros Hk Hj. unfold channel.
  destruct (channel_cases k Hk) as [-> | [-> | [-> | ->]]];
    cbn [set_channel_val set_channel Z.eqb r g b a];
    destruct (Z.eqb_spec j 0), (Z.eqb_spec j 1), (Z.eqb_spec j 2), (Z.eqb_spec j 3);
    try reflexivity; lia.
Qed.

(** ** Sorting and order statistics *)




Lemma insert_sorted_perm (v : float) (l : list float) :
  Permutation (v :: l) (insert_sorted v l).
Proof.
  induction l as [|h t IH]; cbn [insert_sorted]; [reflexivity|].
  destruct (Qcleb v h); [reflexivity|].
  rewrite perm_swap. apply perm_skip. exact IH.
Qed.

Lemma sort_perm (l : list float) : Permutation l (sort l).
Proof.
  induction l as [|h t IH]; cbn [sort]; [reflexivity|].
  rewrite <- insert_sorted_perm. apply perm_skip. exact IH.
Qed.








(** ** Median filter *)

Lemma map_filter_prod {A B C : Type} (gv : A * B -> C) (keep : A * B -> bool)
  (l1 : list A) (l2 : list B) :
  map gv (filter keep (list_prod l1 l2))
  = flat_map (fun i => flat_map (fun j => if keep (i, j) then [gv (i, j)] else []) l2) l1.
Proof.
  induction l1 as [|i l1 IH]; cbn [list_prod flat_map map filter]; [reflexivity|].
  rewrite filter_app, map_app, IH. f_equal.
  clear IH. induction l2 as [|j l2 IH]; cbn [map filter flat_map]; [reflexivity|].
  destruct (keep (i, j)); cbn [map app]; rewrite IH; reflexivity.
Qed.

(** The nested loops of the code gather the values of the neighbourhood,
    column by column. *)
Lemma gather_eq (this : HDRImage) (radius : float) (channel_ : Z)
  (mX mY : BorderMode) (round : bool) (x y : Z) :
  0 < width this -> 0 < height this -> 0 <= channel_ <= 3 ->
  gather this radius (Qceiling radius) channel_ mX mY round x y
  = Ok (neighborhood_values this radius channel_ mX mY round x y).
Proof.
  intros Hw Hh Hc. unfold gather.
  set (e := Qceiling radius).
  set (keep := fun ij : Z * Z =>
                 negb round || Qcleb (of_int (fst ij * fst ij + snd ij * snd ij))
                                     (radius * radius)%Qc).
  set (gv := fun ij : Z * Z =>
               channel_val (pixel_val this (x + fst ij) (y + snd ij) mX mY) channel_).
  set (side := zrange (- e) (Z.to_nat (e + 1 - - e))).
  rewrite (for_range_ext _ _ _
             (fun i buf => Ok (buf ++ flat_map
                (fun j => if keep (i, j) then [gv (i, j)] else []) side))).
  - unfold for_range. rewrite for_loop_append. cbn [app]. f_equal.
    fold side. unfold neighborhood_values, neighborhood. fold e.
    replace (Z.to_nat (2 * e + 1)) with (Z.to_nat (e + 1 - - e)) by lia.
    fold side. symmetry. apply (map_filter_prod gv keep side side).
  - intros i buf Hi. unfold for_range.
    rewrite (for_loop_ext _ _ _
               (fun j buf => Ok (buf ++ (if keep (i, j) then [gv (i, j)] else [])))).
    + rewrite (for_loop_append _ _ (fun j => if keep (i, j) then [gv (i, j)] else [])).
      reflexivity.
    + intros j buf' Hj. subst keep gv. cbn [fst snd]. unfold Qcltb, Qcleb.
      destruct round; cbn [andb negb orb].
      * destruct (Qle_bool _ _); cbn [negb].
        -- rewrite pixel_ok by assumption. cbn [bind].
           rewrite channel_ok by assumption. reflexivity.
        -- rewrite app_nil_r. reflexivity.
      * rewrite pixel_ok by assumption. cbn [bind].
        rewrite channel_ok by assumption. reflexivity.
Qed.

Lemma sqr_nonneg_Qcleb (radius : float) :
  Qcleb (of_int 0) (radius * radius)%Qc = true.
Proof.
  unfold Qcleb. apply Qle_bool_iff. cbn [this Qcmult Q2Qc of_int].
  rewrite !Qred_correct. unfold Qle, Qmult. cbn. nia.
Qed.

Lemma in_zrange (lo v : Z) (n : nat) :
  lo <= v < lo + Z.of_nat n -> In v (zrange lo n).
Proof.
  intros Hv. unfold zrange. apply in_map_iff. exists (Z.to_nat (v - lo)).
  split; [lia|]. apply in_seq. lia.
Qed.

(** A neighbourhood of half-extent 0 or more holds the pixel itself. *)
Lemma neighborhood_center (radius : float) (round : bool) :
  0 <= Qceiling radius -> In (0, 0) (neighborhood radius round).
Proof.
  intros He. unfold neighborhood. apply filter_In. split.
  - apply in_prod; apply in_zrange; lia.
  - cbn [fst snd]. change (0 * 0 + 0 * 0) with 0.
    rewrite sqr_nonneg_Qcleb. apply orb_true_r.
Qed.

Lemma neighborhood_values_length (this : HDRImage) (radius : float) (channel_ : Z)
  (mX mY : BorderMode) (round : bool) (x y : Z) :
  0 <= Qceiling radius ->
  (1 <= length (neighborhood_values this radius channel_ mX mY round x y))%nat.
Proof.
  intros He. unfold neighborhood_values. rewrite length_map.
  pose proof (neighborhood_center radius round He) as Hin.
  destruct (neighborhood radius round); [contradiction | cbn; lia].
Qed.

Lemma median_rank_quot (N : nat) :
  (1 <= N)%nat ->
  Z.quot (Z.of_nat N - 1) 2 = Z.of_nat (median_rank N) /\ (median_rank N < N)%nat.
Proof.
  intros HN. unfold median_rank.
  rewrite Z.quot_div_nonneg by lia.
  assert (0 <= (Z.of_nat N - 1) / 2 < Z.of_nat N).
  { split; [apply Z.div_pos; lia|].
    apply Z.div_lt_upper_bound; lia. }
  split; lia.
Qed.

Lemma arr_at_nth (buf : list float) (k : nat) :
  (k < length buf)%nat -> arr_at buf (Z.of_nat k) = Ok (nth k buf 0%Qc).
Proof.
  intros Hk. unfold arr_at.
  replace (Z.of_nat k <? 0) with false by (symmetry; apply Z.ltb_ge; lia).
  rewrite Nat2Z.id.
  destruct (nth_error buf k) as [v|] eqn:E.
  - rewrite (nth_error_nth _ _ _ E). reflexivity.
  - apply nth_error_None in E. lia.
Qed.

(** What the loop body does at one pixel. *)
Lemma median_at_eq (this : HDRImage) (radius : float) (channel_ : Z)
  (mX mY : BorderMode) (round : bool) (x y : Z) (tb : HDRImage) :
  0 <= channel_ <= 3 -> 0 <= Qceiling radius ->
  0 <= x < width this -> 0 <= y < height this ->
  width tb = width this -> height tb = height this ->
  median_at this radius (Qceiling radius) channel_ mX mY round y x tb
  = assign tb x y
      (set_channel_val (data tb x y) channel_
         (median_value this radius channel_ mX mY round x y)).
Proof.
  intros Hc He Hx Hy W H. unfold median_at.
  rewrite gather_eq by (assumption || lia). cbn [bind].
  pose proof (neighborhood_values_length this radius channel_ mX mY round x y He) as HN.
  destruct (median_rank_quot _ HN) as [Eq Hlt]. rewrite Eq.
  unfold nth_element, vec_at.
  rewrite arr_at_nth by (rewrite <- (Permutation_length (sort_perm _)); exact Hlt).
  cbn [bind]. unfold at_. rewrite in_range_intro by lia. cbn [bind].
  rewrite set_channel_ok by assumption. cbn [bind]. reflexivity.
Qed.

Lemma range_from_0 (w v : Z) :
  (0 <=? v) && (v <? 0 + Z.of_nat (Z.to_nat (w - 0))) = (0 <=? v) && (v <? w).
Proof.
  destruct (Z.leb_spec 0 v); cbn [andb]; [|reflexivity].
  destruct (Z.ltb_spec v w), (Z.ltb_spec v (0 + Z.of_nat (Z.to_nat (w - 0))));
    try reflexivity; lia.
Qed.

(** The filter, pixel by pixel. *)
Lemma medianFiltered_spec (this : HDRImage) (radius : float) (channel_ : Z)
  (mX mY : BorderMode) (round : bool) :
  0 <= channel_ <= 3 -> 0 <= Qceiling radius ->
  exists out, medianFiltered this radius channel_ mX mY round = Ok out /\
    width out = width this /\ height out = height this /\
    forall x y, in_range this x y = true ->
      data out x y
      = set_channel_val (data this x y) channel_
          (median_value this radius channel_ mX mY round x y).
Proof.
  intros Hc He. unfold medianFiltered, for_range.
  destruct (for_loop_rows
              (fun y tb => for_loop (Z.to_nat (width tb - 0)) 0
                 (median_at this radius (Qceiling radius) channel_ mX mY round y) tb)
              (fun x y c => set_channel_val c channel_
                 (median_value this radius channel_ mX mY round x y))
              0 (width this) (Z.to_nat (height this - 0)) 0 this)
    as [out [E [W [H D]]]].
  - intros y tb1 Hy W1 H1.
    destruct (for_loop_row
                (median_at this radius (Qceiling radius) channel_ mX mY round y)
                (fun x c => set_channel_val c channel_
                   (median_value this radius channel_ mX mY round x y))
                y (Z.to_nat (width tb1 - 0)) 0 tb1)
      as [tb2 [E2 [W2 [H2 D2]]]].
    + intros x Hx. lia.
    + intros x tb3 Hx W3 H3. apply median_at_eq; try assumption; try lia.
    + exists tb2. split; [exact E2|]. split; [exact W2|]. split; [exact H2|].
      intros x' y'. rewrite D2, range_from_0, W1.
      destruct (Z.eqb_spec y' y) as [->|Ny]; reflexivity.
  - exists out. split; [exact E|]. split; [exact W|]. split; [exact H|].
    intros x y R. rewrite D. rewrite range_from_0.
    unfold in_range in R. rewrite <- !andb_assoc in R.
    rewrite <- !andb_assoc.
    apply andb_true_iff in R. destruct R as [R1 R]. 
    apply andb_true_iff in R. destruct R as [R2 R].
    apply andb_true_iff in R. destruct R as [R3 R4].
    rewrite R1, R2, R3, R4. reflexivity.
Qed.







(** C10, as stated, fails: for a radius of -1 the neighbourhood loops do
    not run, the buffer stays empty and the code reads its element 0. *)
Lemma medianFiltered_negative_radius :
  medianFiltered (of_rows 1 1 [[gray 1]]) (of_int (-1)) 0 EDGE EDGE false = Fault.
Proof. vm_compute. reflexivity. Qed.

(** C10, amended: for ceil(radius) >= 0 (a radius above -1) and a channel
    c in 0..3 the filter returns a raster of the same dimensions whose
    pixels differ from the input's in channel c at most. *)
Theorem medianFiltered_frame (this : HDRImage) (radius : float) (channel_ : Z)
  (mX mY : BorderMode) (round : bool) :
  0 <= channel_ <= 3 -> 0 <= Qceiling radius ->
  exists out,
    medianFiltered this radius channel_ mX mY round = Ok out /\
    width out = width this /\ height out = height this /\
    forall x y, in_range this x y = true ->
      (exists v, data out x y = set_channel_val (data this x y) channel_ v) /\
      (forall k, k <> channel_ -> channel (data out x y) k = channel (data this x y) k).
Proof.
  intros Hc He.
  destruct (medianFiltered_spec this radius channel_ mX mY round Hc He)
    as [out [E [W [H D]]]].
  exists out. split; [exact E|]. split; [exact W|]. split; [exact H|].
  intros x y R. rewrite (D x y R). split.
  - eexists. reflexivity.
  - intros k Hk. apply channel_set_other; assumption.
Qed.

Lemma medianFiltered_frame_witness :
  exists out,
    medianFiltered (outlier_raster (gray 7) (gray 100)) half 1 REPEAT MIRROR true = Ok out /\
    width out = 3 /\ height out = 3.
Proof.
  destruct (medianFiltered_frame (outlier_raster (gray 7) (gray 100)) half 1
              REPEAT MIRROR true) as [out [E [W [H _]]]].
  - lia.
  - vm_compute. discriminate.
  - exists out. split; [exact E|]. split; assumption.
Defined.

(** ** Box blur *)

Ltac color_ring :=
  unfold Color4_add, Color4_sub, Color4_mul, Color4_map2, Color4_scale,
    Color4_div, Color4_zero, Color4_const;
  cbn [r g b a]; unfold Qcdiv; f_equal; unfold float in *; try ring.

Lemma Color4_add_zero_l (c : Color4) : Color4_add Color4_zero c = c.
Proof. destruct c. color_ring. Qed.

Lemma Color4_add_assoc (c d e : Color4) :
  Color4_add c (Color4_add d e) = Color4_add (Color4_add c d) e.
Proof. color_ring. Qed.

Lemma zrange_S (lo : Z) (n : nat) :
  zrange lo (S n) = lo :: zrange (lo + 1) n.
Proof.
  unfold zrange. cbn [seq map]. f_equal; [lia|].
  rewrite <- seq_shift, map_map. apply map_ext. intros k. lia.
Qed.

Lemma zrange_snoc (lo : Z) (n : nat) :
  zrange lo (S n) = zrange lo n ++ [lo + Z.of_nat n].
Proof.
  unfold zrange. rewrite seq_S, map_app. reflexivity.
Qed.

Lemma zrange_shift (f : Z -> Color4) (lo d : Z) (n : nat) :
  map (fun v => f (d + v)) (zrange lo n) = map f (zrange (d + lo) n).
Proof.
  unfold zrange. rewrite !map_map. apply map_ext. intros k. f_equal. lia.
Qed.

Lemma Color4_sum_app (l1 l2 : list Color4) :
  Color4_sum (l1 ++ l2) = Color4_add (Color4_sum l1) (Color4_sum l2).
Proof.
  induction l1 as [|c l1 IH]; cbn [app Color4_sum fold_right].
  - rewrite Color4_add_zero_l. reflexivity.
  - fold (Color4_sum (l1 ++ l2)). fold (Color4_sum l1).
    rewrite IH. apply Color4_add_assoc.
Qed.

(** Moving the window one pixel to the right drops its first sample and
    takes one more. *)
Lemma window_sum_slide (this : HDRImage) (leftSize rightSize : Z) (mX : BorderMode)
  (x y : Z) :
  0 <= leftSize -> 0 <= rightSize ->
  window_sum this leftSize rightSize mX x y
  = Color4_add
      (Color4_sub (window_sum this leftSize rightSize mX (x - 1) y)
                  (pixel_val this (x - 1 - leftSize) y mX mX))
      (pixel_val this (x + rightSize) y mX mX).
Proof.
  intros Hl Hr. unfold window_sum.
  rewrite !(zrange_shift (fun v => pixel_val this v y mX mX)).
  replace (Z.to_nat (leftSize + rightSize + 1))
    with (S (Z.to_nat (leftSize + rightSize))) by lia.
  set (p := fun v => pixel_val this v y mX mX).
  rewrite (zrange_S (x - 1 + - leftSize)).
  rewrite (zrange_snoc (x + - leftSize)).
  rewrite map_app, Color4_sum_app. cbn [map Color4_sum fold_right].
  replace (x - 1 + - leftSize + 1) with (x + - leftSize) by lia.
  fold (Color4_sum (map p (zrange (x + - leftSize) (Z.to_nat (leftSize + rightSize))))).
  set (T := Color4_sum (map p (zrange (x + - leftSize) (Z.to_nat (leftSize + rightSize))))).
  replace (x + - leftSize + Z.of_nat (Z.to_nat (leftSize + rightSize)))
    with (x + rightSize) by lia.
  replace (x - 1 + - leftSize) with (x - 1 - leftSize) by lia.
  change (pixel_val this (x - 1 - leftSize) y mX mX) with (p (x - 1 - leftSize)).
  change (pixel_val this (x + rightSize) y mX mX) with (p (x + rightSize)).
  destruct T, (p (x - 1 - leftSize)), (p (x + rightSize)). color_ring.
Qed.

Lemma assign_ok (img : HDRImage) (x y : Z) (c : Color4) :
  0 <= x < width img -> 0 <= y < height img ->
  assign img x y c
  = Ok (mkImage (width img) (height img)
          (fun x' y' => if (x' =? x) && (y' =? y) then c else data img x' y')).
Proof.
  intros Hx Hy. unfold assign. rewrite in_range_intro by assumption. reflexivity.
Qed.

Lemma at_ok (img : HDRImage) (x y : Z) :
  0 <= x < width img -> 0 <= y < height img -> at_ img x y = Ok (data img x y).
Proof.
  intros Hx Hy. unfold at_. rewrite in_range_intro by assumption. reflexivity.
Qed.

(** "fill up the accumulator": the first loop of a row. *)
Lemma box_seed_loop (this : HDRImage) (mX : BorderMode) (y : Z)
  (n : nat) (lo : Z) (im : HDRImage) :
  0 < width this -> 0 < height this ->
  0 < width im -> 0 <= y < height im ->
  exists im',
    for_loop n lo
      (fun dx imFilter =>
         acc <- at_ imFilter 0 y ;;
         p <- pixel this dx y mX mX ;;
         assign imFilter 0 y (Color4_add acc p)) im = Ok im' /\
    width im' = width im /\ height im' = height im /\
    forall x' y',
      data im' x' y'
      = if (x' =? 0) && (y' =? y)
        then Color4_add (data im 0 y)
               (Color4_sum (map (fun v => pixel_val this v y mX mX) (zrange lo n)))
        else data im x' y'.
Proof.
  intros Hw Hh. revert lo im. induction n as [|n IH]; intros lo im Wim Him.
  - exists im. repeat split; try reflexivity. intros x' y'.
    cbn [zrange seq map Color4_sum fold_right].
    destruct (Z.eqb_spec x' 0) as [->|]; destruct (Z.eqb_spec y' y) as [->|];
      cbn [andb]; try reflexivity.
    destruct (data im 0 y). color_ring.
  - cbn [for_loop]. rewrite at_ok by lia. cbn [bind].
    rewrite pixel_ok by assumption. cbn [bind].
    rewrite assign_ok by lia. cbn [bind].
    match goal with
    | |- context [for_loop n (lo + 1) _ ?t] => set (im1 := t)
    end.
    destruct (IH (lo + 1) im1) as [im' [E [W [H D]]]]; try (cbn; lia).
    exists im'. split; [exact E|]. split; [exact W|]. split; [exact H|].
    intros x' y'. rewrite D. subst im1. cbn [data].
    rewrite Z.eqb_refl. cbn [andb]. rewrite Z.eqb_refl. rewrite zrange_S.
    cbn [map Color4_sum fold_right].
    destruct ((x' =? 0) && (y' =? y)); [|reflexivity].
    symmetry. apply Color4_add_assoc.
Qed.

(** The second loop of a row: each cell from its left neighbour. *)
Lemma box_slide_loop (this : HDRImage) (leftSize rightSize : Z) (mX : BorderMode)
  (y : Z) (n : nat) (x0 : Z) (im : HDRImage) :
  0 <= leftSize -> 0 <= rightSize ->
  0 < width this -> 0 < height this ->
  1 <= x0 -> x0 + Z.of_nat n <= width im -> 0 <= y < height im ->
  data im (x0 - 1) y = window_sum this leftSize rightSize mX (x0 - 1) y ->
  exists im',
    for_loop n x0
      (fun x imFilter =>
         prev <- at_ imFilter (x - 1) y ;;
         old <- pixel this (x - 1 - leftSize) y mX mX ;;
         new <- pixel this (x + rightSize) y mX mX ;;
         assign imFilter x y (Color4_add (Color4_sub prev old) new)) im = Ok im' /\
    width im' = width im /\ height im' = height im /\
    forall x' y',
      data im' x' y'
      = if (y' =? y) && ((x0 <=? x') && (x' <? x0 + Z.of_nat n))
        then window_sum this leftSize rightSize mX x' y
        else data im x' y'.
Proof.
  intros Hl Hr Hw Hh. revert x0 im.
  induction n as [|n IH]; intros x0 im Hx0 Hn Hy Hprev.
  - exists im. repeat split; try reflexivity. intros x' y'.
    replace ((x0 <=? x') && (x' <? x0 + Z.of_nat 0)) with false.
    + rewrite andb_false_r. reflexivity.
    + symmetry. apply andb_false_iff.
      destruct (Z.leb_spec x0 x'); [right; apply Z.ltb_ge; lia | left; reflexivity].
  - cbn [for_loop]. rewrite at_ok by lia. cbn [bind].
    rewrite !pixel_ok by assumption. cbn [bind].
    rewrite assign_ok by lia. cbn [bind].
    rewrite Hprev, <- window_sum_slide by assumption.
    match goal with
    | |- context [for_loop n (x0 + 1) _ ?t] => set (im1 := t)
    end.
    destruct (IH (x0 + 1) im1) as [im' [E [W [H D]]]]; try (cbn; lia).
    + subst im1. cbn [data]. replace (x0 + 1 - 1) with x0 by lia.
      rewrite !Z.eqb_refl. reflexivity.
    + exists im'. split; [exact E|]. split; [exact W|]. split; [exact H|].
      intros x' y'. rewrite D. subst im1. cbn [data].
      destruct (Z.eqb_spec y' y) as [->|Ny]; cbn [andb].
      * destruct (Z.eqb_spec x' x0) as [->|Nx]; cbn [andb].
        -- replace (x0 + 1 <=? x0) with false by (symmetry; apply Z.leb_gt; lia).
           cbn [andb]. rewrite Z.leb_refl.
           replace (x0 <? x0 + Z.of_nat (S n)) with true
             by (symmetry; apply Z.ltb_lt; lia).
           reflexivity.
        -- replace (x0 + 1 + Z.of_nat n) with (x0 + Z.of_nat (S n)) by lia.
           replace (x0 + 1 <=? x') with (x0 <=? x'); [reflexivity|].
           destruct (Z.leb_spec x0 x'), (Z.leb_spec (x0 + 1) x'); try reflexivity; lia.
      * rewrite andb_false_r. reflexivity.
Qed.

(** One row of the filter holds the window sums after its two loops. *)
Lemma boxBlurredX_row_spec (this : HDRImage) (leftSize rightSize : Z) (mX : BorderMode)
  (y : Z) (im : HDRImage) :
  0 <= leftSize -> 0 <= rightSize ->
  0 < width this -> 0 < height this ->
  width im = width this -> 0 <= y < height im ->
  exists im',
    boxBlurredX_row this leftSize rightSize mX y im = Ok im' /\
    width im' = width im /\ height im' = height im /\
    forall x' y',
      data im' x' y'
      = if (y' =? y) && ((0 <=? x') && (x' <? width this))
        then window_sum this leftSize rightSize mX x' y
        else data im x' y'.
Proof.
  intros Hl Hr Hw Hh Wim Hy. unfold boxBlurredX_row.
  rewrite assign_ok by lia. cbn [bind]. unfold for_range.
  match goal with
  | |- context [for_loop _ (- leftSize) _ ?t] => set (im0 := t)
  end.
  destruct (box_seed_loop this mX y (Z.to_nat (rightSize + 1 - - leftSize))
              (- leftSize) im0 Hw Hh) as [im1 [E1 [W1 [H1 D1]]]];
    try (cbn; lia).
  rewrite E1. cbn [bind].
  assert (S0 : data im1 0 y = window_sum this leftSize rightSize mX 0 y).
  { rewrite D1. rewrite !Z.eqb_refl. cbn [andb]. subst im0. cbn [data].
    rewrite !Z.eqb_refl. cbn [andb]. rewrite Color4_add_zero_l.
    unfold window_sum.
    replace (Z.to_nat (rightSize + 1 - - leftSize))
      with (Z.to_nat (leftSize + rightSize + 1)) by lia.
    reflexivity. }
  assert (W1' : width im1 = width this) by (rewrite W1; exact Wim).
  assert (H1' : height im1 = height im) by (rewrite H1; reflexivity).
  destruct (box_slide_loop this leftSize rightSize mX y (Z.to_nat (width this - 1))
              1 im1 Hl Hr Hw Hh) as [im2 [E2 [W2 [H2 D2]]]]; try lia.
  { exact S0. }
  rewrite E2. exists im2.
  split; [reflexivity|]. split; [lia|]. split; [lia|].
  intros x' y'. rewrite D2.
  destruct (Z.eqb_spec y' y) as [->|Ny]; cbn [andb].
  - destruct (Z.leb_spec 1 x'); cbn [andb].
    + replace (0 <=? x') with true by (symmetry; apply Z.leb_le; lia).
      cbn [andb].
      destruct (Z.ltb_spec x' (1 + Z.of_nat (Z.to_nat (width this - 1)))),
               (Z.ltb_spec x' (width this)); try reflexivity; try lia.
      rewrite D1. subst im0. cbn [data].
      replace (x' =? 0) with false by (symmetry; apply Z.eqb_neq; lia).
      reflexivity.
    + destruct (Z.eqb_spec x' 0) as [->|Nx].
      * cbn [Z.leb Z.compare andb].
        replace (0 <? width this) with true by (symmetry; apply Z.ltb_lt; lia).
        exact S0.
      * replace (0 <=? x') with false by (symmetry; apply Z.leb_gt; lia).
        cbn [andb]. rewrite D1. subst im0. cbn [data].
        replace (x' =? 0) with false by (symmetry; apply Z.eqb_neq; lia).
        reflexivity.
  - rewrite D1. subst im0. cbn [data].
    replace (y' =? y) with false by (symmetry; apply Z.eqb_neq; lia).
    rewrite !andb_false_r. reflexivity.
Qed.

(** The filter, pixel by pixel. *)
Lemma boxBlurredX_spec (this : HDRImage) (leftSize rightSize : Z) (mX : BorderMode) :
  0 <= leftSize -> 0 <= rightSize -> 0 < width this -> 0 < height this ->
  exists out,
    boxBlurredX this leftSize rightSize mX = Ok out /\
    width out = width this /\ height out = height this /\
    forall x y, in_range this x y = true ->
      data out x y
      = Color4_div (window_sum this leftSize rightSize mX x y)
                   (of_int (leftSize + rightSize + 1)).
Proof.
  intros Hl Hr Hw Hh. unfold boxBlurredX, for_range.
  destruct (for_loop_rows
              (boxBlurredX_row this leftSize rightSize mX)
              (fun x y _ => window_sum this leftSize rightSize mX x y)
              0 (width this)
              (Z.to_nat (height (new_image (width this) (height this)) - 0)) 0
              (new_image (width this) (height this)))
    as [im [E [W [H D]]]].
  - intros y tb1 Hy W1 H1. cbn [new_image width height] in Hy, W1, H1.
    destruct (boxBlurredX_row_spec this leftSize rightSize mX y tb1 Hl Hr Hw Hh W1)
      as [tb2 [E2 [W2 [H2 D2]]]]; [lia|].
    exists tb2. split; [exact E2|]. split; [exact W2|]. split; [exact H2|].
    intros x' y'. rewrite D2.
    destruct (Z.eqb_spec y' y) as [->|Ny]; reflexivity.
  - rewrite E. cbn [bind]. eexists. split; [reflexivity|].
    cbn [image_mul width height data].
    split; [exact W|]. split; [exact H|].
    intros x y R. pose proof R as R'. apply in_range_iff in R'.
    rewrite D. cbn [new_image height].
    replace ((0 <=? y) && (y <? 0 + Z.of_nat (Z.to_nat (height this - 0)))) with true
      by (symmetry; rewrite andb_true_iff, Z.leb_le, Z.ltb_lt; lia).
    replace ((0 <=? x) && (x <? width this)) with true
      by (symmetry; rewrite andb_true_iff, Z.leb_le, Z.ltb_lt; lia).
    cbn [andb].
    destruct (window_sum this leftSize rightSize mX x y). color_ring.
Qed.




(** ** Samplers at pixel centres *)

Lemma of_int_sub (u v : Z) : (of_int u - of_int v)%Qc = of_int (u - v).
Proof.
  apply Qc_is_canon. unfold of_int, Qcminus, Qcplus, Qcopp, Q2Qc. cbn [this].
  rewrite !Qred_correct. unfold Qeq, Qplus, Qopp, inject_Z. cbn. lia.
Qed.

Lemma floor_of_int (u : Z) : floor_int (of_int u) = u.
Proof.
  unfold floor_int, of_int, Q2Qc. cbn [this].
  rewrite (Qfloor_comp _ _ (Qred_correct (inject_Z u))). apply Qfloor_Z.
Qed.

Lemma center_shift (u : Z) : (of_int u + half - half)%Qc = of_int u.
Proof. unfold float. ring. Qed.

Lemma cubic_weight_0 : cubic_weight (Qcabs (of_int 0)) = 1%Qc.
Proof. apply Qc_is_canon. vm_compute. reflexivity. Qed.

Lemma cubic_weight_1 : cubic_weight (Qcabs (of_int 1)) = 0%Qc.
Proof. apply Qc_is_canon. vm_compute. reflexivity. Qed.

Lemma cubic_weight_m1 : cubic_weight (Qcabs (of_int (-1))) = 0%Qc.
Proof. apply Qc_is_canon. vm_compute. reflexivity. Qed.

Lemma cubic_weight_m2 : cubic_weight (Qcabs (of_int (-2))) = 0%Qc.
Proof. apply Qc_is_canon. vm_compute. reflexivity. Qed.

(** The four taps of one axis around the centre u have weights 0, 1, 0, 0. *)
Lemma cubic_weight_taps (u : Z) :
  cubic_weight (Qcabs (of_int u - of_int (u - 1))) = 0%Qc /\
  cubic_weight (Qcabs (of_int u - of_int (u - 1 + 1))) = 1%Qc /\
  cubic_weight (Qcabs (of_int u - of_int (u - 1 + 1 + 1))) = 0%Qc /\
  cubic_weight (Qcabs (of_int u - of_int (u - 1 + 1 + 1 + 1))) = 0%Qc.
Proof.
  rewrite !of_int_sub.
  replace (u - (u - 1)) with 1 by lia.
  replace (u - (u - 1 + 1)) with 0 by lia.
  replace (u - (u - 1 + 1 + 1)) with (-1) by lia.
  replace (u - (u - 1 + 1 + 1 + 1)) with (-2) by lia.
  rewrite cubic_weight_0, cubic_weight_1, cubic_weight_m1, cubic_weight_m2.
  repeat split; reflexivity.
Qed.

Lemma bilinear_center (this : HDRImage) (i j : Z) (mX mY : BorderMode) :
  in_range this i j = true ->
  bilinear this (of_int i + half)%Qc (of_int j + half)%Qc mX mY = Ok (data this i j).
Proof.
  intros R. pose proof R as R'. apply in_range_iff in R'. destruct R' as [Hi Hj].
  unfold bilinear. cbv zeta. rewrite !center_shift, !floor_of_int.
  rewrite !pixel_ok by lia. cbn [bind]. f_equal.
  rewrite (pixel_val_in_range this i j mX mY R).
  unfold lerp.
  destruct (data this i j), (pixel_val this (i + 1) j mX mY),
    (pixel_val this i (j + 1) mX mY), (pixel_val this (i + 1) (j + 1) mX mY).
  color_ring.
Qed.

(** One row of taps of [bicubic] at a centre: only the tap of column i counts. *)
Lemma bicubic_row (this : HDRImage) (i y : Z) (mX mY : BorderMode)
  (yweight : float) (val : Color4) (totalweight : float) :
  0 < width this -> 0 < height this ->
  for_range (i - 1) (i + 3)
    (fun x acc =>
       let '(val, totalweight) := acc in
       let distx := Qcabs (of_int i - of_int x) in
       let weight := (cubic_weight distx * yweight)%Qc in
       p <- pixel this x y mX mY ;;
       Ok (Color4_add val (Color4_scale p weight), (totalweight + weight)%Qc))
    (val, totalweight)
  = Ok (Color4_add val (Color4_scale (pixel_val this i y mX mY) yweight),
        (totalweight + yweight)%Qc).
Proof.
  intros Hw Hh. unfold for_range.
  replace (Z.to_nat (i + 3 - (i - 1))) with 4%nat by lia.
  destruct (cubic_weight_taps i) as [T0 [T1 [T2 T3]]].
  cbn [for_loop]. cbv zeta.
  rewrite !pixel_ok by assumption. cbn [bind].
  rewrite T0, T1, T2, T3.
  replace (i - 1 + 1) with i by lia.
  f_equal. f_equal.
  - destruct val, (pixel_val this (i - 1) y mX mY), (pixel_val this i y mX mY),
      (pixel_val this (i + 1) y mX mY), (pixel_val this (i + 1 + 1) y mX mY).
    color_ring.
  - unfold float in *. ring.
Qed.

Lemma bicubic_center (this : HDRImage) (i j : Z) (mX mY : BorderMode) :
  in_range this i j = true ->
  bicubic this (of_int i + half)%Qc (of_int j + half)%Qc mX mY = Ok (data this i j).
Proof.
  intros R. pose proof R as R'. apply in_range_iff in R'. destruct R' as [Hi Hj].
  unfold bicubic. cbv zeta. rewrite !center_shift, !floor_of_int.
  rewrite (for_range_ext _ _ _
             (fun y acc =>
                Ok (Color4_add (fst acc)
                      (Color4_scale (pixel_val this i y mX mY)
                         (cubic_weight (Qcabs (of_int j - of_int y)))),
                    (snd acc + cubic_weight (Qcabs (of_int j - of_int y)))%Qc))).
  - unfold for_range.
    replace (Z.to_nat (j + 3 - (j - 1))) with 4%nat by lia.
    destruct (cubic_weight_taps j) as [T0 [T1 [T2 T3]]].
    cbn [for_loop bind fst snd]. rewrite T0, T1, T2, T3.
    replace (j - 1 + 1) with j by lia.
    rewrite (pixel_val_in_range this i j mX mY R).
    f_equal.
    destruct (data this i j), (pixel_val this i (j - 1) mX mY),
      (pixel_val this i (j + 1) mX mY), (pixel_val this i (j + 1 + 1) mX mY).
    unfold Color4_add, Color4_map2, Color4_scale. cbn [r g b a].
    assert (Et : (1 / (0 + 0 + 1 + 0 + 0))%Qc = 1%Qc)
      by (apply Qc_is_canon; vm_compute; reflexivity).
    rewrite Et. unfold float in *. f_equal; ring.
  - intros y [val totalweight] Hy. cbn [fst snd].
    apply (bicubic_row this i y mX mY); lia.
Qed.

(** C5: at the centre (i + 0.5, j + 0.5) of an in-range pixel both the
    bilinear and the bicubic sampler return the pixel (i, j) itself, under
    every pair of border modes. *)
Theorem sample_pixel_center (this : HDRImage) (i j : Z) (mX mY : BorderMode) :
  in_range this i j = true ->
  bilinear this (of_int i + half)%Qc (of_int j + half)%Qc mX mY = Ok (data this i j) /\
  bicubic this (of_int i + half)%Qc (of_int j + half)%Qc mX mY = Ok (data this i j).
Proof.
  intros R. split; [apply bilinear_center | apply bicubic_center]; exact R.
Qed.

Lemma sample_pixel_center_witness :
  bilinear ramp5 (of_int 4 + half)%Qc (of_int 0 + half)%Qc BLACK MIRROR
  = Ok (data ramp5 4 0) /\
  bicubic ramp5 (of_int 4 + half)%Qc (of_int 0 + half)%Qc BLACK MIRROR
  = Ok (data ramp5 4 0).
Proof.
  apply (sample_pixel_center ramp5 4 0 BLACK MIRROR). reflexivity.
Defined.

(** ** AHD arbitration *)






(** ** The border pass *)

Lemma for_loop_inv {S : Type} (I : S -> Prop) (n : nat) (lo : Z)
  (body : Z -> S -> result S) (s : S) :
  I s ->
  (forall i s1, lo <= i < lo + Z.of_nat n -> I s1 ->
     exists s2, body i s1 = Ok s2 /\ I s2) ->
  exists s', for_loop n lo body s = Ok s' /\ I s'.
Proof.
  revert lo s. induction n as [|n IH]; intros lo s Hs Hbody.
  - exists s. split; [reflexivity | exact Hs].
  - cbn [for_loop].
    destruct (Hbody lo s ltac:(lia) Hs) as [s1 [E1 I1]]. rewrite E1. cbn [bind].
    apply IH; [exact I1|]. intros i s2 Hi I2. apply Hbody; [lia | exact I2].
Qed.

Lemma for_range_inv {S : Type} (I : S -> Prop) (lo hi : Z)
  (body : Z -> S -> result S) (s : S) :
  I s ->
  (forall i s1, lo <= i < hi -> I s1 -> exists s2, body i s1 = Ok s2 /\ I s2) ->
  exists s', for_range lo hi body s = Ok s' /\ I s'.
Proof.
  intros Hs Hbody. unfold for_range. apply for_loop_inv; [exact Hs|].
  intros i s1 Hi. apply Hbody. lia.
Qed.

Lemma to_size_t_nonneg (v : Z) : 0 <= to_size_t v.
Proof.
  unfold to_size_t. apply Z.mod_pos_bound. reflexivity.
Qed.

Lemma to_size_t_small (v : Z) : 0 <= v <= 2147483647 -> to_size_t v = v.
Proof.
  intros Hv. unfold to_size_t. apply Z.mod_small.
  change (2 ^ 64) with 18446744073709551616. lia.
Qed.

Lemma bayerColor_ok (x y : Z) :
  0 <= x -> 0 <= y -> exists c, bayerColor x y = Ok c /\ 0 <= c <= 2.
Proof.
  intros Hx Hy. unfold bayerColor.
  assert (Ry : Z.rem y 2 = 0 \/ Z.rem y 2 = 1).
  { rewrite Z.rem_mod_nonneg by lia. pose proof (Z.mod_pos_bound y 2). lia. }
  assert (Rx : Z.rem x 2 = 0 \/ Z.rem x 2 = 1).
  { rewrite Z.rem_mod_nonneg by lia. pose proof (Z.mod_pos_bound x 2). lia. }
  destruct Ry as [-> | ->], Rx as [-> | ->]; cbn; eexists; (split; [reflexivity | lia]).
Qed.

Lemma vec3_get_ok {A : Type} (v : A * A * A) (c : Z) :
  0 <= c <= 2 -> exists u, vec3_get v c = Ok u.
Proof.
  intros Hc. destruct v as [[v0 v1] v2].
  assert (Cc : c = 0 \/ c = 1 \/ c = 2) by lia.
  destruct Cc as [-> | [-> | ->]]; cbn; eexists; reflexivity.
Qed.

Lemma vec3_set_ok {A : Type} (v : A * A * A) (c : Z) (u : A) :
  0 <= c <= 2 -> exists v', vec3_set v c u = Ok v'.
Proof.
  intros Hc. destruct v as [[v0 v1] v2].
  assert (Cc : c = 0 \/ c = 1 \/ c = 2) by lia.
  destruct Cc as [-> | [-> | ->]]; cbn; eexists; reflexivity.
Qed.

(** One step of the border pass rewrites the pixel (x, y) and nothing else. *)
Lemma border_pixel_frame (this : HDRImage) (x y : Z) :
  0 <= x < width this -> 0 <= y < height this ->
  width this <= 2147483647 -> height this <= 2147483647 ->
  exists out,
    border_pixel this x y = Ok out /\
    width out = width this /\ height out = height this /\
    forall x' y', x' <> x \/ y' <> y -> data out x' y' = data this x' y'.
Proof.
  intros Hx Hy Wmax Hmax. unfold border_pixel.
  match goal with
  | |- context [bind (for_range ?lo ?hi ?body ?s) _] =>
      destruct (for_range_inv (fun _ => True) lo hi body s I) as [acc [E _]]
  end.
  { intros ys acc Hys _.
    apply for_range_inv; [exact I|].
    intros xs [sum count] Hxs _.
    pose proof (to_size_t_nonneg (y - 1)). pose proof (to_size_t_nonneg (x - 1)).
    rewrite !to_size_t_small by lia.
    destruct ((ys <? height this) && (xs <? width this)) eqn:G;
      [|eexists; split; [reflexivity | exact I]].
    apply andb_true_iff in G. destruct G as [G1 G2].
    apply Z.ltb_lt in G1. apply Z.ltb_lt in G2.
    destruct (bayerColor_ok xs ys) as [c [Ec Hc]]; try lia.
    rewrite Ec. cbn [bind]. rewrite at_ok by lia. cbn [bind].
    rewrite channel_ok by lia. cbn [bind].
    destruct (vec3_get_ok sum c Hc) as [s Es]. rewrite Es. cbn [bind].
    destruct (vec3_get_ok count c Hc) as [n En]. rewrite En. cbn [bind].
    destruct (vec3_set_ok sum c (s + channel_val (data this xs ys) c)%Qc Hc) as [sum' Ess].
    rewrite Ess. cbn [bind].
    destruct (vec3_set_ok count c (n + 1) Hc) as [count' Esc].
    rewrite Esc. cbn [bind].
    eexists. split; [reflexivity | exact I]. }
  rewrite E. cbn [bind]. destruct acc as [sum count].
  destruct (bayerColor_ok x y) as [col [Ecol Hcol]]; try lia.
  rewrite Ecol. cbn [bind].
  apply (for_range_inv
           (fun tb => width tb = width this /\ height tb = height this /\
              forall x' y', x' <> x \/ y' <> y -> data tb x' y' = data this x' y')).
  { repeat split; reflexivity. }
  intros c tb Hc [W [H D]].
  destruct (negb (col =? c)); [|exists tb; repeat split; assumption].
  destruct (vec3_get_ok count c ltac:(lia)) as [n En]. rewrite En. cbn [bind].
  destruct (vec3_get_ok sum c ltac:(lia)) as [s Es]. rewrite Es. cbn [bind].
  rewrite at_ok by lia. cbn [bind].
  rewrite set_channel_ok by lia. cbn [bind].
  rewrite assign_ok by lia.
  eexists. split; [reflexivity|]. cbn [width height data].
  split; [exact W|]. split; [exact H|].
  intros x' y' Hne.
  replace ((x' =? x) && (y' =? y)) with false; [apply D; exact Hne|].
  symmetry. apply andb_false_iff.
  destruct Hne as [Hne | Hne]; [left | right]; apply Z.eqb_neq; exact Hne.
Qed.

(** A row of the border pass on a raster at least 6 wide: with fuel for
    every column it returns, and it leaves alone the other rows, the
    columns already passed and, in a row of the centre, the columns 3 to
    width-4. *)
Lemma border_row_spec (fuel : nat) (y x : Z) (this : HDRImage) :
  6 <= width this <= 2147483647 -> height this <= 2147483647 ->
  0 <= y < height this -> 0 <= x <= width this ->
  (3 <= y < height this - 3 -> x <= 3 \/ width this - 3 <= x) ->
  (Z.to_nat (width this - x) < fuel)%nat ->
  exists out,
    border_row fuel 3 y x this = Some (Ok out) /\
    width out = width this /\ height out = height this /\
    forall x' y',
      y' <> y \/ x' < x \/ (3 <= y < height this - 3 /\ 3 <= x' < width this - 3) ->
      data out x' y' = data this x' y'.
Proof.
  revert x this. induction fuel as [|fuel IH]; intros x this Hw Hh Hy Hx Hc Hf; [lia|].
  cbn [border_row]. rewrite (to_size_t_small (width this)) by lia.
  destruct (Z.ltb_spec x (width this)) as [Lx | Lx].
  2:{ exists this. repeat split; reflexivity. }
  set (cond := (x =? 3) && (3 <=? y) && (y <? to_size_t (height this - 3))).
  set (xe := if cond then to_size_t (width this - 3) else x).
  assert (Hcond : cond = true <-> (x = 3 /\ 3 <= y < height this - 3)).
  { subst cond. destruct (Z.leb_spec 3 y) as [L3 | L3].
    - rewrite to_size_t_small by lia. rewrite andb_true_r.
      rewrite andb_true_iff, Z.eqb_eq, Z.ltb_lt. lia.
    - rewrite andb_false_r. cbn [andb]. split; [discriminate | lia]. }
  assert (Hxe : x <= xe < width this /\
                (3 <= y < height this - 3 -> xe < 3 \/ width this - 3 <= xe)).
  { subst xe. destruct cond.
    - destruct Hcond as [Hcond _]. specialize (Hcond eq_refl).
      rewrite to_size_t_small by lia. lia.
    - split; [lia|]. intros Hcy. destruct (Hc Hcy) as [Hc1 | Hc1]; [|lia].
      destruct (Z.eq_dec x 3) as [-> | Nx]; [|lia].
      destruct Hcond as [_ Hcond]. specialize (Hcond (conj eq_refl Hcy)). discriminate. }
  clearbody xe. destruct Hxe as [Hxe1 Hxe2].
  destruct (border_pixel_frame this xe y) as [out1 [E1 [W1 [H1 D1]]]]; try lia.
  rewrite E1. rewrite to_size_t_small by lia.
  destruct (IH (xe + 1) out1) as [out [E [W [H D]]]]; try lia.
  exists out. split; [exact E|]. split; [lia|]. split; [lia|].
  intros x' y' Hfr. rewrite D, D1; [reflexivity | lia | lia].
Qed.

(** The rows of the border pass: the pixels 3 or more away from every
    edge keep their value. *)
Lemma border_rows_spec (fuel n : nat) (y : Z) (this : HDRImage) :
  6 <= width this <= 2147483647 -> height this <= 2147483647 ->
  0 <= y -> y + Z.of_nat n <= height this ->
  (Z.to_nat (width this) < fuel)%nat ->
  exists out,
    border_rows fuel n 3 y this = Some (Ok out) /\
    width out = width this /\ height out = height this /\
    forall x' y', 3 <= x' < width this - 3 -> 3 <= y' < height this - 3 ->
      data out x' y' = data this x' y'.
Proof.
  revert y this. induction n as [|n IH]; intros y this Hw Hh Hy Hn Hf.
  - exists this. repeat split; reflexivity.
  - cbn [border_rows].
    destruct (border_row_spec fuel y 0 this) as [out1 [E1 [W1 [H1 D1]]]]; try lia.
    rewrite E1.
    destruct (IH (y + 1) out1) as [out [E [W [H D]]]]; try lia.
    exists out. split; [exact E|]. split; [lia|]. split; [lia|].
    intros x' y' Hx' Hy'. rewrite D by lia. apply D1.
    destruct (Z.eq_dec y' y) as [-> | Ny]; [right; right; lia | left; exact Ny].
Qed.

Lemma demosaicBorder_spec (fuel : nat) (this : HDRImage) :
  6 <= width this <= 2147483647 -> 0 <= height this <= 2147483647 ->
  (Z.to_nat (width this) < fuel)%nat ->
  exists out,
    demosaicBorder fuel 3 this = Some (Ok out) /\
    width out = width this /\ height out = height this /\
    forall x' y', 3 <= x' < width this - 3 -> 3 <= y' < height this - 3 ->
      data out x' y' = data this x' y'.
Proof.
  intros Hw Hh Hf. unfold demosaicBorder. apply border_rows_spec; lia.
Qed.





(** *** A raster 5 wide and 7 high

    On a raster narrower than 6 the jump over the centre goes backwards:
    in row 3 the loop over x sets x = 3 back to width - 3 = 2, and no
    amount of fuel lets [demosaicBorder(3)] return. *)

Lemma border_row_cycle (fuel : nat) (x : Z) (img : HDRImage) :
  width img = 5 -> height img = 7 -> 0 <= x <= 3 ->
  border_row fuel 3 3 x img = None.
Proof.
  revert x img. induction fuel as [|fuel IH]; intros x img W H Hx; [reflexivity|].
  assert (Cx : x = 0 \/ x = 1 \/ x = 2 \/ x = 3) by lia.
  cbn [border_row]. rewrite W, H.
  replace (x <? to_size_t 5) with true
    by (destruct Cx as [-> | [-> | [-> | ->]]]; reflexivity).
  set (xe := if (x =? 3) && (3 <=? 3) && (3 <? to_size_t (7 - 3))
             then to_size_t (5 - 3) else x).
  assert (Hxe : 0 <= xe <= 2)
    by (destruct Cx as [-> | [-> | [-> | ->]]]; vm_compute; split; discriminate).
  clearbody xe.
  destruct (border_pixel_frame img xe 3) as [out1 [E1 [W1 [H1 _]]]]; try lia.
  rewrite E1. rewrite to_size_t_small by lia.
  apply IH; lia.
Qed.

Lemma border_row_top (fuel : nat) (y x : Z) (img : HDRImage) :
  width img = 5 -> height img = 7 -> 0 <= y < 3 -> 0 <= x <= 5 ->
  border_row fuel 3 y x img = None \/
  exists out, border_row fuel 3 y x img = Some (Ok out) /\
              width out = 5 /\ height out = 7.
Proof.
  revert x img. induction fuel as [|fuel IH]; intros x img W H Hy Hx;
    [left; reflexivity|].
  cbn [border_row]. rewrite W, H. change (to_size_t 5) with 5.
  destruct (Z.ltb_spec x 5) as [Lx | Lx].
  2:{ right. exists img. repeat split; assumption. }
  replace (3 <=? y) with false by (symmetry; apply Z.leb_gt; lia).
  rewrite andb_false_r. cbn [andb].
  destruct (border_pixel_frame img x y) as [out1 [E1 [W1 [H1 _]]]]; try lia.
  rewrite E1. rewrite to_size_t_small by lia.
  apply IH; lia.
Qed.

Lemma demosaicBorder_narrow_diverges (fuel : nat) (img : HDRImage) :
  width img = 5 -> height img = 7 -> demosaicBorder fuel 3 img = None.
Proof.
  intros W H. unfold demosaicBorder. rewrite H.
  change (Z.to_nat 7) with 7%nat. cbn [border_rows].
  destruct (border_row_top fuel 0 0 img W H) as [E0 | [out0 [E0 [W0 H0]]]]; try lia;
    rewrite E0; [reflexivity|].
  change (0 + 1) with 1.
  destruct (border_row_top fuel 1 0 out0 W0 H0) as [E1 | [out1 [E1 [W1 H1]]]]; try lia;
    rewrite E1; [reflexivity|].
  change (1 + 1) with 2.
  destruct (border_row_top fuel 2 0 out1 W1 H1) as [E2 | [out2 [E2 [W2 H2]]]]; try lia;
    rewrite E2; [reflexivity|].
  change (2 + 1) with 3.
  assert (E3 : border_row fuel 3 3 0 out2 = None)
    by (apply border_row_cycle; lia).
  rewrite E3. reflexivity.
Qed.

(** ** Undo and redo *)

Lemma waitForAsyncResult_idle (chunkSize : Z) (budget : nat) (s : GLImage.t) :
  GLImage.m_asyncCommand s = None \/ GLImage.m_asyncRetrieved s = true ->
  GLImage.waitForAsyncResult chunkSize budget s = Ok (s, false).
Proof.
  intros [Hn | Hr]; unfold GLImage.waitForAsyncResult.
  - rewrite Hn. reflexivity.
  - destruct (GLImage.m_asyncCommand s); [rewrite Hr|]; reflexivity.
Qed.






(** * Further properties of the code *)

From Stdlib Require Import Lqa.

(** ** Order on the floats of the model *)

Lemma this_of_int (u : Z) : (this (of_int u) == inject_Z u)%Q.
Proof. unfold of_int, Q2Qc. cbn [this]. apply Qred_correct. Qed.

Lemma this_half : this half = (1 # 2)%Q.
Proof. reflexivity. Qed.

Ltac qc_to_q :=
  unfold Qcle, Qclt, Qcdiv, Qcminus, Qcplus, Qcopp, Qcmult, Qcinv, Q2Qc in *;
  cbn [this] in *;
  rewrite ?Qred_correct, ?this_of_int, ?this_half, ?inject_Z_plus in *;
  change (inject_Z 1) with 1%Q in *.

Lemma floor_int_unique (q : float) (i : Z) :
  (of_int i <= q)%Qc -> (q < of_int (i + 1))%Qc -> floor_int q = i.
Proof.
  intros H1 H2. unfold floor_int. qc_to_q.
  assert (A : i <= Qfloor q).
  { rewrite <- (Qfloor_Z i). apply Qfloor_resp_le. exact H1. }
  assert (B : Qfloor q < i + 1).
  { rewrite Zlt_Qlt, inject_Z_plus. change (inject_Z 1) with 1%Q.
    eapply Qle_lt_trans; [apply Qfloor_le | exact H2]. }
  lia.
Qed.

Lemma floor_int_bounds (q : float) :
  (of_int (floor_int q) <= q)%Qc /\ (q < of_int (floor_int q + 1))%Qc.
Proof.
  unfold floor_int. qc_to_q. split.
  - apply Qfloor_le.
  - pose proof (Qlt_floor q) as H. rewrite inject_Z_plus in H. exact H.
Qed.

(** ** Border modes right of and below the raster *)

(** REPEAT tiles the plane with the raster. *)
Theorem pixel_repeat_periodic (img : HDRImage) (x y kx ky : Z) :
  0 < width img -> 0 < height img ->
  pixel img (x + kx * width img) (y + ky * height img) REPEAT REPEAT
  = pixel img x y REPEAT REPEAT.
Proof.
  intros Hw Hh. unfold pixel. rewrite !wrapCoord_repeat by assumption.
  cbn [wrapCoord_spec]. rewrite !Z_mod_plus_full. reflexivity.
Qed.

Lemma pixel_repeat_periodic_witness :
  pixel ramp5 (3 + 2 * width ramp5) (0 + -4 * height ramp5) REPEAT REPEAT
  = pixel ramp5 3 0 REPEAT REPEAT.
Proof.
  apply (pixel_repeat_periodic ramp5 3 0 2 (-4)); reflexivity.
Defined.





(** ** Samplers *)

(** [nearest] returns the pixel whose cell holds the sample position. *)
Theorem nearest_cell (this : HDRImage) (sx sy : float) (i j : Z) (mX mY : BorderMode) :
  in_range this i j = true ->
  (of_int i <= sx)%Qc -> (sx < of_int (i + 1))%Qc ->
  (of_int j <= sy)%Qc -> (sy < of_int (j + 1))%Qc ->
  nearest this sx sy mX mY = Ok (data this i j) /\
  sample this sx sy NEAREST mX mY = Ok (data this i j).
Proof.
  intros R Hx1 Hx2 Hy1 Hy2. cbn [sample]. unfold nearest.
  rewrite (floor_int_unique sx i Hx1 Hx2), (floor_int_unique sy j Hy1 Hy2).
  pose proof R as R'. apply in_range_iff in R'. destruct R' as [Hi Hj].
  rewrite pixel_ok by lia. rewrite pixel_val_in_range by exact R.
  split; reflexivity.
Qed.

Lemma nearest_cell_witness :
  nearest ramp5 (of_int 3 + half)%Qc half BLACK REPEAT = Ok (data ramp5 3 0) /\
  sample ramp5 (of_int 3 + half)%Qc half NEAREST BLACK REPEAT = Ok (data ramp5 3 0).
Proof.
  apply (nearest_cell ramp5 (of_int 3 + half)%Qc half 3 0 BLACK REPEAT).
  - reflexivity.
  - vm_compute. discriminate.
  - vm_compute. reflexivity.
  - vm_compute. discriminate.
  - vm_compute. reflexivity.
Defined.

Ltac qc_ring :=
  repeat match goal with
         | |- context [of_int ?z] =>
             let q := fresh "q" in generalize (of_int z); intro q
         end;
  try (generalize half; intro);
  unfold float in *; ring.

Lemma pixel_val_constant (img : HDRImage) (c : Color4) (x y : Z) (mX mY : BorderMode) :
  constant_raster img c -> 0 < width img -> 0 < height img ->
  mX <> BLACK -> mY <> BLACK ->
  pixel_val img x y mX mY = c.
Proof.
  intros Hc Hw Hh HmX HmY.
  destruct (wrapCoord_total x (width img) mX Hw HmX) as [x' [Ex Bx]].
  destruct (wrapCoord_total y (height img) mY Hh HmY) as [y' [Ey By]].
  unfold pixel_val, pixel. rewrite Ex, Ey. cbn [bind].
  replace (x' <? 0) with false by (symmetry; apply Z.ltb_ge; lia).
  replace (y' <? 0) with false by (symmetry; apply Z.ltb_ge; lia).
  cbn [orb]. rewrite at_ok by lia. apply Hc. apply in_range_intro; lia.
Qed.

Lemma half_half : (1 - half)%Qc = half.
Proof. apply Qc_is_canon. reflexivity. Qed.

Lemma of_int_add (u v : Z) : (of_int u + of_int v)%Qc = of_int (u + v).
Proof.
  apply Qc_is_canon. unfold of_int, Qcplus, Q2Qc. cbn [this].
  rewrite !Qred_correct. rewrite inject_Z_plus. reflexivity.
Qed.

Lemma floor_int_half (i : Z) : floor_int (of_int i + half)%Qc = i.
Proof.
  apply floor_int_unique; qc_to_q; lra.
Qed.

(** On the line between the centres of two neighbours of a row, half way,
    [bilinear] returns the mean of the two pixels. *)
Theorem bilinear_midpoint (this : HDRImage) (i j : Z) (mX mY : BorderMode) :
  in_range this i j = true -> in_range this (i + 1) j = true ->
  bilinear this (of_int (i + 1)) (of_int j + half)%Qc mX mY
  = Ok (Color4_scale (Color4_add (data this i j) (data this (i + 1) j)) half).
Proof.
  intros R0 R1. pose proof R0 as R'. apply in_range_iff in R'. destruct R' as [Hi Hj].
  unfold bilinear. cbv zeta. rewrite center_shift, floor_of_int.
  replace (of_int (i + 1) - half)%Qc with (of_int i + half)%Qc.
  2:{ rewrite <- of_int_add. rewrite <- half_half at 2.
      change (of_int 1) with 1%Qc. qc_ring. }
  rewrite floor_int_half.
  rewrite !pixel_ok by lia. cbn [bind]. f_equal.
  rewrite (pixel_val_in_range this i j mX mY R0).
  rewrite (pixel_val_in_range this (i + 1) j mX mY R1).
  replace (of_int i + half - of_int i)%Qc with half by qc_ring.
  replace (of_int j - of_int j)%Qc with 0%Qc by qc_ring.
  unfold lerp. rewrite half_half.
  destruct (data this i j), (data this (i + 1) j),
    (pixel_val this i (j + 1) mX mY), (pixel_val this (i + 1) (j + 1) mX mY).
  color_ring.
Qed.

Lemma bilinear_midpoint_witness :
  bilinear ramp5 (of_int (2 + 1)) (of_int 0 + half)%Qc EDGE EDGE
  = Ok (Color4_scale (Color4_add (data ramp5 2 0) (data ramp5 (2 + 1) 0)) half).
Proof.
  apply (bilinear_midpoint ramp5 2 0 EDGE EDGE); reflexivity.
Defined.

Lemma cubic_weight_branches (d : float) :
  cubic_weight d = if Qcleb d 1%Qc then cubic_near d else cubic_far d.
Proof. reflexivity. Qed.

Lemma cubic_near_far_1 : cubic_near 1%Qc = cubic_far 1%Qc.
Proof. apply Qc_is_canon. vm_compute. reflexivity. Qed.

Lemma cubic_weight_le (d : float) : (d <= 1)%Qc -> cubic_weight d = cubic_near d.
Proof.
  intros H. rewrite cubic_weight_branches.
  replace (Qcleb d 1%Qc) with true; [reflexivity|].
  symmetry. unfold Qcleb. apply Qle_bool_iff. exact H.
Qed.

Lemma cubic_weight_ge (d : float) : (1 <= d)%Qc -> cubic_weight d = cubic_far d.
Proof.
  intros H. rewrite cubic_weight_branches.
  destruct (Qcleb d 1%Qc) eqn:E; [|reflexivity].
  unfold Qcleb in E. apply Qle_bool_iff in E.
  assert (Ed : d = 1%Qc) by (apply Qcle_antisym; assumption).
  rewrite Ed. apply cubic_near_far_1.
Qed.

Lemma of_int_consts :
  of_int 2 = (1 + 1)%Qc /\ of_int 3 = (1 + 1 + 1)%Qc /\
  of_int 4 = (1 + 1 + 1 + 1)%Qc /\ of_int 5 = (1 + 1 + 1 + 1 + 1)%Qc /\
  of_int 8 = (1 + 1 + 1 + 1 + 1 + 1 + 1 + 1)%Qc.
Proof. repeat split; apply Qc_is_canon; reflexivity. Qed.

(** The weights of the four taps of the cubic kernel add up to 1 at every
    offset t of the sample position from the tap left of it. *)
Lemma cubic_sum_identity (t : float) :
  (cubic_far (t + 1)%Qc + cubic_near t + cubic_near (1 - t)%Qc
   + cubic_far (1 + 1 - t)%Qc)%Qc
  = 1%Qc.
Proof.
  unfold cubic_far, cubic_near. cbv zeta.
  destruct of_int_consts as [E2 [E3 [E4 [E5 E8]]]].
  rewrite E2, E5, E8.
  generalize (- (of_int 3 / of_int 4))%Qc. rewrite E3, E4.
  intros A. unfold float in *. ring.
Qed.

Lemma cubic_taps_sum (q : float) :
  (cubic_weight (Qcabs (q - of_int (floor_int q - 1)))
   + cubic_weight (Qcabs (q - of_int (floor_int q - 1 + 1)))
   + cubic_weight (Qcabs (q - of_int (floor_int q - 1 + 1 + 1)))
   + cubic_weight (Qcabs (q - of_int (floor_int q - 1 + 1 + 1 + 1))))%Qc
  = 1%Qc.
Proof.
  destruct (floor_int_bounds q) as [B1 B2].
  rewrite <- of_int_add in B2. change (of_int 1) with 1%Qc in B2.
  set (bx := floor_int q) in *.
  replace (bx - 1 + 1 + 1 + 1) with (bx + 2) by lia.
  replace (bx - 1 + 1 + 1) with (bx + 1) by lia.
  replace (bx - 1 + 1) with bx by lia.
  rewrite <- (of_int_sub bx 1), <- (of_int_add bx 1), <- (of_int_add bx 2).
  destruct of_int_consts as [E2 _]. rewrite E2. change (of_int 1) with 1%Qc.
  generalize dependent (of_int bx). intros z B1 B2.
  assert (P0 : (0 <= q - z)%Qc) by (qc_to_q; lra).
  assert (P1 : (q - z < 1)%Qc) by (qc_to_q; lra).
  remember (q - z)%Qc as t eqn:Et.
  replace (q - (z - 1))%Qc with (t + 1)%Qc by (rewrite Et; unfold float in *; ring).
  replace (q - (z + 1))%Qc with (t - 1)%Qc by (rewrite Et; unfold float in *; ring).
  replace (q - (z + (1 + 1)))%Qc with (t - (1 + 1))%Qc
    by (rewrite Et; unfold float in *; ring).
  clear Et B1 B2.
  rewrite (Qcabs_pos (t + 1)) by (qc_to_q; lra).
  rewrite (Qcabs_pos t) by exact P0.
  rewrite (Qcabs_neg (t - 1)) by (qc_to_q; lra).
  rewrite (Qcabs_neg (t - (1 + 1))) by (qc_to_q; lra).
  replace (- (t - 1))%Qc with (1 - t)%Qc by (unfold float in *; ring).
  replace (- (t - (1 + 1)))%Qc with (1 + 1 - t)%Qc by (unfold float in *; ring).
  rewrite (cubic_weight_ge (t + 1)%Qc) by (qc_to_q; lra).
  rewrite (cubic_weight_le t) by (qc_to_q; lra).
  rewrite (cubic_weight_le (1 - t)%Qc) by (qc_to_q; lra).
  rewrite (cubic_weight_ge (1 + 1 - t)%Qc) by (qc_to_q; lra).
  apply cubic_sum_identity.
Qed.

Lemma weighted_constant (v c w w0 w1 w2 w3 : Qc) :
  (w0 + w1 + w2 + w3)%Qc = 1%Qc ->
  (v + c * (w0 * w) + c * (w1 * w) + c * (w2 * w) + c * (w3 * w))%Qc = (v + c * w)%Qc.
Proof.
  intros H.
  transitivity (v + c * w * (w0 + w1 + w2 + w3))%Qc; [ring|].
  rewrite H. ring.
Qed.

Lemma weighted_total (v w w0 w1 w2 w3 : Qc) :
  (w0 + w1 + w2 + w3)%Qc = 1%Qc ->
  (v + w0 * w + w1 * w + w2 * w + w3 * w)%Qc = (v + w)%Qc.
Proof.
  intros H.
  transitivity (v + w * (w0 + w1 + w2 + w3))%Qc; [ring|].
  rewrite H. ring.
Qed.

(** One row of taps of [bicubic] on a raster of one colour. *)
Lemma bicubic_row_constant (this : HDRImage) (c : Color4) (q : float) (y : Z)
  (mX mY : BorderMode) (yweight : float) (val : Color4) (totalweight : float) :
  constant_raster this c -> 0 < width this -> 0 < height this ->
  mX <> BLACK -> mY <> BLACK ->
  for_range (floor_int q - 1) (floor_int q + 3)
    (fun x acc =>
       let '(val, totalweight) := acc in
       let distx := Qcabs (q - of_int x) in
       let weight := (cubic_weight distx * yweight)%Qc in
       p <- pixel this x y mX mY ;;
       Ok (Color4_add val (Color4_scale p weight), (totalweight + weight)%Qc))
    (val, totalweight)
  = Ok (Color4_add val (Color4_scale c yweight), (totalweight + yweight)%Qc).
Proof.
  intros Hc Hw Hh HmX HmY. unfold for_range.
  replace (Z.to_nat (floor_int q + 3 - (floor_int q - 1))) with 4%nat by lia.
  pose proof (cubic_taps_sum q) as Hsum.
  cbn [for_loop]. cbv zeta.
  rewrite !pixel_ok by assumption. cbn [bind].
  rewrite !(pixel_val_constant this c) by assumption.
  revert Hsum.
  generalize (cubic_weight (Qcabs (q - of_int (floor_int q - 1)))).
  generalize (cubic_weight (Qcabs (q - of_int (floor_int q - 1 + 1)))).
  generalize (cubic_weight (Qcabs (q - of_int (floor_int q - 1 + 1 + 1)))).
  generalize (cubic_weight (Qcabs (q - of_int (floor_int q - 1 + 1 + 1 + 1)))).
  intros w3 w2 w1 w0 Hsum.
  f_equal. f_equal.
  - destruct val, c. unfold Color4_add, Color4_map2, Color4_scale. cbn [r g b a].
    unfold float in *. f_equal; apply weighted_constant; exact Hsum.
  - unfold float in *. apply weighted_total. exact Hsum.
Qed.

Lemma bicubic_constant (this : HDRImage) (c : Color4) (sx sy : float)
  (mX mY : BorderMode) :
  constant_raster this c -> 0 < width this -> 0 < height this ->
  mX <> BLACK -> mY <> BLACK ->
  bicubic this sx sy mX mY = Ok c.
Proof.
  intros Hc Hw Hh HmX HmY. unfold bicubic. cbv zeta.
  set (qx := (sx - half)%Qc). set (qy := (sy - half)%Qc).
  rewrite (for_range_ext _ _ _
             (fun y acc =>
                Ok (Color4_add (fst acc)
                      (Color4_scale c (cubic_weight (Qcabs (qy - of_int y)))),
                    (snd acc + cubic_weight (Qcabs (qy - of_int y)))%Qc))).
  - unfold for_range.
    replace (Z.to_nat (floor_int qy + 3 - (floor_int qy - 1))) with 4%nat by lia.
    pose proof (cubic_taps_sum qy) as Hsum.
    cbn [for_loop bind fst snd].
    revert Hsum.
    generalize (cubic_weight (Qcabs (qy - of_int (floor_int qy - 1)))).
    generalize (cubic_weight (Qcabs (qy - of_int (floor_int qy - 1 + 1)))).
    generalize (cubic_weight (Qcabs (qy - of_int (floor_int qy - 1 + 1 + 1)))).
    generalize (cubic_weight (Qcabs (qy - of_int (floor_int qy - 1 + 1 + 1 + 1)))).
    intros w3 w2 w1 w0 Hsum. f_equal.
    assert (Et : (0 + w0 + w1 + w2 + w3)%Qc = 1%Qc)
      by (rewrite <- Hsum; unfold float in *; ring).
    rewrite Et.
    replace (1 / 1)%Qc with 1%Qc by (apply Qc_is_canon; reflexivity).
    destruct c. unfold Color4_add, Color4_map2, Color4_scale. cbn [r g b a].
    unfold float in *.
    f_equal.
    + transitivity (r0 * (w0 + w1 + w2 + w3))%Qc; [ring | rewrite Hsum; ring].
    + transitivity (g0 * (w0 + w1 + w2 + w3))%Qc; [ring | rewrite Hsum; ring].
    + transitivity (b0 * (w0 + w1 + w2 + w3))%Qc; [ring | rewrite Hsum; ring].
    + transitivity (a0 * (w0 + w1 + w2 + w3))%Qc; [ring | rewrite Hsum; ring].
  - intros y [val totalweight] Hy. cbn [fst snd].
    apply (bicubic_row_constant this c qx y mX mY); assumption.
Qed.

Lemma bilinear_constant (this : HDRImage) (c : Color4) (sx sy : float)
  (mX mY : BorderMode) :
  constant_raster this c -> 0 < width this -> 0 < height this ->
  mX <> BLACK -> mY <> BLACK ->
  bilinear this sx sy mX mY = Ok c.
Proof.
  intros Hc Hw Hh HmX HmY. unfold bilinear. cbv zeta.
  rewrite !pixel_ok by assumption. cbn [bind].
  rewrite !(pixel_val_constant this c) by assumption.
  f_equal. unfold lerp.
  generalize (sx - half - of_int (floor_int (sx - half)))%Qc.
  generalize (sy - half - of_int (floor_int (sy - half)))%Qc.
  intros t u. destruct c. color_ring.
Qed.

(** Under EDGE, REPEAT and MIRROR every sampler returns the colour of a
    raster of one colour, wherever the sample is taken: the weights of
    [bilinear] and of [bicubic] add up to 1, and [bicubic] never divides
    by a total weight of 0. *)
Theorem sample_constant (this : HDRImage) (c : Color4) (sx sy : float)
  (s : Sampler) (mX mY : BorderMode) :
  constant_raster this c -> 0 < width this -> 0 < height this ->
  mX <> BLACK -> mY <> BLACK ->
  sample this sx sy s mX mY = Ok c.
Proof.
  intros Hc Hw Hh HmX HmY. destruct s; cbn [sample].
  - unfold nearest. rewrite pixel_ok by assumption.
    rewrite (pixel_val_constant this c) by assumption. reflexivity.
  - apply bilinear_constant; assumption.
  - apply bicubic_constant; assumption.
Qed.

Lemma sample_constant_witness :
  sample (flat_image 3 2 (gray 7)) (of_int 11 / of_int 3)%Qc (- half)%Qc
    BICUBIC MIRROR EDGE = Ok (gray 7).
Proof.
  apply (sample_constant (flat_image 3 2 (gray 7)) (gray 7)).
  - intros x y _. reflexivity.
  - reflexivity.
  - reflexivity.
  - discriminate.
  - discriminate.
Defined.

(** ** Resampling *)


Lemma of_int_nonzero (u : Z) : u <> 0 -> of_int u <> 0%Qc.
Proof.
  intros Hu E. apply (f_equal this) in E.
  assert (Q : (inject_Z u == 0)%Q).
  { rewrite <- this_of_int. rewrite E. reflexivity. }
  unfold Qeq, inject_Z in Q. cbn in Q. lia.
Qed.


Lemma Color4_div_1 (c : Color4) : Color4_div c (of_int (1 * 1)) = c.
Proof.
  change (of_int (1 * 1)) with 1%Qc. destruct c.
  unfold Color4_div. cbn [r g b a].
  replace (/ 1)%Qc with 1%Qc by (apply Qc_is_canon; reflexivity).
  unfold Qcdiv. replace (/ 1)%Qc with 1%Qc by (apply Qc_is_canon; reflexivity).
  f_equal; unfold float in *; ring.
Qed.




(** ** Loops over columns *)

Lemma for_loop_col (body : Z -> HDRImage -> result HDRImage)
  (F : Z -> Color4 -> Color4) (x : Z) (n : nat) (lo : Z) (tb : HDRImage) :
  (forall y, lo <= y < lo + Z.of_nat n -> 0 <= y < height tb /\ 0 <= x < width tb) ->
  (forall y tb1, lo <= y < lo + Z.of_nat n ->
     width tb1 = width tb -> height tb1 = height tb ->
     body y tb1 = assign tb1 x y (F y (data tb1 x y))) ->
  exists tb', for_loop n lo body tb = Ok tb' /\
    width tb' = width tb /\ height tb' = height tb /\
    forall x' y', data tb' x' y'
      = if (x' =? x) && ((lo <=? y') && (y' <? lo + Z.of_nat n))
        then F y' (data tb x' y') else data tb x' y'.
Proof.
  revert lo tb. induction n as [|n IH]; intros lo tb Hin Hbody.
  - exists tb. repeat split; try reflexivity. intros x' y'.
    replace ((lo <=? y') && (y' <? lo + Z.of_nat 0)) with false.
    + rewrite andb_false_r. reflexivity.
    + symmetry. apply andb_false_iff.
      destruct (Z.leb_spec lo y'); [right; apply Z.ltb_ge; lia | left; reflexivity].
  - cbn [for_loop]. rewrite Hbody by lia.
    destruct (Hin lo ltac:(lia)) as [Hy0 Hx0].
    rewrite assign_ok by lia. cbn [bind].
    match goal with
    | |- context [for_loop n (lo + 1) body ?t] => set (tb1 := t)
    end.
    destruct (IH (lo + 1) tb1) as [tb' [E [W [H D]]]].
    + intros y Hy. cbn [tb1 width height]. apply Hin. lia.
    + intros y tb2 Hy W2 H2. apply Hbody; [lia | exact W2 | exact H2].
    + exists tb'. split; [exact E|]. split; [exact W|]. split; [exact H|].
      intros x' y'. rewrite D. subst tb1. cbn [data].
      destruct (Z.eqb_spec x' x) as [->|Nx]; cbn [andb]; [|reflexivity].
      destruct (Z.eqb_spec y' lo) as [->|Ny]; cbn [andb].
      * replace (lo + 1 <=? lo) with false by (symmetry; apply Z.leb_gt; lia).
        cbn [andb]. rewrite Z.leb_refl.
        replace (lo <? lo + Z.of_nat (S n)) with true
          by (symmetry; apply Z.ltb_lt; lia).
        reflexivity.
      * replace (lo + 1 + Z.of_nat n) with (lo + Z.of_nat (S n)) by lia.
        replace (lo + 1 <=? y') with (lo <=? y'); [reflexivity|].
        destruct (Z.leb_spec lo y'), (Z.leb_spec (lo + 1) y'); try reflexivity; lia.
Qed.

Lemma for_loop_cols (inner : Z -> HDRImage -> result HDRImage)
  (F : Z -> Z -> Color4 -> Color4) (ylo yhi : Z) (m : nat) (xlo : Z) (tb : HDRImage) :
  (forall x tb1, xlo <= x < xlo + Z.of_nat m ->
     width tb1 = width tb -> height tb1 = height tb ->
     exists tb2, inner x tb1 = Ok tb2 /\
       width tb2 = width tb1 /\ height tb2 = height tb1 /\
       forall x' y', data tb2 x' y'
         = if (x' =? x) && ((ylo <=? y') && (y' <? yhi))
           then F x' y' (data tb1 x' y') else data tb1 x' y') ->
  exists tb', for_loop m xlo inner tb = Ok tb' /\
    width tb' = width tb /\ height tb' = height tb /\
    forall x' y', data tb' x' y'
      = if ((xlo <=? x') && (x' <? xlo + Z.of_nat m)) && ((ylo <=? y') && (y' <? yhi))
        then F x' y' (data tb x' y') else data tb x' y'.
Proof.
  revert xlo tb. induction m as [|m IH]; intros xlo tb Hinner.
  - exists tb. repeat split; try reflexivity. intros x' y'.
    replace ((xlo <=? x') && (x' <? xlo + Z.of_nat 0)) with false; [reflexivity|].
    symmetry. apply andb_false_iff.
    destruct (Z.leb_spec xlo x'); [right; apply Z.ltb_ge; lia | left; reflexivity].
  - cbn [for_loop].
    destruct (Hinner xlo tb) as [tb1 [E1 [W1 [H1 D1]]]]; try lia; try reflexivity.
    rewrite E1. cbn [bind].
    destruct (IH (xlo + 1) tb1) as [tb' [E [W [H D]]]].
    + intros x tb2 Hx W2 H2.
      destruct (Hinner x tb2) as [tb3 [E3 [W3 [H3 D3]]]]; try lia; try congruence.
      exists tb3. repeat split; assumption.
    + exists tb'. split; [exact E|]. split; [congruence|]. split; [congruence|].
      intros x' y'. rewrite D, D1.
      destruct (Z.eqb_spec x' xlo) as [->|Nx]; cbn [andb].
      * replace (xlo + 1 <=? xlo) with false by (symmetry; apply Z.leb_gt; lia).
        cbn [andb]. rewrite Z.leb_refl.
        replace (xlo <? xlo + Z.of_nat (S m)) with true
          by (symmetry; apply Z.ltb_lt; lia).
        reflexivity.
      * replace (xlo + 1 + Z.of_nat m) with (xlo + Z.of_nat (S m)) by lia.
        replace (xlo + 1 <=? x') with (xlo <=? x'); [reflexivity|].
        destruct (Z.leb_spec xlo x'), (Z.leb_spec (xlo + 1) x'); try reflexivity; lia.
Qed.

(** A loop that adds a colour and a weight at each step. *)
Lemma for_loop_accumulate (f : Z -> Color4) (w : Z -> float) (n : nat) (lo : Z)
  (body : Z -> Color4 * float -> result (Color4 * float)) (acc : Color4 * float) :
  (forall i A W, lo <= i < lo + Z.of_nat n ->
     body i (A, W) = Ok (Color4_add A (f i), (W + w i)%Qc)) ->
  for_loop n lo body acc
  = Ok (Color4_add (fst acc) (Color4_sum (map f (zrange lo n))),
        (snd acc + Qc_sum (map w (zrange lo n)))%Qc).
Proof.
  revert lo acc. induction n as [|n IH]; intros lo [A W] Hbody.
  - cbn. f_equal. f_equal.
    + destruct A. color_ring.
    + unfold float in *. ring.
  - cbn [for_loop]. rewrite Hbody by lia. cbn [bind].
    rewrite IH by (intros; apply Hbody; lia).
    rewrite zrange_S. cbn [map Color4_sum Qc_sum fold_right fst snd].
    fold (Color4_sum (map f (zrange (lo + 1) n))).
    fold (Qc_sum (map w (zrange (lo + 1) n))).
    f_equal. f_equal.
    + symmetry. apply Color4_add_assoc.
    + unfold float in *. ring.
Qed.

(** ** convolved *)

Lemma array_at_ok (k : ArrayXXf) (i j : Z) :
  0 <= i < a_rows k -> 0 <= j < a_cols k -> array_at k i j = Ok (a_data k i j).
Proof.
  intros Hi Hj. unfold array_at.
  replace (0 <=? i) with true by (symmetry; apply Z.leb_le; lia).
  replace (i <? a_rows k) with true by (symmetry; apply Z.ltb_lt; lia).
  replace (0 <=? j) with true by (symmetry; apply Z.leb_le; lia).
  replace (j <? a_cols k) with true by (symmetry; apply Z.ltb_lt; lia).
  reflexivity.
Qed.

Lemma convolved_at_ok (this : HDRImage) (kernel : ArrayXXf) (mX mY : BorderMode)
  (x y : Z) :
  0 < width this -> 0 < height this ->
  convolved_at this kernel mX mY
    (Z.quot (a_rows kernel - 1) 2) (Z.quot (a_cols kernel - 1) 2) x y
  = Ok (convolution_sum this kernel mX mY x y, kernel_sum kernel).
Proof.
  intros Hw Hh. unfold convolved_at, for_range. rewrite !Z.sub_0_r.
  rewrite (for_loop_accumulate
             (fun i => Color4_sum
                (map (fun j => Color4_scale
                        (pixel_val this (x - i + Z.quot (a_rows kernel - 1) 2)
                                   (y - j + Z.quot (a_cols kernel - 1) 2) mX mY)
                        (a_data kernel i j))
                     (zrange 0 (Z.to_nat (a_cols kernel)))))
             (fun i => Qc_sum (map (fun j => a_data kernel i j)
                                   (zrange 0 (Z.to_nat (a_cols kernel)))))).
  - cbn [fst snd]. unfold convolution_sum, kernel_sum. f_equal. f_equal.
    + apply Color4_add_zero_l.
    + unfold float in *. ring.
  - intros i A W Hi.
    rewrite (for_loop_accumulate
               (fun j => Color4_scale
                  (pixel_val this (x - i + Z.quot (a_rows kernel - 1) 2)
                             (y - j + Z.quot (a_cols kernel - 1) 2) mX mY)
                  (a_data kernel i j))
               (fun j => a_data kernel i j)).
    + reflexivity.
    + intros j A' W' Hj. rewrite array_at_ok by lia. cbn [bind].
      rewrite pixel_ok by assumption. reflexivity.
Qed.

Lemma convolved_spec (this : HDRImage) (kernel : ArrayXXf) (mX mY : BorderMode) :
  exists out, convolved this kernel mX mY = Ok out /\
    width out = width this /\ height out = height this /\
    forall x y, in_range this x y = true ->
      data out x y
      = Color4_div (convolution_sum this kernel mX mY x y) (kernel_sum kernel).
Proof.
  unfold convolved, for_range. cbn [new_image width height].
  destruct (for_loop_cols
              (fun x imFilter =>
                 for_loop (Z.to_nat (height imFilter - 0)) 0
                   (fun y imFilter =>
                      acc <- convolved_at this kernel mX mY
                               (Z.quot (a_rows kernel - 1) 2)
                               (Z.quot (a_cols kernel - 1) 2) x y ;;
                      let '(accum, weightSum) := acc in
                      assign imFilter x y (Color4_div accum weightSum))
                   imFilter)
              (fun x y _ => Color4_div (convolution_sum this kernel mX mY x y)
                                       (kernel_sum kernel))
              0 (height this) (Z.to_nat (width this - 0)) 0
              (new_image (width this) (height this)))
    as [out [E [W [H D]]]].
  - intros x tb1 Hx W1 H1. cbn [new_image width height] in W1, H1.
    cbv beta. rewrite H1.
    destruct (for_loop_col
                (fun y imFilter =>
                   acc <- convolved_at this kernel mX mY
                            (Z.quot (a_rows kernel - 1) 2)
                            (Z.quot (a_cols kernel - 1) 2) x y ;;
                   let '(accum, weightSum) := acc in
                   assign imFilter x y (Color4_div accum weightSum))
                (fun y _ => Color4_div (convolution_sum this kernel mX mY x y)
                                       (kernel_sum kernel))
                x (Z.to_nat (height this - 0)) 0 tb1)
      as [tb2 [E2 [W2 [H2 D2]]]].
    + intros y Hy. lia.
    + intros y tb3 Hy W3 H3. rewrite convolved_at_ok by lia. reflexivity.
    + exists tb2. split; [exact E2|]. split; [exact W2|]. split; [congruence|].
      intros x' y'. rewrite D2.
      replace ((0 <=? y') && (y' <? 0 + Z.of_nat (Z.to_nat (height this - 0))))
        with ((0 <=? y') && (y' <? height this)).
      * destruct (Z.eqb_spec x' x) as [->|]; reflexivity.
      * destruct (Z.leb_spec 0 y'); cbn [andb]; [|reflexivity].
        destruct (Z.ltb_spec y' (0 + Z.of_nat (Z.to_nat (height this - 0)))),
                 (Z.ltb_spec y' (height this)); try reflexivity; lia.
  - exists out. split; [exact E|]. split; [exact W|]. split; [exact H|].
    intros x y R. apply in_range_iff in R. destruct R as [Hx Hy].
    rewrite D.
    replace (0 <=? x) with true by (symmetry; apply Z.leb_le; lia).
    replace (x <? 0 + Z.of_nat (Z.to_nat (width this - 0))) with true
      by (symmetry; apply Z.ltb_lt; lia).
    replace (0 <=? y) with true by (symmetry; apply Z.leb_le; lia).
    replace (y <? height this) with true by (symmetry; apply Z.ltb_lt; lia).
    reflexivity.
Qed.


Lemma Color4_sum_scaled (c : Color4) (w : Z -> float) (l : list Z) :
  Color4_sum (map (fun j => Color4_scale c (w j)) l)
  = Color4_scale c (Qc_sum (map w l)).
Proof.
  induction l as [|j l IH].
  - cbn. color_ring.
  - cbn [map Color4_sum Qc_sum fold_right].
    fold (Color4_sum (map (fun j => Color4_scale c (w j)) l)).
    fold (Qc_sum (map w l)). rewrite IH. color_ring.
Qed.

Lemma convolution_sum_constant (this : HDRImage) (kernel : ArrayXXf)
  (mX mY : BorderMode) (c : Color4) (x y : Z) :
  constant_raster this c -> 0 < width this -> 0 < height this ->
  mX <> BLACK -> mY <> BLACK ->
  convolution_sum this kernel mX mY x y = Color4_scale c (kernel_sum kernel).
Proof.
  intros Hc Hw Hh HmX HmY. unfold convolution_sum, kernel_sum.
  rewrite <- (Color4_sum_scaled c
                (fun i => Qc_sum (map (fun j => a_data kernel i j)
                                      (zrange 0 (Z.to_nat (a_cols kernel)))))).
  f_equal. apply map_ext. intros i.
  rewrite <- (Color4_sum_scaled c (fun j => a_data kernel i j)).
  f_equal. apply map_ext. intros j.
  rewrite (pixel_val_constant this c) by assumption. reflexivity.
Qed.

Lemma Color4_scale_div (c : Color4) (s : float) :
  s <> 0%Qc -> Color4_div (Color4_scale c s) s = c.
Proof.
  intros Hs. destruct c. unfold Color4_div, Color4_scale. cbn [r g b a].
  f_equal; unfold float in *; field; exact Hs.
Qed.

(** A raster of one colour, convolved with a kernel whose weights do not
    sum to 0 under border modes other than BLACK, is that raster again:
    the result is normalised by the sum of the weights. *)
Theorem convolved_constant (this : HDRImage) (kernel : ArrayXXf) (mX mY : BorderMode)
  (c : Color4) :
  constant_raster this c -> mX <> BLACK -> mY <> BLACK ->
  kernel_sum kernel <> 0%Qc ->
  exists out, convolved this kernel mX mY = Ok out /\
    width out = width this /\ height out = height this /\
    constant_raster out c.
Proof.
  intros Hc HmX HmY Hs.
  destruct (convolved_spec this kernel mX mY) as [out [E [W [H D]]]].
  exists out. split; [exact E|]. split; [exact W|]. split; [exact H|].
  intros x y R.
  assert (R' : in_range this x y = true).
  { apply in_range_iff in R. apply in_range_intro; lia. }
  rewrite D by exact R'. apply in_range_iff in R'.
  rewrite (convolution_sum_constant this kernel mX mY c) by (assumption || lia).
  apply Color4_scale_div. exact Hs.
Qed.

(** A kernel of a single weight other than 0 leaves every pixel as it is,
    whatever the weight and the border modes. *)
Theorem convolved_single_tap (this : HDRImage) (k : float) (mX mY : BorderMode) :
  k <> 0%Qc ->
  exists out, convolved this (kernel_1x1 k) mX mY = Ok out /\
    width out = width this /\ height out = height this /\
    forall x y, in_range this x y = true -> data out x y = data this x y.
Proof.
  intros Hk.
  destruct (convolved_spec this (kernel_1x1 k) mX mY) as [out [E [W [H D]]]].
  exists out. split; [exact E|]. split; [exact W|]. split; [exact H|].
  intros x y R. rewrite D by exact R.
  unfold convolution_sum, kernel_sum, kernel_1x1.
  cbn [a_rows a_cols a_data]. change (Z.to_nat 1) with 1%nat.
  change (Z.quot (1 - 1) 2) with 0.
  cbn [zrange seq map Color4_sum Qc_sum fold_right].
  replace (x - (0 + Z.of_nat 0) + 0) with x by lia.
  replace (y - (0 + Z.of_nat 0) + 0) with y by lia.
  rewrite pixel_val_in_range by exact R.
  destruct (data this x y) as [r0 g0 b0 a0].
  unfold Color4_div, Color4_scale, Color4_add, Color4_map2, Color4_zero,
    Color4_const.
  cbn [r g b a]. unfold float in *. rewrite !Qcplus_0_r.
  f_equal; field; exact Hk.
Qed.

Lemma convolved_constant_witness :
  exists out, convolved (flat_image 3 2 (gray 7)) sharpen3 MIRROR EDGE = Ok out /\
    width out = 3 /\ height out = 2 /\ constant_raster out (gray 7).
Proof.
  apply (convolved_constant (flat_image 3 2 (gray 7)) sharpen3 MIRROR EDGE (gray 7)).
  - intros x y _. reflexivity.
  - discriminate.
  - discriminate.
  - intros E. apply (f_equal this) in E. vm_compute in E. discriminate.
Defined.

Lemma convolved_single_tap_witness :
  exists out, convolved ramp5 (kernel_1x1 (of_int 3)) BLACK BLACK = Ok out /\
    width out = 5 /\ height out = 1 /\
    forall x y, in_range ramp5 x y = true -> data out x y = data ramp5 x y.
Proof.
  apply (convolved_single_tap ramp5 (of_int 3) BLACK BLACK).
  intros E. apply (f_equal this) in E. vm_compute in E. discriminate.
Defined.

(** ** The Gaussian kernel *)

Lemma Qc_sum_div (f : Z -> float) (N : float) (l : list Z) :
  Qc_sum (map (fun i => (f i / N)%Qc) l) = (Qc_sum (map f l) / N)%Qc.
Proof.
  unfold float, Qc_sum in *. induction l as [|i l IH].
  - cbn [map fold_right]. unfold Qcdiv. ring.
  - cbn [map fold_right] in *. rewrite IH. unfold Qcdiv. ring.
Qed.

Lemma Qc_sum_nonneg (f : Z -> float) (l : list Z) :
  (forall i, In i l -> (0 <= f i)%Qc) -> (0 <= Qc_sum (map f l))%Qc.
Proof.
  unfold float, Qc_sum in *. induction l as [|i l IH]; intros Hf.
  - cbn [map fold_right]. apply Qcle_refl.
  - cbn [map fold_right].
    replace 0%Qc with (0 + 0)%Qc by ring.
    apply Qcplus_le_compat.
    + apply Hf. left. reflexivity.
    + apply IH. intros j Hj. apply Hf. right. exact Hj.
Qed.

Lemma Qc_sum_pos (f : Z -> float) (l : list Z) (i0 : Z) :
  (forall i, In i l -> (0 <= f i)%Qc) -> In i0 l -> (0 < f i0)%Qc ->
  (0 < Qc_sum (map f l))%Qc.
Proof.
  unfold float in *. induction l as [|i l IH]; intros Hf Hin Hpos; [destruct Hin|].
  assert (Hl : (0 <= Qc_sum (map f l))%Qc).
  { apply Qc_sum_nonneg. intros j Hj. apply Hf. right. exact Hj. }
  change (Qc_sum (map f (i :: l))) with (f i + Qc_sum (map f l))%Qc.
  assert (Hi : (0 <= f i)%Qc) by (apply Hf; left; reflexivity).
  destruct Hin as [->|Hin].
  - replace 0%Qc with (0 + 0)%Qc by ring.
    apply Qclt_le_trans with (f i0 + 0)%Qc.
    + rewrite !Qcplus_0_r. exact Hpos.
    + apply Qcplus_le_compat; [apply Qcle_refl | exact Hl].
  - assert (Hs : (0 < Qc_sum (map f l))%Qc).
    { apply IH; [intros j Hj; apply Hf; right; exact Hj | exact Hin | exact Hpos]. }
    apply Qclt_le_trans with (0 + Qc_sum (map f l))%Qc.
    + rewrite Qcplus_0_l. exact Hs.
    + apply Qcplus_le_compat; [exact Hi | apply Qcle_refl].
Qed.

Lemma array_set_ok (k : ArrayXXf) (i j : Z) (v : float) :
  0 <= i < a_rows k -> 0 <= j < a_cols k ->
  array_set k i j v
  = Ok (mkArray (a_rows k) (a_cols k)
          (fun i' j' => if (i' =? i) && (j' =? j) then v else a_data k i' j')).
Proof.
  intros Hi Hj. unfold array_set.
  replace (0 <=? i) with true by (symmetry; apply Z.leb_le; lia).
  replace (i <? a_rows k) with true by (symmetry; apply Z.ltb_lt; lia).
  replace (0 <=? j) with true by (symmetry; apply Z.leb_le; lia).
  replace (j <? a_cols k) with true by (symmetry; apply Z.ltb_lt; lia).
  reflexivity.
Qed.

Lemma in_window_step (lo y : Z) (n : nat) :
  y <> lo ->
  (lo + 1 <=? y) && (y <? lo + 1 + Z.of_nat n)
  = (lo <=? y) && (y <? lo + Z.of_nat (S n)).
Proof.
  intros Ny. replace (lo + 1 + Z.of_nat n) with (lo + Z.of_nat (S n)) by lia.
  replace (lo + 1 <=? y) with (lo <=? y); [reflexivity|].
  destruct (Z.leb_spec lo y), (Z.leb_spec (lo + 1) y); try reflexivity; lia.
Qed.

Lemma in_window_first (lo : Z) (n : nat) :
  (lo <=? lo) && (lo <? lo + Z.of_nat (S n)) = true
  /\ (lo + 1 <=? lo) && (lo <? lo + 1 + Z.of_nat n) = false.
Proof.
  split.
  - rewrite Z.leb_refl. apply Z.ltb_lt. lia.
  - replace (lo + 1 <=? lo) with false by (symmetry; apply Z.leb_gt; lia).
    reflexivity.
Qed.

(** The first loop of the kernel: the taps are written and added up. *)
Lemma gaussian_fill (e : Z -> float) (n : nat) (lo : Z) (fData : ArrayXXf)
  (normalizer : float) :
  a_cols fData = 1 -> 0 <= lo -> lo + Z.of_nat n <= a_rows fData ->
  exists fData',
    for_loop n lo
      (fun i st =>
         let '(fData, normalizer) := st in
         fData <- array_set fData i 0 (e i) ;;
         v <- array_at fData i 0 ;;
         Ok (fData, (normalizer + v)%Qc))
      (fData, normalizer)
    = Ok (fData', (normalizer + Qc_sum (map e (zrange lo n)))%Qc)
    /\ a_rows fData' = a_rows fData /\ a_cols fData' = a_cols fData
    /\ forall i j, a_data fData' i j
         = if (j =? 0) && ((lo <=? i) && (i <? lo + Z.of_nat n))
           then e i else a_data fData i j.
Proof.
  revert lo fData normalizer. induction n as [|n IH]; intros lo fData N Hc Hlo Hhi.
  - exists fData. split.
    + cbn. do 2 f_equal. unfold float in *. ring.
    + split; [reflexivity|]. split; [reflexivity|]. intros i j.
      replace ((lo <=? i) && (i <? lo + Z.of_nat 0)) with false.
      * rewrite andb_false_r. reflexivity.
      * symmetry. apply andb_false_iff.
        destruct (Z.leb_spec lo i); [right; apply Z.ltb_ge; lia | left; reflexivity].
  - cbn [for_loop]. rewrite array_set_ok by lia. cbn [bind].
    rewrite array_at_ok by (cbn [a_rows a_cols]; lia). cbn [bind a_data].
    rewrite !Z.eqb_refl. cbn [andb].
    match goal with
    | |- context [for_loop n (lo + 1) _ (?t, _)] => set (fD1 := t)
    end.
    destruct (IH (lo + 1) fD1 (N + e lo)%Qc) as [fD' [E [R [C D]]]];
      try (cbn [fD1 a_rows a_cols]; lia).
    exists fD'. split.
    + etransitivity; [exact E|]. rewrite zrange_S.
      change (Qc_sum (map e (lo :: zrange (lo + 1) n)))
        with (e lo + Qc_sum (map e (zrange (lo + 1) n)))%Qc.
      do 2 f_equal. unfold float in *. ring.
    + split; [exact R|]. split; [exact C|]. intros i j. rewrite D.
      subst fD1. cbn [a_data].
      destruct (Z.eqb_spec j 0) as [->|Nj]; cbn [andb].
      * destruct (Z.eqb_spec i lo) as [->|Ni]; cbn [andb].
        -- destruct (in_window_first lo n) as [E1 E2]. rewrite E1, E2. reflexivity.
        -- rewrite in_window_step by exact Ni. reflexivity.
      * rewrite andb_false_r. reflexivity.
Qed.

(** The second loop of the kernel: every tap is divided by the total. *)
Lemma gaussian_normalise (N : float) (n : nat) (lo : Z) (fData : ArrayXXf) :
  a_cols fData = 1 -> 0 <= lo -> lo + Z.of_nat n <= a_rows fData ->
  exists fData',
    for_loop n lo
      (fun i fData =>
         v <- array_at fData i 0 ;;
         array_set fData i 0 (v / N)%Qc)
      fData
    = Ok fData'
    /\ a_rows fData' = a_rows fData /\ a_cols fData' = a_cols fData
    /\ forall i j, a_data fData' i j
         = if (j =? 0) && ((lo <=? i) && (i <? lo + Z.of_nat n))
           then (a_data fData i j / N)%Qc else a_data fData i j.
Proof.
  revert lo fData. induction n as [|n IH]; intros lo fData Hc Hlo Hhi.
  - exists fData. split; [reflexivity|].
    split; [reflexivity|]. split; [reflexivity|]. intros i j.
    replace ((lo <=? i) && (i <? lo + Z.of_nat 0)) with false.
    + rewrite andb_false_r. reflexivity.
    + symmetry. apply andb_false_iff.
      destruct (Z.leb_spec lo i); [right; apply Z.ltb_ge; lia | left; reflexivity].
  - cbn [for_loop]. rewrite array_at_ok by lia. cbn [bind].
    rewrite array_set_ok by lia. cbn [bind].
    match goal with
    | |- context [for_loop n (lo + 1) _ ?t] => set (fD1 := t)
    end.
    destruct (IH (lo + 1) fD1) as [fD' [E [R [C D]]]];
      try (cbn [fD1 a_rows a_cols]; lia).
    exists fD'. split; [exact E|].
    split; [exact R|]. split; [exact C|]. intros i j. rewrite D.
    subst fD1. cbn [a_data].
    destruct (Z.eqb_spec j 0) as [->|Nj]; cbn [andb].
    + destruct (Z.eqb_spec i lo) as [->|Ni]; cbn [andb].
      * destruct (in_window_first lo n) as [E1 E2]. rewrite E1, E2. reflexivity.
      * rewrite in_window_step by exact Ni. reflexivity.
    + rewrite andb_false_r. reflexivity.
Qed.

Lemma zrange_bounds (lo v : Z) (n : nat) :
  In v (zrange lo n) -> lo <= v < lo + Z.of_nat n.
Proof.
  unfold zrange. intros Hin. apply in_map_iff in Hin.
  destruct Hin as [k [<- Hk]]. apply in_seq in Hk. lia.
Qed.

Lemma kernel_sum_column (k : ArrayXXf) :
  a_cols k = 1 ->
  kernel_sum k = Qc_sum (map (fun i => a_data k i 0) (zrange 0 (Z.to_nat (a_rows k)))).
Proof.
  intros Hc. unfold kernel_sum. rewrite Hc. f_equal. apply map_ext. intros i.
  change (Qc_sum (map (fun j => a_data k i j) (zrange 0 (Z.to_nat 1))))
    with (a_data k i 0 + 0)%Qc.
  unfold float in *. ring.
Qed.

Lemma kernel_sum_transpose_column (k : ArrayXXf) :
  a_cols k = 1 ->
  kernel_sum (transpose k)
  = Qc_sum (map (fun i => a_data k i 0) (zrange 0 (Z.to_nat (a_rows k)))).
Proof.
  intros Hc. unfold kernel_sum, transpose. cbn [a_rows a_cols a_data]. rewrite Hc.
  change (zrange 0 (Z.to_nat 1)) with [0].
  cbn [map]. unfold Qc_sum at 1. cbn [fold_right].
  unfold float in *. ring.
Qed.

Lemma Qclt_neq (v : float) : (0 < v)%Qc -> v <> 0%Qc.
Proof. intros Hv E. rewrite E in Hv. exact (Qlt_irrefl _ Hv). Qed.


Lemma Qcdiv_self (v : float) : v <> 0%Qc -> (v / v)%Qc = 1%Qc.
Proof. intros Hv. unfold float in *. field. exact Hv. Qed.

Lemma bind_ok {A B : Type} (m : result A) (k : A -> result B) (v : A) :
  m = Ok v -> bind m k = k v.
Proof. intros ->. reflexivity. Qed.

Section GaussianProperties.

Variable exp : float -> float.
Hypothesis exp_nonneg : forall t, (0 <= exp t)%Qc.
Hypothesis exp_0_pos : (0 < exp 0%Qc)%Qc.

Lemma gaussian_arg_center (sigma : float) (offset : Z) :
  gaussian_arg sigma offset offset = 0%Qc.
Proof.
  unfold gaussian_arg. rewrite Z.sub_diag. change (of_int (0 * 0)) with 0%Qc.
  unfold float in *. unfold Qcdiv. ring.
Qed.


Lemma gaussian_total_pos (sigma : float) (offset : Z) :
  0 <= offset ->
  (0 < Qc_sum (map (fun i => exp (gaussian_arg sigma offset i))
                   (zrange 0 (Z.to_nat (2 * offset + 1)))))%Qc.
Proof.
  intros Ho.
  apply (Qc_sum_pos (fun i => exp (gaussian_arg sigma offset i)) _ offset).
  - intros i _. apply exp_nonneg.
  - apply in_zrange. lia.
  - rewrite gaussian_arg_center. exact exp_0_pos.
Qed.

Lemma horizontalGaussianKernel_spec (sigma truncate : float) :
  0 <= Qceiling (truncate * sigma)%Qc ->
  exists k,
    horizontalGaussianKernel exp sigma truncate = Ok k
    /\ a_rows k = 2 * Qceiling (truncate * sigma)%Qc + 1 /\ a_cols k = 1
    /\ forall i, 0 <= i < 2 * Qceiling (truncate * sigma)%Qc + 1 ->
         a_data k i 0
         = (exp (gaussian_arg sigma (Qceiling (truncate * sigma)%Qc) i)
            / Qc_sum (map (fun i => exp (gaussian_arg sigma
                                           (Qceiling (truncate * sigma)%Qc) i))
                          (zrange 0 (Z.to_nat (2 * Qceiling (truncate * sigma)%Qc
                                               + 1)))))%Qc.
Proof.
  intros Ho. unfold horizontalGaussianKernel.
  set (o := Qceiling (truncate * sigma)%Qc) in *.
  unfold alloc_array.
  replace (0 <=? 2 * o + 1) with true by (symmetry; apply Z.leb_le; lia).
  cbn [andb Z.leb Z.compare bind]. unfold for_range. rewrite !Z.sub_0_r.
  destruct (gaussian_fill (fun i => exp (gaussian_arg sigma o i))
              (Z.to_nat (2 * o + 1)) 0
              (mkArray (2 * o + 1) 1 (fun _ _ => 0%Qc)) 0%Qc)
    as [fD1 [E1 [R1 [C1 D1]]]]; try (cbn [a_rows a_cols]; lia).
  cbn [a_rows a_cols a_data] in R1, C1, D1.
  set (N := (0 + Qc_sum (map (fun i => exp (gaussian_arg sigma o i))
                          (zrange 0 (Z.to_nat (2 * o + 1)))))%Qc) in *.
  destruct (gaussian_normalise N (Z.to_nat (2 * o + 1)) 0 fD1)
    as [fD2 [E2 [R2 [C2 D2]]]]; try lia.
  exists fD2. split.
  - erewrite bind_ok by exact E1. exact E2.
  - split; [lia|]. split; [lia|]. intros i Hi.
    rewrite D2, D1. cbn [Z.eqb andb].
    replace (0 <=? i) with true by (symmetry; apply Z.leb_le; lia).
    replace (i <? 0 + Z.of_nat (Z.to_nat (2 * o + 1))) with true
      by (symmetry; apply Z.ltb_lt; lia).
    cbn [andb]. subst N. f_equal. unfold float in *. ring.
Qed.


Lemma horizontalGaussianKernel_sum (sigma truncate : float) :
  0 <= Qceiling (truncate * sigma)%Qc ->
  exists k,
    horizontalGaussianKernel exp sigma truncate = Ok k
    /\ kernel_sum k = 1%Qc /\ kernel_sum (transpose k) = 1%Qc.
Proof.
  intros Ho.
  destruct (horizontalGaussianKernel_spec sigma truncate Ho) as [k [E [R [C D]]]].
  pose proof (gaussian_total_pos sigma _ Ho) as HN.
  assert (S1 : Qc_sum (map (fun i => a_data k i 0) (zrange 0 (Z.to_nat (a_rows k))))
               = 1%Qc).
  { rewrite R.
    rewrite (map_ext_in _
               (fun i => (exp (gaussian_arg sigma (Qceiling (truncate * sigma)%Qc) i)
                          / Qc_sum (map (fun i => exp (gaussian_arg sigma
                                             (Qceiling (truncate * sigma)%Qc) i))
                                        (zrange 0 (Z.to_nat
                                           (2 * Qceiling (truncate * sigma)%Qc
                                            + 1)))))%Qc)).
    - rewrite Qc_sum_div. apply Qcdiv_self. apply Qclt_neq. exact HN.
    - intros i Hi. apply zrange_bounds in Hi. apply D. lia. }
  exists k. split; [exact E|]. split.
  - rewrite kernel_sum_column by exact C. exact S1.
  - rewrite kernel_sum_transpose_column by exact C. exact S1.
Qed.

Lemma one_neq_zero : 1%Qc <> 0%Qc.
Proof. intros E. apply (f_equal this) in E. discriminate. Qed.

(** A raster of one colour comes out of the separable Gaussian blur
    unchanged under border modes other than BLACK, for sigmas other than
    0 and products truncate * sigma above -1: each of the two passes is
    normalised by the sum of the weights of its kernel. *)
Theorem GaussianBlurred_constant (this : HDRImage) (c : Color4)
  (sigmaX sigmaY : float) (mX mY : BorderMode) (truncateX truncateY : float) :
  constant_raster this c -> mX <> BLACK -> mY <> BLACK ->
  sigmaX <> 0%Qc -> sigmaY <> 0%Qc ->
  0 <= Qceiling (truncateX * sigmaX)%Qc -> 0 <= Qceiling (truncateY * sigmaY)%Qc ->
  exists out,
    GaussianBlurred exp this sigmaX sigmaY mX mY truncateX truncateY = Ok out
    /\ width out = width this /\ height out = height this
    /\ constant_raster out c.
Proof.
  intros Hc HmX HmY _ _ HoX HoY.
  destruct (horizontalGaussianKernel_sum sigmaX truncateX HoX) as [kx [Ex [Sx _]]].
  destruct (horizontalGaussianKernel_sum sigmaY truncateY HoY) as [ky [Ey [_ Sy]]].
  destruct (convolved_spec this kx mX mX) as [o1 [E1 [W1 [H1 D1]]]].
  assert (C1 : constant_raster o1 c).
  { intros x y R.
    assert (R' : in_range this x y = true).
    { apply in_range_iff in R. apply in_range_intro; lia. }
    rewrite D1 by exact R'. apply in_range_iff in R'.
    rewrite (convolution_sum_constant this kx mX mX c) by (assumption || lia).
    apply Color4_scale_div. rewrite Sx. exact one_neq_zero. }
  destruct (convolved_spec o1 (transpose ky) mY mY) as [o2 [E2 [W2 [H2 D2]]]].
  exists o2. split.
  - unfold GaussianBlurred, GaussianBlurredX, GaussianBlurredY.
    rewrite Ex. cbn [bind]. rewrite E1. cbn [bind]. rewrite Ey. cbn [bind]. exact E2.
  - split; [congruence|]. split; [congruence|].
    intros x y R.
    assert (R' : in_range o1 x y = true).
    { apply in_range_iff in R. apply in_range_intro; lia. }
    rewrite D2 by exact R'. apply in_range_iff in R'.
    rewrite (convolution_sum_constant o1 (transpose ky) mY mY c) by (assumption || lia).
    apply Color4_scale_div. rewrite Sy. exact one_neq_zero.
Qed.

End GaussianProperties.

Lemma exp_step_nonneg (t : float) : (0 <= exp_step t)%Qc.
Proof. unfold exp_step. destruct (Qc_eq_bool t 0%Qc); vm_compute; discriminate. Qed.


Lemma GaussianBlurred_constant_witness :
  exists out,
    GaussianBlurred exp_step (flat_image 3 2 (gray 7)) (of_int 2) 1%Qc MIRROR EDGE
      half (of_int 3) = Ok out
    /\ width out = 3 /\ height out = 2 /\ constant_raster out (gray 7).
Proof.
  apply (GaussianBlurred_constant exp_step exp_step_nonneg
           ltac:(vm_compute; reflexivity) (flat_image 3 2 (gray 7)) (gray 7)).
  - intros x y _. reflexivity.
  - discriminate.
  - discriminate.
  - intros E. apply (f_equal this) in E. vm_compute in E. discriminate.
  - intros E. apply (f_equal this) in E. vm_compute in E. discriminate.
  - vm_compute. discriminate.
  - vm_compute. discriminate.
Defined.

(** ** boxBlurredY *)

Lemma window_sum_y_slide (this : HDRImage) (leftSize rightSize : Z) (mY : BorderMode)
  (x y : Z) :
  0 <= leftSize -> 0 <= rightSize ->
  window_sum_y this leftSize rightSize mY x y
  = Color4_add
      (Color4_sub (window_sum_y this leftSize rightSize mY x (y - 1))
                  (pixel_val this x (y - 1 - leftSize) mY mY))
      (pixel_val this x (y + rightSize) mY mY).
Proof.
  intros Hl Hr. unfold window_sum_y.
  rewrite !(zrange_shift (fun v => pixel_val this x v mY mY)).
  replace (Z.to_nat (leftSize + rightSize + 1))
    with (S (Z.to_nat (leftSize + rightSize))) by lia.
  set (p := fun v => pixel_val this x v mY mY).
  rewrite (zrange_S (y - 1 + - leftSize)).
  rewrite (zrange_snoc (y + - leftSize)).
  rewrite map_app, Color4_sum_app. cbn [map Color4_sum fold_right].
  replace (y - 1 + - leftSize + 1) with (y + - leftSize) by lia.
  fold (Color4_sum (map p (zrange (y + - leftSize) (Z.to_nat (leftSize + rightSize))))).
  set (T := Color4_sum (map p (zrange (y + - leftSize) (Z.to_nat (leftSize + rightSize))))).
  replace (y + - leftSize + Z.of_nat (Z.to_nat (leftSize + rightSize)))
    with (y + rightSize) by lia.
  replace (y - 1 + - leftSize) with (y - 1 - leftSize) by lia.
  change (pixel_val this x (y - 1 - leftSize) mY mY) with (p (y - 1 - leftSize)).
  change (pixel_val this x (y + rightSize) mY mY) with (p (y + rightSize)).
  destruct T, (p (y - 1 - leftSize)), (p (y + rightSize)). color_ring.
Qed.

(** "fill up the accumulator": the first loop of a column. *)
Lemma box_seed_loop_y (this : HDRImage) (mY : BorderMode) (x : Z)
  (n : nat) (lo : Z) (im : HDRImage) :
  0 < width this -> 0 < height this ->
  0 < height im -> 0 <= x < width im ->
  exists im',
    for_loop n lo
      (fun dy imFilter =>
         acc <- at_ imFilter x 0 ;;
         p <- pixel this x dy mY mY ;;
         assign imFilter x 0 (Color4_add acc p)) im = Ok im' /\
    width im' = width im /\ height im' = height im /\
    forall x' y',
      data im' x' y'
      = if (x' =? x) && (y' =? 0)
        then Color4_add (data im x 0)
               (Color4_sum (map (fun v => pixel_val this x v mY mY) (zrange lo n)))
        else data im x' y'.
Proof.
  intros Hw Hh. revert lo im. induction n as [|n IH]; intros lo im Him Wim.
  - exists im. repeat split; try reflexivity. intros x' y'.
    cbn [zrange seq map Color4_sum fold_right].
    destruct (Z.eqb_spec x' x) as [->|]; destruct (Z.eqb_spec y' 0) as [->|];
      cbn [andb]; try reflexivity.
    destruct (data im x 0). color_ring.
  - cbn [for_loop]. rewrite at_ok by lia. cbn [bind].
    rewrite pixel_ok by assumption. cbn [bind].
    rewrite assign_ok by lia. cbn [bind].
    match goal with
    | |- context [for_loop n (lo + 1) _ ?t] => set (im1 := t)
    end.
    destruct (IH (lo + 1) im1) as [im' [E [W [H D]]]]; try (cbn; lia).
    exists im'. split; [exact E|]. split; [exact W|]. split; [exact H|].
    intros x' y'. rewrite D. subst im1. cbn [data].
    rewrite Z.eqb_refl. cbn [andb]. rewrite Z.eqb_refl. rewrite zrange_S.
    cbn [map Color4_sum fold_right].
    destruct ((x' =? x) && (y' =? 0)); [|reflexivity].
    symmetry. apply Color4_add_assoc.
Qed.

(** The second loop of a column: each cell from the one above it. *)
Lemma box_slide_loop_y (this : HDRImage) (leftSize rightSize : Z) (mY : BorderMode)
  (x : Z) (n : nat) (y0 : Z) (im : HDRImage) :
  0 <= leftSize -> 0 <= rightSize ->
  0 < width this -> 0 < height this ->
  1 <= y0 -> y0 + Z.of_nat n <= height im -> 0 <= x < width im ->
  data im x (y0 - 1) = window_sum_y this leftSize rightSize mY x (y0 - 1) ->
  exists im',
    for_loop n y0
      (fun y imFilter =>
         prev <- at_ imFilter x (y - 1) ;;
         old <- pixel this x (y - 1 - leftSize) mY mY ;;
         new <- pixel this x (y + rightSize) mY mY ;;
         assign imFilter x y (Color4_add (Color4_sub prev old) new)) im = Ok im' /\
    width im' = width im /\ height im' = height im /\
    forall x' y',
      data im' x' y'
      = if (x' =? x) && ((y0 <=? y') && (y' <? y0 + Z.of_nat n))
        then window_sum_y this leftSize rightSize mY x y'
        else data im x' y'.
Proof.
  intros Hl Hr Hw Hh. revert y0 im.
  induction n as [|n IH]; intros y0 im Hy0 Hn Hx Hprev.
  - exists im. repeat split; try reflexivity. intros x' y'.
    replace ((y0 <=? y') && (y' <? y0 + Z.of_nat 0)) with false.
    + rewrite andb_false_r. reflexivity.
    + symmetry. apply andb_false_iff.
      destruct (Z.leb_spec y0 y'); [right; apply Z.ltb_ge; lia | left; reflexivity].
  - cbn [for_loop]. rewrite at_ok by lia. cbn [bind].
    rewrite !pixel_ok by assumption. cbn [bind].
    rewrite assign_ok by lia. cbn [bind].
    rewrite Hprev, <- window_sum_y_slide by assumption.
    match goal with
    | |- context [for_loop n (y0 + 1) _ ?t] => set (im1 := t)
    end.
    destruct (IH (y0 + 1) im1) as [im' [E [W [H D]]]]; try (cbn; lia).
    + subst im1. cbn [data]. replace (y0 + 1 - 1) with y0 by lia.
      rewrite !Z.eqb_refl. reflexivity.
    + exists im'. split; [exact E|]. split; [exact W|]. split; [exact H|].
      intros x' y'. rewrite D. subst im1. cbn [data].
      destruct (Z.eqb_spec x' x) as [->|Nx]; cbn [andb]; [|reflexivity].
      destruct (Z.eqb_spec y' y0) as [->|Ny]; cbn [andb].
      * destruct (in_window_first y0 n) as [E1 E2]. rewrite E1, E2. reflexivity.
      * rewrite in_window_step by exact Ny. reflexivity.
Qed.

(** One column of the filter holds the window sums after its two loops. *)
Lemma boxBlurredY_col_spec (this : HDRImage) (leftSize rightSize : Z) (mY : BorderMode)
  (x : Z) (im : HDRImage) :
  0 <= leftSize -> 0 <= rightSize ->
  0 < width this -> 0 < height this ->
  height im = height this -> 0 <= x < width im ->
  exists im',
    boxBlurredY_col this leftSize rightSize mY x im = Ok im' /\
    width im' = width im /\ height im' = height im /\
    forall x' y',
      data im' x' y'
      = if (x' =? x) && ((0 <=? y') && (y' <? height this))
        then window_sum_y this leftSize rightSize mY x y'
        else data im x' y'.
Proof.
  intros Hl Hr Hw Hh Him Hx. unfold boxBlurredY_col.
  rewrite assign_ok by lia. cbn [bind]. unfold for_range.
  match goal with
  | |- context [for_loop _ (- leftSize) _ ?t] => set (im0 := t)
  end.
  destruct (box_seed_loop_y this mY x (Z.to_nat (rightSize + 1 - - leftSize))
              (- leftSize) im0 Hw Hh) as [im1 [E1 [W1 [H1 D1]]]];
    try (cbn; lia).
  rewrite E1. cbn [bind].
  assert (S0 : data im1 x 0 = window_sum_y this leftSize rightSize mY x 0).
  { rewrite D1. rewrite !Z.eqb_refl. cbn [andb]. subst im0. cbn [data].
    rewrite !Z.eqb_refl. cbn [andb]. rewrite Color4_add_zero_l.
    unfold window_sum_y.
    replace (Z.to_nat (rightSize + 1 - - leftSize))
      with (Z.to_nat (leftSize + rightSize + 1)) by lia.
    reflexivity. }
  assert (H1' : height im1 = height this) by (rewrite H1; exact Him).
  assert (W1' : width im1 = width im) by (rewrite W1; reflexivity).
  destruct (box_slide_loop_y this leftSize rightSize mY x (Z.to_nat (height this - 1))
              1 im1 Hl Hr Hw Hh) as [im2 [E2 [W2 [H2 D2]]]]; try lia.
  { exact S0. }
  rewrite E2. exists im2.
  split; [reflexivity|]. split; [lia|]. split; [lia|].
  intros x' y'. rewrite D2.
  destruct (Z.eqb_spec x' x) as [->|Nx]; cbn [andb].
  - destruct (Z.leb_spec 1 y'); cbn [andb].
    + replace (0 <=? y') with true by (symmetry; apply Z.leb_le; lia).
      cbn [andb].
      destruct (Z.ltb_spec y' (1 + Z.of_nat (Z.to_nat (height this - 1)))),
               (Z.ltb_spec y' (height this)); try reflexivity; try lia.
      rewrite D1. subst im0. cbn [data].
      replace (y' =? 0) with false by (symmetry; apply Z.eqb_neq; lia).
      rewrite !andb_false_r. reflexivity.
    + destruct (Z.eqb_spec y' 0) as [->|Ny].
      * cbn [Z.leb Z.compare andb].
        replace (0 <? height this) with true by (symmetry; apply Z.ltb_lt; lia).
        exact S0.
      * replace (0 <=? y') with false by (symmetry; apply Z.leb_gt; lia).
        cbn [andb]. rewrite D1. subst im0. cbn [data].
        replace (y' =? 0) with false by (symmetry; apply Z.eqb_neq; lia).
        rewrite !andb_false_r. reflexivity.
  - rewrite D1. subst im0. cbn [data].
    replace (x' =? x) with false by (symmetry; apply Z.eqb_neq; lia).
    reflexivity.
Qed.

Lemma boxBlurredY_spec (this : HDRImage) (leftSize rightSize : Z) (mY : BorderMode) :
  0 <= leftSize -> 0 <= rightSize -> 0 < width this -> 0 < height this ->
  exists out,
    boxBlurredY this leftSize rightSize mY = Ok out /\
    width out = width this /\ height out = height this /\
    forall x y, in_range this x y = true ->
      data out x y
      = Color4_div (window_sum_y this leftSize rightSize mY x y)
                   (of_int (leftSize + rightSize + 1)).
Proof.
  intros Hl Hr Hw Hh. unfold boxBlurredY, for_range.
  destruct (for_loop_cols
              (boxBlurredY_col this leftSize rightSize mY)
              (fun x y _ => window_sum_y this leftSize rightSize mY x y)
              0 (height this)
              (Z.to_nat (width (new_image (width this) (height this)) - 0)) 0
              (new_image (width this) (height this)))
    as [im [E [W [H D]]]].
  - intros x tb1 Hx W1 H1. cbn [new_image width height] in Hx, W1, H1.
    destruct (boxBlurredY_col_spec this leftSize rightSize mY x tb1 Hl Hr Hw Hh H1)
      as [tb2 [E2 [W2 [H2 D2]]]]; [lia|].
    exists tb2. split; [exact E2|]. split; [exact W2|]. split; [exact H2|].
    intros x' y'. rewrite D2.
    destruct (Z.eqb_spec x' x) as [->|Nx]; reflexivity.
  - rewrite E. cbn [bind]. eexists. split; [reflexivity|].
    cbn [image_mul width height data].
    split; [exact W|]. split; [exact H|].
    intros x y R. pose proof R as R'. apply in_range_iff in R'.
    rewrite D. cbn [new_image width].
    replace ((0 <=? x) && (x <? 0 + Z.of_nat (Z.to_nat (width this - 0)))) with true
      by (symmetry; rewrite andb_true_iff, Z.leb_le, Z.ltb_lt; lia).
    replace ((0 <=? y) && (y <? height this)) with true
      by (symmetry; rewrite andb_true_iff, Z.leb_le, Z.ltb_lt; lia).
    cbn [andb].
    destruct (window_sum_y this leftSize rightSize mY x y). color_ring.
Qed.



Lemma Color4_sum_const (c : Color4) (l : list Z) :
  Color4_sum (map (fun _ => c) l) = Color4_scale c (of_int (Z.of_nat (length l))).
Proof.
  induction l as [|i l IH].
  - cbn [map length Color4_sum fold_right]. change (of_int (Z.of_nat 0)) with 0%Qc.
    destruct c. color_ring.
  - cbn [map length Color4_sum fold_right].
    fold (Color4_sum (map (fun _ : Z => c) l)). rewrite IH.
    replace (Z.of_nat (S (length l))) with (1 + Z.of_nat (length l)) by lia.
    rewrite <- of_int_add. change (of_int 1) with 1%Qc.
    destruct c. color_ring.
Qed.

Lemma zrange_length (lo : Z) (n : nat) : length (zrange lo n) = n.
Proof. unfold zrange. rewrite length_map, length_seq. reflexivity. Qed.

Lemma window_constant (c : Color4) (p : Z -> Color4) (lo : Z) (n : nat) :
  (forall v, p v = c) -> n <> 0%nat ->
  Color4_div (Color4_sum (map p (zrange lo n))) (of_int (Z.of_nat n)) = c.
Proof.
  intros Hp Hn.
  rewrite (map_ext p (fun _ => c)) by exact Hp.
  rewrite Color4_sum_const, zrange_length.
  apply Color4_scale_div. apply of_int_nonzero. lia.
Qed.

(** Under a border mode other than BLACK, boxBlurredX and boxBlurredY
    return a raster of one colour as it is, whatever the sizes of the
    window (not negative). *)
Theorem boxBlurred_constant (this : HDRImage) (c : Color4) (leftSize rightSize : Z)
  (m : BorderMode) :
  constant_raster this c -> m <> BLACK ->
  0 <= leftSize -> 0 <= rightSize -> 0 < width this -> 0 < height this ->
  (exists out, boxBlurredX this leftSize rightSize m = Ok out /\
     width out = width this /\ height out = height this /\ constant_raster out c)
  /\
  (exists out, boxBlurredY this leftSize rightSize m = Ok out /\
     width out = width this /\ height out = height this /\ constant_raster out c).
Proof.
  intros Hc Hm Hl Hr Hw Hh. split.
  - destruct (boxBlurredX_spec this leftSize rightSize m Hl Hr Hw Hh)
      as [out [E [W [H D]]]].
    exists out. split; [exact E|]. split; [exact W|]. split; [exact H|].
    intros x y R.
    assert (R' : in_range this x y = true).
    { apply in_range_iff in R. apply in_range_intro; lia. }
    rewrite D by exact R'. unfold window_sum.
    replace (leftSize + rightSize + 1)
      with (Z.of_nat (Z.to_nat (leftSize + rightSize + 1))) at 2 by lia.
    apply (window_constant c (fun dx => pixel_val this (x + dx) y m m)); [|lia].
    intros v. apply pixel_val_constant; assumption.
  - destruct (boxBlurredY_spec this leftSize rightSize m Hl Hr Hw Hh)
      as [out [E [W [H D]]]].
    exists out. split; [exact E|]. split; [exact W|]. split; [exact H|].
    intros x y R.
    assert (R' : in_range this x y = true).
    { apply in_range_iff in R. apply in_range_intro; lia. }
    rewrite D by exact R'. unfold window_sum_y.
    replace (leftSize + rightSize + 1)
      with (Z.of_nat (Z.to_nat (leftSize + rightSize + 1))) at 2 by lia.
    apply (window_constant c (fun dy => pixel_val this x (y + dy) m m)); [|lia].
    intros v. apply pixel_val_constant; assumption.
Qed.

Lemma boxBlurred_constant_witness :
  (exists out, boxBlurredX (flat_image 3 2 (gray 7)) 2 1 MIRROR = Ok out /\
     width out = 3 /\ height out = 2 /\ constant_raster out (gray 7))
  /\
  (exists out, boxBlurredY (flat_image 3 2 (gray 7)) 2 1 MIRROR = Ok out /\
     width out = 3 /\ height out = 2 /\ constant_raster out (gray 7)).
Proof.
  apply (boxBlurred_constant (flat_image 3 2 (gray 7)) (gray 7) 2 1 MIRROR).
  - intros x y _. reflexivity.
  - discriminate.
  - lia.
  - lia.
  - reflexivity.
  - reflexivity.
Defined.

(** A window of the pixel alone (leftSize = rightSize = 0) makes
    boxBlurredX and boxBlurredY return the pixels of the raster, under
    every border mode. *)
Theorem boxBlurred_unit_window (this : HDRImage) (m : BorderMode) :
  0 < width this -> 0 < height this ->
  (exists out, boxBlurredX this 0 0 m = Ok out /\
     width out = width this /\ height out = height this /\
     forall x y, in_range this x y = true -> data out x y = data this x y)
  /\
  (exists out, boxBlurredY this 0 0 m = Ok out /\
     width out = width this /\ height out = height this /\
     forall x y, in_range this x y = true -> data out x y = data this x y).
Proof.
  intros Hw Hh. split.
  - destruct (boxBlurredX_spec this 0 0 m ltac:(lia) ltac:(lia) Hw Hh)
      as [out [E [W [H D]]]].
    exists out. split; [exact E|]. split; [exact W|]. split; [exact H|].
    intros x y R. rewrite D by exact R. unfold window_sum.
    change (zrange (- 0) (Z.to_nat (0 + 0 + 1))) with [0 + 0].
    cbn [map Color4_sum fold_right]. replace (x + (0 + 0)) with x by lia.
    rewrite pixel_val_in_range by exact R.
    change (of_int (0 + 0 + 1)) with (of_int (1 * 1)). rewrite Color4_div_1.
    destruct (data this x y). color_ring.
  - destruct (boxBlurredY_spec this 0 0 m ltac:(lia) ltac:(lia) Hw Hh)
      as [out [E [W [H D]]]].
    exists out. split; [exact E|]. split; [exact W|]. split; [exact H|].
    intros x y R. rewrite D by exact R. unfold window_sum_y.
    change (zrange (- 0) (Z.to_nat (0 + 0 + 1))) with [0 + 0].
    cbn [map Color4_sum fold_right]. replace (y + (0 + 0)) with y by lia.
    rewrite pixel_val_in_range by exact R.
    change (of_int (0 + 0 + 1)) with (of_int (1 * 1)). rewrite Color4_div_1.
    destruct (data this x y). color_ring.
Qed.

Lemma boxBlurred_unit_window_witness :
  (exists out, boxBlurredX ramp5 0 0 BLACK = Ok out /\
     width out = 5 /\ height out = 1 /\
     forall x y, in_range ramp5 x y = true -> data out x y = data ramp5 x y)
  /\
  (exists out, boxBlurredY ramp5 0 0 BLACK = Ok out /\
     width out = 5 /\ height out = 1 /\
     forall x y, in_range ramp5 x y = true -> data out x y = data ramp5 x y).
Proof.
  apply (boxBlurred_unit_window ramp5 BLACK); reflexivity.
Defined.

(** ** The two passes of a box blur *)

Lemma pixel_val_wrapped (img : HDRImage) (x y p q : Z) (mX mY : BorderMode) :
  wrapCoord x (width img) mX = Ok p -> wrapCoord y (height img) mY = Ok q ->
  -1 <= p < width img -> -1 <= q < height img ->
  pixel_val img x y mX mY
  = if (p <? 0) || (q <? 0) then g_blackPixel else data img p q.
Proof.
  intros Ex Ey Bp Bq. unfold pixel_val, pixel. rewrite Ex, Ey. cbn [bind].
  destruct ((p <? 0) || (q <? 0)) eqn:E; [reflexivity|].
  apply orb_false_iff in E. destruct E as [E1 E2].
  apply Z.ltb_ge in E1. apply Z.ltb_ge in E2.
  rewrite at_ok by lia. reflexivity.
Qed.












(** ** Canvas resizing, there and back *)

Lemma resizedCanvas_pixels (this : HDRImage) (newW newH : Z)
  (anchor : CanvasAnchor) (bgColor : Color4) :
  0 <= width this -> 0 <= height this -> 0 <= newW -> 0 <= newH ->
  exists out,
    resizedCanvas this newW newH anchor bgColor = Ok out /\
    width out = newW /\ height out = newH /\
    forall x y, 0 <= x < newW -> 0 <= y < newH ->
      data out x y
      = if in_range this (x - tlDst_x anchor newW (width this))
                         (y - tlDst_y anchor newH (height this))
        then data this (x - tlDst_x anchor newW (width this))
                       (y - tlDst_y anchor newH (height this))
        else bgColor.
Proof.
  intros Hw Hh HnW HnH.
  pose proof (tlDst_x_bounds anchor newW (width this)) as [Bx1 Bx2].
  pose proof (tlDst_y_bounds anchor newH (height this)) as [By1 By2].
  set (ox := tlDst_x anchor newW (width this)) in *.
  set (oy := tlDst_y anchor newH (height this)) in *.
  unfold resizedCanvas, Constant.
  rewrite (proj2 (andb_true_iff _ _)) by (split; apply Z.leb_le; assumption).
  cbn [bind]. fold ox oy. rewrite !clip_tl_eq.
  unfold block_copy, block_fits. cbn [width height data].
  match goal with
  | |- context [if ?c then _ else _] => assert (Hfit : c = true)
  end.
  { rewrite !andb_true_iff, !Z.leb_le. lia. }
  rewrite Hfit. eexists. split; [reflexivity|].
  cbn [width height data]. split; [reflexivity|]. split; [reflexivity|].
  intros x y Hx Hy.
  assert (Hiff : in_range this (x - ox) (y - oy) = true <->
                 Z.max 0 ox <= x < Z.max 0 ox + Z.min (width this) newW /\
                 Z.max 0 oy <= y < Z.max 0 oy + Z.min (height this) newH).
  { rewrite in_range_iff. lia. }
  rewrite <- andb_assoc.
  destruct (in_range this (x - ox) (y - oy)) eqn:R.
  - destruct Hiff as [Hiff _]. specialize (Hiff eq_refl).
    rewrite (proj2 (range_bool_iff _ _ _)) by lia.
    rewrite (proj2 (range_bool_iff _ _ _)) by lia.
    cbn [andb]. f_equal; lia.
  - match goal with
    | |- (if ?c then _ else _) = _ => destruct c eqn:C
    end; [|reflexivity].
    apply andb_true_iff in C. destruct C as [C1 C2].
    apply range_bool_iff in C1. apply range_bool_iff in C2.
    destruct Hiff as [_ Hiff].
    specialize (Hiff (conj C1 C2)). discriminate Hiff.
Qed.

Lemma tlDst_x_opp (anchor : CanvasAnchor) (u v : Z) :
  tlDst_x anchor u v = - tlDst_x anchor v u.
Proof.
  destruct anchor; cbn [tlDst_x]; try lia;
    replace (u - v) with (- (v - u)) by lia; apply Z.quot_opp_l; lia.
Qed.

Lemma tlDst_y_opp (anchor : CanvasAnchor) (u v : Z) :
  tlDst_y anchor u v = - tlDst_y anchor v u.
Proof.
  destruct anchor; cbn [tlDst_y]; try lia;
    replace (u - v) with (- (v - u)) by lia; apply Z.quot_opp_l; lia.
Qed.

(** Enlarging the canvas and cutting it back to the old size with the
    same anchor returns the pixels of the raster, for each of the nine
    anchors and whatever the two background colours: the offset of a
    CENTER anchor is truncated towards zero, so that the offset of the
    way back is the opposite of the offset of the way there. *)
Theorem resizedCanvas_round_trip (this : HDRImage) (newW newH : Z)
  (anchor : CanvasAnchor) (bg1 bg2 : Color4) :
  0 <= width this -> 0 <= height this ->
  width this <= newW -> height this <= newH ->
  exists big out,
    resizedCanvas this newW newH anchor bg1 = Ok big /\
    resizedCanvas big (width this) (height this) anchor bg2 = Ok out /\
    width out = width this /\ height out = height this /\
    forall x y, in_range this x y = true -> data out x y = data this x y.
Proof.
  intros Hw Hh HW HH.
  destruct (resizedCanvas_pixels this newW newH anchor bg1)
    as [big [E1 [W1 [H1 D1]]]]; try lia.
  destruct (resizedCanvas_pixels big (width this) (height this) anchor bg2)
    as [out [E2 [W2 [H2 D2]]]]; try lia.
  exists big, out. split; [exact E1|]. split; [exact E2|].
  split; [exact W2|]. split; [exact H2|].
  intros x y R. pose proof R as R'. apply in_range_iff in R'. destruct R' as [Hx Hy].
  rewrite D2 by lia. rewrite W1, H1.
  rewrite (tlDst_x_opp anchor (width this) newW).
  rewrite (tlDst_y_opp anchor (height this) newH).
  pose proof (tlDst_x_bounds anchor newW (width this)) as [Bx _].
  pose proof (tlDst_y_bounds anchor newH (height this)) as [By _].
  set (ox := tlDst_x anchor newW (width this)) in *.
  set (oy := tlDst_y anchor newH (height this)) in *.
  rewrite in_range_intro by lia.
  rewrite D1 by lia. fold ox oy.
  replace (x - - ox - ox) with x by lia.
  replace (y - - oy - oy) with y by lia.
  rewrite R. reflexivity.
Qed.

Lemma resizedCanvas_round_trip_witness :
  exists big out,
    resizedCanvas ramp5 8 4 MIDDLE_CENTER (gray 0) = Ok big /\
    resizedCanvas big 5 1 MIDDLE_CENTER (gray 9) = Ok out /\
    width out = 5 /\ height out = 1 /\
    forall x y, in_range ramp5 x y = true -> data out x y = data ramp5 x y.
Proof.
  apply (resizedCanvas_round_trip ramp5 8 4 MIDDLE_CENTER (gray 0) (gray 9));
    cbn; lia.
Defined.

(** ** The border pass of the demosaicing *)

Lemma for_loop_id {S : Type} (n : nat) (lo : Z) (body : Z -> S -> result S) (s : S) :
  (forall i s', lo <= i < lo + Z.of_nat n -> body i s' = Ok s') ->
  for_loop n lo body s = Ok s.
Proof.
  revert lo. induction n as [|n IH]; intros lo Hb; [reflexivity|].
  cbn [for_loop]. rewrite Hb by lia. cbn [bind].
  apply IH. intros i s' Hi. apply Hb. lia.
Qed.

Lemma for_range_skip {S : Type} (lo hi : Z) (body : Z -> S -> result S) (s : S) :
  hi <= lo -> for_range lo hi body s = Ok s.
Proof.
  intros H. unfold for_range. replace (Z.to_nat (hi - lo)) with 0%nat by lia.
  reflexivity.
Qed.

Lemma to_size_t_minus_1 : to_size_t (0 - 1) = 18446744073709551615.
Proof. reflexivity. Qed.

Lemma bayerColor_cases (x y col : Z) :
  0 <= x -> 0 <= y -> bayerColor x y = Ok col -> col = 0 \/ col = 1 \/ col = 2.
Proof.
  intros Hx Hy E. destruct (bayerColor_ok x y Hx Hy) as [c [Ec Hc]].
  rewrite Ec in E. injection E as <-. lia.
Qed.

(** In the first column and in the first row the window loops of a step
    do not run: their counters start at the largest [size_t]. *)
Lemma border_pixel_edge (this : HDRImage) (x y col : Z) :
  0 <= x < width this -> 0 <= y < height this ->
  width this <= 2147483647 -> height this <= 2147483647 ->
  x = 0 \/ y = 0 -> bayerColor x y = Ok col ->
  exists out,
    border_pixel this x y = Ok out /\
    data out x y = ones_but (data this x y) col.
Proof.
  intros Hx Hy Wmax Hmax Hedge Ecol. unfold border_pixel.
  match goal with
  | |- context [bind (for_range ?lo ?hi ?body ?s) _] =>
      assert (E : for_range lo hi body s = Ok s)
  end.
  { destruct Hedge as [-> | ->].
    - unfold for_range at 1. apply for_loop_id. intros ys acc _.
      apply for_range_skip. rewrite to_size_t_minus_1.
      rewrite to_size_t_small by lia. lia.
    - apply for_range_skip. rewrite to_size_t_minus_1.
      rewrite to_size_t_small by lia. lia. }
  rewrite E. cbn [bind]. rewrite Ecol. cbn [bind].
  unfold for_range. change (Z.to_nat (3 - 0)) with 3%nat. cbn [for_loop].
  destruct (bayerColor_cases x y col ltac:(lia) ltac:(lia) Ecol) as [-> | [-> | ->]];
    cbn [Z.eqb negb vec3_get bind Z.add Pos.add Pos.succ Pos.eqb];
    repeat (first [ rewrite at_ok by (cbn [width height]; lia)
                  | rewrite assign_ok by (cbn [width height]; lia) ];
            cbn [bind set_channel Z.eqb Pos.eqb]);
    (eexists; split; [reflexivity|]);
    cbn [data]; rewrite !Z.eqb_refl; cbn [andb r g b a];
    unfold ones_but; cbn [Z.eqb Pos.eqb]; reflexivity.
Qed.

(** A step of the border pass keeps, at its pixel, alpha and the channel
    the Bayer pattern samples there. *)
Lemma border_pixel_native (this : HDRImage) (x y col : Z) :
  0 <= x < width this -> 0 <= y < height this ->
  width this <= 2147483647 -> height this <= 2147483647 ->
  bayerColor x y = Ok col ->
  exists out,
    border_pixel this x y = Ok out /\
    a (data out x y) = a (data this x y) /\
    channel (data out x y) col = channel (data this x y) col.
Proof.
  intros Hx Hy Wmax Hmax Ecol.
  destruct (border_pixel_frame this x y Hx Hy Wmax Hmax) as [out [E _]].
  exists out. split; [exact E|].
  revert E. unfold border_pixel.
  match goal with
  | |- context [bind (for_range ?lo ?hi ?body ?s) _] =>
      destruct (for_range lo hi body s) as [[sum count]| |]
  end; cbn [bind]; try discriminate.
  rewrite Ecol. cbn [bind].
  pose proof (bayerColor_cases x y col ltac:(lia) ltac:(lia) Ecol) as Hcol.
  match goal with
  | |- for_range 0 3 ?body this = Ok out -> _ =>
      destruct (for_range_inv
                  (fun tb => width tb = width this /\ height tb = height this /\
                             a (data tb x y) = a (data this x y) /\
                             channel (data tb x y) col = channel (data this x y) col)
                  0 3 body this) as [out' [E' [_ [_ [Ha Hc]]]]]
  end.
  { repeat split; reflexivity. }
  { intros c tb Hc [W [H [Ia Ic]]].
    destruct (Z.eqb_spec col c) as [Heq | Hne]; cbn [negb];
      [exists tb; repeat split; assumption|].
    destruct (vec3_get_ok count c ltac:(lia)) as [n En]. rewrite En. cbn [bind].
    destruct (vec3_get_ok sum c ltac:(lia)) as [s Es]. rewrite Es. cbn [bind].
    rewrite at_ok by lia. cbn [bind].
    rewrite set_channel_ok by lia. cbn [bind].
    rewrite assign_ok by lia.
    eexists. split; [reflexivity|]. cbn [width height data].
    rewrite !Z.eqb_refl. cbn [andb].
    split; [exact W|]. split; [exact H|]. split.
    - rewrite <- Ia.
      assert (Cc : c = 0 \/ c = 1 \/ c = 2) by lia.
      destruct Cc as [-> | [-> | ->]]; reflexivity.
    - rewrite channel_set_other by lia. exact Ic. }
  intros E. rewrite E' in E. injection E as <-. split; assumption.
Qed.

Lemma border_skip_bounds (this : HDRImage) (x y : Z) :
  6 <= width this <= 2147483647 -> 0 <= x < width this ->
  0 <= (if (x =? 3) && (3 <=? y) && (y <? to_size_t (height this - 3))
        then to_size_t (width this - 3) else x) < width this.
Proof.
  intros Hw Hx.
  destruct ((x =? 3) && (3 <=? y) && (y <? to_size_t (height this - 3)));
    [rewrite to_size_t_small by lia|]; lia.
Qed.

Lemma border_row_samples (fuel : nat) (y x : Z) (this out : HDRImage) :
  6 <= width this <= 2147483647 -> height this <= 2147483647 ->
  0 <= y < height this -> 0 <= x <= width this ->
  border_row fuel 3 y x this = Some (Ok out) ->
  width out = width this /\ height out = height this /\ keeps_samples this out.
Proof.
  revert x this. induction fuel as [|fuel IH]; intros x this Hw Hh Hy Hx E;
    [discriminate|].
  cbn [border_row] in E. rewrite (to_size_t_small (width this)) in E by lia.
  destruct (Z.ltb_spec x (width this)) as [Lx | Lx].
  2:{ injection E as <-. split; [reflexivity|]. split; [reflexivity|].
      intros x' y' col _ _. split; reflexivity. }
  pose proof (border_skip_bounds this x y Hw ltac:(lia)) as Hxe.
  set (xe := if (x =? 3) && (3 <=? y) && (y <? to_size_t (height this - 3))
             then to_size_t (width this - 3) else x) in *.
  destruct (border_pixel_frame this xe y) as [out1 [E1 [W1 [H1 D1]]]]; try lia.
  rewrite E1 in E. rewrite to_size_t_small in E by lia.
  destruct (IH (xe + 1) out1) as [W [H K]]; try lia; [exact E|].
  split; [lia|]. split; [lia|].
  intros x' y' col R Bc.
  assert (R1 : in_range out1 x' y' = true).
  { apply in_range_iff in R. apply in_range_intro; lia. }
  destruct (K x' y' col R1 Bc) as [Ka Kc]. rewrite Ka, Kc.
  destruct (Z.eq_dec x' xe) as [-> | Nx]; [destruct (Z.eq_dec y' y) as [-> | Ny]|].
  - destruct (border_pixel_native this xe y col) as [out1' [E1' [Na Nc]]]; try lia;
      [exact Bc|].
    rewrite E1 in E1'. injection E1' as <-. split; assumption.
  - rewrite D1 by (right; exact Ny). split; reflexivity.
  - rewrite D1 by (left; exact Nx). split; reflexivity.
Qed.

Lemma border_rows_samples (fuel n : nat) (y : Z) (this out : HDRImage) :
  6 <= width this <= 2147483647 -> height this <= 2147483647 ->
  0 <= y -> y + Z.of_nat n <= height this ->
  border_rows fuel n 3 y this = Some (Ok out) ->
  width out = width this /\ height out = height this /\ keeps_samples this out.
Proof.
  revert y this. induction n as [|n IH]; intros y this Hw Hh Hy Hn E.
  - cbn [border_rows] in E. injection E as <-.
    split; [reflexivity|]. split; [reflexivity|].
    intros x' y' col _ _. split; reflexivity.
  - cbn [border_rows] in E.
    destruct (border_row fuel 3 y 0 this) as [[out1| |]|] eqn:E1; try discriminate.
    destruct (border_row_samples fuel y 0 this out1) as [W1 [H1 K1]]; try lia;
      [exact E1|].
    destruct (IH (y + 1) out1) as [W [H K]]; try lia; [exact E|].
    split; [lia|]. split; [lia|].
    intros x' y' col R Bc.
    assert (R1 : in_range out1 x' y' = true).
    { apply in_range_iff in R. apply in_range_intro; lia. }
    destruct (K x' y' col R1 Bc) as [Ka Kc].
    destruct (K1 x' y' col R Bc) as [Ka1 Kc1].
    split; congruence.
Qed.

(** demosaicBorder(3) on a raster at least 6 pixels wide keeps at every
    pixel its alpha and its value in the channel that the Bayer pattern
    samples there (bayerColor); only the two other channels are filled
    in. *)
Theorem demosaicBorder_keeps_samples (fuel : nat) (this : HDRImage) :
  6 <= width this <= 2147483647 -> 0 <= height this <= 2147483647 ->
  (Z.to_nat (width this) < fuel)%nat ->
  exists out,
    demosaicBorder fuel 3 this = Some (Ok out) /\
    width out = width this /\ height out = height this /\
    forall x y col, in_range this x y = true -> bayerColor x y = Ok col ->
      a (data out x y) = a (data this x y)
      /\ channel (data out x y) col = channel (data this x y) col.
Proof.
  intros Hw Hh Hf.
  destruct (demosaicBorder_spec fuel this Hw Hh Hf) as [out [E [W [H _]]]].
  exists out. split; [exact E|]. split; [exact W|]. split; [exact H|].
  unfold demosaicBorder in E.
  destruct (border_rows_samples fuel (Z.to_nat (height this)) 0 this out)
    as [_ [_ K]]; try lia; [exact E|].
  exact K.
Qed.

Lemma demosaicBorder_keeps_samples_witness :
  exists out,
    demosaicBorder 7 3 ramp6 = Some (Ok out) /\
    width out = 6 /\ height out = 1 /\
    forall x y col, in_range ramp6 x y = true -> bayerColor x y = Ok col ->
      a (data out x y) = a (data ramp6 x y)
      /\ channel (data out x y) col = channel (data ramp6 x y) col.
Proof.
  apply (demosaicBorder_keeps_samples 7 ramp6); cbn; lia.
Defined.

Lemma border_row_edge (fuel : nat) (y x : Z) (this out : HDRImage) (x0 col : Z) :
  6 <= width this <= 2147483647 -> height this <= 2147483647 ->
  0 <= y < height this -> 0 <= x ->
  (Z.to_nat (width this - x) < fuel)%nat ->
  border_row fuel 3 y x this = Some (Ok out) ->
  x <= x0 < width this -> x0 = 0 \/ y = 0 -> bayerColor x0 y = Ok col ->
  data out x0 y = ones_but (data this x0 y) col.
Proof.
  revert x this. induction fuel as [|fuel IH];
    intros x this Hw Hh Hy Hx Hf E Hx0 Hedge Bc; [discriminate|].
  cbn [border_row] in E. rewrite (to_size_t_small (width this)) in E by lia.
  replace (x <? width this) with true in E by (symmetry; apply Z.ltb_lt; lia).
  assert (Hcond : (x =? 3) && (3 <=? y) && (y <? to_size_t (height this - 3)) = false).
  { destruct Hedge as [-> | ->].
    - replace x with 0 by lia. reflexivity.
    - destruct (x =? 3); reflexivity. }
  rewrite Hcond in E.
  destruct (border_pixel_frame this x y) as [out1 [E1 [W1 [H1 D1]]]]; try lia.
  rewrite E1 in E. rewrite to_size_t_small in E by lia.
  destruct (Z.eq_dec x0 x) as [-> | Nx].
  - destruct (border_pixel_edge this x y col) as [out1' [E1' V]]; try lia;
      try assumption.
    rewrite E1 in E1'. injection E1' as <-.
    destruct (border_row_spec fuel y (x + 1) out1) as [out' [E' [_ [_ D']]]]; try lia.
    rewrite E in E'. injection E' as <-.
    rewrite D' by lia. exact V.
  - rewrite <- (D1 x0 y) by (left; exact Nx).
    apply (IH (x + 1) out1); try lia; try assumption.
Qed.

Lemma border_rows_frame (fuel n : nat) (y : Z) (this out : HDRImage) :
  6 <= width this <= 2147483647 -> height this <= 2147483647 ->
  0 <= y -> y + Z.of_nat n <= height this ->
  (Z.to_nat (width this) < fuel)%nat ->
  border_rows fuel n 3 y this = Some (Ok out) ->
  forall x' y', y' < y -> data out x' y' = data this x' y'.
Proof.
  revert y this. induction n as [|n IH]; intros y this Hw Hh Hy Hn Hf E x' y' Hy'.
  - cbn [border_rows] in E. injection E as <-. reflexivity.
  - cbn [border_rows] in E.
    destruct (border_row_spec fuel y 0 this) as [out1 [E1 [W1 [H1 D1]]]]; try lia.
    rewrite E1 in E.
    rewrite (IH (y + 1) out1) by (try lia; exact E).
    apply D1. left. lia.
Qed.

Lemma border_rows_edge (fuel n : nat) (y : Z) (this out : HDRImage) (x0 y0 col : Z) :
  6 <= width this <= 2147483647 -> height this <= 2147483647 ->
  0 <= y -> y + Z.of_nat n <= height this ->
  (Z.to_nat (width this) < fuel)%nat ->
  border_rows fuel n 3 y this = Some (Ok out) ->
  y <= y0 < y + Z.of_nat n -> 0 <= x0 < width this ->
  x0 = 0 \/ y0 = 0 -> bayerColor x0 y0 = Ok col ->
  data out x0 y0 = ones_but (data this x0 y0) col.
Proof.
  revert y this. induction n as [|n IH];
    intros y this Hw Hh Hy Hn Hf E Hy0 Hx0 Hedge Bc; [lia|].
  cbn [border_rows] in E.
  destruct (border_row_spec fuel y 0 this) as [out1 [E1 [W1 [H1 D1]]]]; try lia.
  rewrite E1 in E.
  destruct (Z.eq_dec y0 y) as [-> | Ny].
  - rewrite (border_rows_frame fuel n (y + 1) out1 out) by (try lia; exact E).
    apply (border_row_edge fuel y 0 this out1 x0 col); try lia; assumption.
  - rewrite <- (D1 x0 y0) by (left; exact Ny).
    apply (IH (y + 1) out1); try lia; assumption.
Qed.

(** In the first row and in the first column, demosaicBorder(3) writes 1
    to the two channels that the Bayer pattern does not sample,
    whatever the neighbours hold: the counters of the window loops are
    [size_t], start at the largest value there, and the loops end
    before their first pass, so that no neighbour is counted. *)
Theorem demosaicBorder_first_row_column (fuel : nat) (this : HDRImage)
  (x y col : Z) :
  6 <= width this <= 2147483647 -> 0 <= height this <= 2147483647 ->
  (Z.to_nat (width this) < fuel)%nat ->
  in_range this x y = true -> x = 0 \/ y = 0 -> bayerColor x y = Ok col ->
  exists out,
    demosaicBorder fuel 3 this = Some (Ok out) /\
    data out x y = ones_but (data this x y) col.
Proof.
  intros Hw Hh Hf R Hedge Bc. apply in_range_iff in R.
  destruct (demosaicBorder_spec fuel this Hw Hh Hf) as [out [E _]].
  exists out. split; [exact E|].
  unfold demosaicBorder in E.
  apply (border_rows_edge fuel (Z.to_nat (height this)) 0 this out x y col);
    try lia; assumption.
Qed.

Lemma demosaicBorder_first_row_column_witness :
  exists out,
    demosaicBorder 7 3 ramp6 = Some (Ok out) /\
    data out 2 0 = ones_but (data ramp6 2 0) 0.
Proof.
  apply (demosaicBorder_first_row_column 7 ramp6 2 0 0); cbn; try lia; auto.
Defined.

(** ** The Bayer mosaic *)

Lemma mod2_cases (v : Z) : v mod 2 = 0 \/ v mod 2 = 1.
Proof. pose proof (Z.mod_pos_bound v 2 ltac:(lia)). lia. Qed.

Lemma bayerMosaic_pixel (redOffset : Z * Z) (x y : Z) (p : Color4) :
  (row <- arr_at mosaic ((y - snd redOffset) mod 2) ;;
   m <- arr_at row ((x - fst redOffset) mod 2) ;;
   Ok (Color4_mul p m))
  = Ok (only_channel p (mosaic_channel redOffset x y)).
Proof.
  unfold mosaic_channel.
  destruct (mod2_cases (y - snd redOffset)) as [-> | ->],
           (mod2_cases (x - fst redOffset)) as [-> | ->];
    unfold arr_at; cbn [Z.ltb Z.compare Z.to_nat];
    change (Pos.to_nat 1) with 1%nat;
    cbn [mosaic nth_error bind Z.eqb Pos.eqb andb];
    f_equal; destruct p; unfold only_channel, Color4_mul, Color4_map2;
    cbn [r g b a Z.eqb Pos.eqb]; f_equal; unfold float in *; ring.
Qed.

Lemma bayerMosaic_spec (this : HDRImage) (redOffset : Z * Z) :
  exists out,
    bayerMosaic this redOffset = Ok out /\
    width out = width this /\ height out = height this /\
    forall x y, in_range this x y = true ->
      data out x y = only_channel (data this x y) (mosaic_channel redOffset x y).
Proof.
  unfold bayerMosaic, for_range.
  destruct (for_loop_rows
              (fun y this0 =>
                 r_ <- imod (y - snd redOffset) 2 ;;
                 for_loop (Z.to_nat (width this0 - 0)) 0
                   (fun x this1 =>
                      c <- imod (x - fst redOffset) 2 ;;
                      row <- arr_at mosaic r_ ;;
                      m <- arr_at row c ;;
                      p <- at_ this1 x y ;;
                      assign this1 x y (Color4_mul p m))
                   this0)
              (fun x y old => only_channel old (mosaic_channel redOffset x y))
              0 (width this) (Z.to_nat (height this - 0)) 0 this)
    as [out [E [W [H D]]]].
  - intros y tb1 Hy W1 H1. cbn [imod Z.eqb bind]. rewrite W1.
    destruct (for_loop_row
                (fun x this1 =>
                   c <- imod (x - fst redOffset) 2 ;;
                   row <- arr_at mosaic ((y - snd redOffset) mod 2) ;;
                   m <- arr_at row c ;;
                   p <- at_ this1 x y ;;
                   assign this1 x y (Color4_mul p m))
                (fun x old => only_channel old (mosaic_channel redOffset x y))
                y (Z.to_nat (width this - 0)) 0 tb1)
      as [tb2 [E2 [W2 [H2 D2]]]].
    + intros x Hx. lia.
    + intros x tb3 Hx W3 H3. cbn [imod Z.eqb bind].
      pose proof (bayerMosaic_pixel redOffset x y (data tb3 x y)) as P.
      destruct (arr_at mosaic ((y - snd redOffset) mod 2)) as [row| |];
        cbn [bind] in *; try discriminate.
      destruct (arr_at row ((x - fst redOffset) mod 2)) as [m| |];
        cbn [bind] in *; try discriminate.
      rewrite at_ok by lia. cbn [bind]. f_equal. congruence.
    + exists tb2. split; [exact E2|]. split; [congruence|]. split; [exact H2|].
      intros x' y'. rewrite D2.
      replace ((0 <=? x') && (x' <? 0 + Z.of_nat (Z.to_nat (width this - 0))))
        with ((0 <=? x') && (x' <? width this)).
      * destruct (Z.eqb_spec y' y) as [->|]; reflexivity.
      * destruct (Z.leb_spec 0 x'); cbn [andb]; [|reflexivity].
        destruct (Z.ltb_spec x' (0 + Z.of_nat (Z.to_nat (width this - 0)))),
                 (Z.ltb_spec x' (width this)); try reflexivity; lia.
  - exists out. split; [exact E|]. split; [exact W|]. split; [exact H|].
    intros x y R. apply in_range_iff in R. destruct R as [Hx Hy].
    rewrite D.
    replace (0 <=? y) with true by (symmetry; apply Z.leb_le; lia).
    replace (y <? 0 + Z.of_nat (Z.to_nat (height this - 0))) with true
      by (symmetry; apply Z.ltb_lt; lia).
    replace (0 <=? x) with true by (symmetry; apply Z.leb_le; lia).
    replace (x <? width this) with true by (symmetry; apply Z.ltb_lt; lia).
    reflexivity.
Qed.

Lemma mosaic_channel_range (redOffset : Z * Z) (x y : Z) :
  0 <= mosaic_channel redOffset x y <= 2.
Proof.
  unfold mosaic_channel.
  destruct (_ && _); [lia|]. destruct (_ && _); lia.
Qed.

Lemma only_channel_twice (p : Color4) (k : Z) :
  only_channel (only_channel p k) k = only_channel p k.
Proof.
  unfold only_channel. cbn [r g b a].
  destruct (k =? 0), (k =? 1), (k =? 2); reflexivity.
Qed.

(** bayerMosaic never fails and keeps the size; at every pixel it keeps
    alpha and one colour channel and sets the two others to 0.  The
    channel kept is red where row and column are both at an even
    distance from redOffset, blue where both are at an odd distance,
    green elsewhere; for redOffset (0, 0) it is the channel that
    bayerColor names; and a second pass with the same redOffset changes
    nothing. *)
Theorem bayerMosaic_correct (this : HDRImage) (redOffset : Z * Z) :
  exists out,
    bayerMosaic this redOffset = Ok out /\
    width out = width this /\ height out = height this /\
    (forall x y, in_range this x y = true ->
       data out x y = only_channel (data this x y) (mosaic_channel redOffset x y)
       /\ bayerColor x y = Ok (mosaic_channel (0, 0) x y)) /\
    exists out2,
      bayerMosaic out redOffset = Ok out2 /\
      forall x y, in_range this x y = true -> data out2 x y = data out x y.
Proof.
  destruct (bayerMosaic_spec this redOffset) as [out [E [W [H D]]]].
  destruct (bayerMosaic_spec out redOffset) as [out2 [E2 [W2 [H2 D2]]]].
  exists out. split; [exact E|]. split; [exact W|]. split; [exact H|]. split.
  - intros x y R. split; [apply D; exact R|].
    apply in_range_iff in R. destruct R as [Hx Hy].
    unfold bayerColor, mosaic_channel. cbn [fst snd]. rewrite !Z.sub_0_r.
    rewrite !Z.rem_mod_nonneg by lia.
    destruct (mod2_cases y) as [-> | ->], (mod2_cases x) as [-> | ->]; reflexivity.
  - exists out2. split; [exact E2|].
    intros x y R.
    assert (R' : in_range out x y = true).
    { apply in_range_iff in R. apply in_range_intro; lia. }
    rewrite D2 by exact R'. rewrite D by exact R. apply only_channel_twice.
Qed.

(** ** Green interpolation *)

Lemma Qcltb_true (u v : float) : Qcltb u v = true <-> (u < v)%Qc.
Proof.
  unfold Qcltb. rewrite negb_true_iff. split.
  - intros H. apply Qnot_le_lt. intros L. apply Qle_bool_iff in L. congruence.
  - intros H. destruct (Qle_bool v u) eqn:E; [|reflexivity].
    apply Qle_bool_iff in E. exfalso. exact (Qlt_not_le _ _ H E).
Qed.

Lemma Qcltb_false (u v : float) : Qcltb u v = false <-> (v <= u)%Qc.
Proof.
  unfold Qcltb. rewrite negb_false_iff. apply Qle_bool_iff.
Qed.

Lemma clampf_bounds (v lo hi : float) :
  (lo <= hi)%Qc -> (lo <= clampf v lo hi)%Qc /\ (clampf v lo hi <= hi)%Qc.
Proof.
  intros H. unfold clampf.
  destruct (Qcltb v lo) eqn:E1.
  - split; [apply Qcle_refl | exact H].
  - apply Qcltb_false in E1. destruct (Qcltb hi v) eqn:E2.
    + split; [exact H | apply Qcle_refl].
    + apply Qcltb_false in E2. split; assumption.
Qed.

Lemma clampf_inside (v lo hi : float) :
  (lo <= v)%Qc -> (v <= hi)%Qc -> clampf v lo hi = v.
Proof.
  intros H1 H2. unfold clampf.
  replace (Qcltb v lo) with false by (symmetry; apply Qcltb_false; exact H1).
  replace (Qcltb hi v) with false by (symmetry; apply Qcltb_false; exact H2).
  reflexivity.
Qed.

Lemma clamp2_between (v mn mx : float) :
  ((mn <= clamp2 v mn mx)%Qc /\ (clamp2 v mn mx <= mx)%Qc)
  \/ ((mx <= clamp2 v mn mx)%Qc /\ (clamp2 v mn mx <= mn)%Qc).
Proof.
  unfold clamp2. destruct (Qcltb mx mn) eqn:E.
  - right. apply clampf_bounds. apply Qcltb_true in E. apply Qclt_le_weak. exact E.
  - left. apply clampf_bounds. apply Qcltb_false in E. exact E.
Qed.

Lemma clamp2_inside (v mn mx : float) :
  ((mn <= v)%Qc /\ (v <= mx)%Qc) \/ ((mx <= v)%Qc /\ (v <= mn)%Qc) ->
  clamp2 v mn mx = v.
Proof.
  intros H. unfold clamp2. destruct (Qcltb mx mn) eqn:E.
  - apply Qcltb_true in E. destruct H as [[H1 H2] | [H1 H2]].
    + exfalso. apply (Qclt_not_le _ _ E). apply Qcle_trans with v; assumption.
    + apply clampf_inside; assumption.
  - apply Qcltb_false in E. destruct H as [[H1 H2] | [H1 H2]].
    + apply clampf_inside; assumption.
    + assert (Ev : v = mn).
      { apply Qcle_antisym; [exact H2|]. apply Qcle_trans with mx; assumption. }
      assert (Em : mx = mn).
      { apply Qcle_antisym; [|exact E]. rewrite <- Ev. exact H1. }
      subst. apply clampf_inside; apply Qcle_refl.
Qed.

(** Where the pixels two to the left and two to the right exist,
    interpGreenH returns a value between the greens of the left and of
    the right neighbour, in whichever order these are; it is the value
    0.5 (l1 + r1 + c) - 0.25 (l2 + r2) itself when that lies between
    them.  interpGreenV does the same with the neighbours above and
    below. *)
Theorem interpGreen_between (raw : HDRImage) (x y : Z) :
  (2 <= x < width raw - 2 -> 0 <= y < height raw ->
   let l1 := g (data raw (x - 1) y) in
   let r1 := g (data raw (x + 1) y) in
   let v := (half * (l1 + r1 + g (data raw x y))
             - quarter * (g (data raw (x - 2) y) + g (data raw (x + 2) y)))%Qc in
   exists u, interpGreenH raw x y = Ok u /\
     (((l1 <= u)%Qc /\ (u <= r1)%Qc) \/ ((r1 <= u)%Qc /\ (u <= l1)%Qc)) /\
     ((((l1 <= v)%Qc /\ (v <= r1)%Qc) \/ ((r1 <= v)%Qc /\ (v <= l1)%Qc)) -> u = v))
  /\
  (0 <= x < width raw -> 2 <= y < height raw - 2 ->
   let u1 := g (data raw x (y - 1)) in
   let d1 := g (data raw x (y + 1)) in
   let v := (half * (u1 + d1 + g (data raw x y))
             - quarter * (g (data raw x (y - 2)) + g (data raw x (y + 2))))%Qc in
   exists u, interpGreenV raw x y = Ok u /\
     (((u1 <= u)%Qc /\ (u <= d1)%Qc) \/ ((d1 <= u)%Qc /\ (u <= u1)%Qc)) /\
     ((((u1 <= v)%Qc /\ (v <= d1)%Qc) \/ ((d1 <= v)%Qc /\ (v <= u1)%Qc)) -> u = v)).
Proof.
  split.
  - intros Hx Hy l1 r1 v. unfold interpGreenH.
    rewrite !at_ok by lia. cbn [bind]. fold l1 r1 v.
    eexists. split; [reflexivity|]. split.
    + apply clamp2_between.
    + apply clamp2_inside.
  - intros Hx Hy u1 d1 v. unfold interpGreenV.
    rewrite !at_ok by lia. cbn [bind]. fold u1 d1 v.
    eexists. split; [reflexivity|]. split.
    + apply clamp2_between.
    + apply clamp2_inside.
Qed.

Lemma interpGreen_between_witness :
  exists u, interpGreenH green_grid 2 2 = Ok u /\ u = of_int 22.
Proof.
  destruct (interpGreen_between green_grid 2 2) as [H _].
  destruct (H ltac:(cbn; lia) ltac:(cbn; lia)) as [u [E [_ Hv]]].
  exists u. split; [exact E|].
  rewrite Hv.
  - apply Qc_is_canon. vm_compute. reflexivity.
  - left. split; vm_compute; discriminate.
Defined.

(** ** The texture upload *)

Lemma upload_loop_progress (budget : nat) (maxLines h next : Z) :
  1 <= maxLines ->
  LazyGLTextureLoader.upload_loop budget maxLines h next true = (-1, false)
  \/ exists next',
       LazyGLTextureLoader.upload_loop budget maxLines h next true = (next', true)
       /\ next + maxLines <= next' < h.
Proof.
  intros Hm. revert next. induction budget as [|budget IH]; intros next;
    cbn [LazyGLTextureLoader.upload_loop];
    destruct (Z.leb_spec h (next + maxLines)) as [L | L].
  - left. reflexivity.
  - right. exists (next + maxLines). split; [reflexivity | lia].
  - left. reflexivity.
  - destruct (IH (next + maxLines)) as [E | [next' [E B]]].
    + left. exact E.
    + right. exists next'. split; [exact E | lia].
Qed.

Lemma uploadToGPU_step (l : LazyGLTextureLoader.t) (img : HDRImage) (chunkSize : Z)
  (budget : nat) :
  width img <> 0 -> LazyGLTextureLoader.m_dirty l = true ->
  exists l',
    LazyGLTextureLoader.uploadToGPU l img chunkSize budget
    = Ok (l', negb (LazyGLTextureLoader.m_dirty l'))
    /\ LazyGLTextureLoader.m_texture l' <> 0
    /\ ((LazyGLTextureLoader.m_dirty l' = false
         /\ LazyGLTextureLoader.m_nextScanline l' = -1)
        \/ (LazyGLTextureLoader.m_dirty l' = true
            /\ LazyGLTextureLoader.m_nextScanline l
               + Z.max 1 (Z.quot chunkSize (width img))
               <= LazyGLTextureLoader.m_nextScanline l' < height img)).
Proof.
  intros Hw Hd. unfold LazyGLTextureLoader.uploadToGPU. rewrite Hd. cbn [negb andb].
  unfold idiv. replace (width img =? 0) with false by (symmetry; apply Z.eqb_neq; exact Hw).
  cbn [bind].
  assert (Ht : (if LazyGLTextureLoader.m_texture l =? 0 then 1
                else LazyGLTextureLoader.m_texture l) <> 0).
  { destruct (Z.eqb_spec (LazyGLTextureLoader.m_texture l) 0); lia. }
  destruct (upload_loop_progress budget (Z.max 1 (Z.quot chunkSize (width img)))
              (height img) (LazyGLTextureLoader.m_nextScanline l) ltac:(lia))
    as [E | [next' [E B]]]; rewrite E.
  - exists (LazyGLTextureLoader.mk
              (if LazyGLTextureLoader.m_texture l =? 0 then 1
               else LazyGLTextureLoader.m_texture l) false (-1)).
    split; [reflexivity|]. split; [exact Ht|]. left. split; reflexivity.
  - exists (LazyGLTextureLoader.mk
              (if LazyGLTextureLoader.m_texture l =? 0 then 1
               else LazyGLTextureLoader.m_texture l) true next').
    split; [reflexivity|]. split; [exact Ht|]. right. split; [reflexivity | exact B].
Qed.

Lemma upload_calls_clean (n : nat) (budgets : nat -> nat) (l : LazyGLTextureLoader.t)
  (img : HDRImage) (chunkSize : Z) :
  LazyGLTextureLoader.m_dirty l = false -> LazyGLTextureLoader.m_texture l <> 0 ->
  upload_calls (S n) budgets l img chunkSize = Ok (l, false).
Proof.
  intros Hd Ht.
  assert (C : forall budget,
             LazyGLTextureLoader.uploadToGPU l img chunkSize budget = Ok (l, false)).
  { intros budget. unfold LazyGLTextureLoader.uploadToGPU. rewrite Hd.
    replace (LazyGLTextureLoader.m_texture l =? 0) with false
      by (symmetry; apply Z.eqb_neq; exact Ht).
    reflexivity. }
  revert budgets. induction n as [|n IH]; intros budgets.
  - cbn [upload_calls]. rewrite C. reflexivity.
  - change (upload_calls (S (S n)) budgets l img chunkSize)
      with (up <- LazyGLTextureLoader.uploadToGPU l img chunkSize (budgets 0%nat) ;;
            upload_calls (S n) (fun k => budgets (S k)) (fst up) img chunkSize).
    rewrite C. cbn [bind fst]. apply IH.
Qed.

Lemma upload_calls_complete (n : nat) (budgets : nat -> nat)
  (l : LazyGLTextureLoader.t) (img : HDRImage) (chunkSize : Z) :
  width img <> 0 -> LazyGLTextureLoader.m_dirty l = true ->
  height img - LazyGLTextureLoader.m_nextScanline l
    <= Z.of_nat (S n) * Z.max 1 (Z.quot chunkSize (width img)) ->
  exists l' done,
    upload_calls (S n) budgets l img chunkSize = Ok (l', done)
    /\ LazyGLTextureLoader.m_dirty l' = false
    /\ LazyGLTextureLoader.m_nextScanline l' = -1
    /\ LazyGLTextureLoader.m_texture l' <> 0.
Proof.
  intros Hw. revert budgets l. induction n as [|n IH]; intros budgets l Hd Hn.
  - cbn [upload_calls].
    destruct (uploadToGPU_step l img chunkSize (budgets 0%nat) Hw Hd)
      as [l1 [E [Ht [[D1 N1] | [D1 B1]]]]]; rewrite E; cbn [bind].
    + exists l1, (negb (LazyGLTextureLoader.m_dirty l1)).
      split; [reflexivity|]. repeat split; assumption.
    + lia.
  - change (upload_calls (S (S n)) budgets l img chunkSize)
      with (up <- LazyGLTextureLoader.uploadToGPU l img chunkSize (budgets 0%nat) ;;
            upload_calls (S n) (fun k => budgets (S k)) (fst up) img chunkSize).
    destruct (uploadToGPU_step l img chunkSize (budgets 0%nat) Hw Hd)
      as [l1 [E [Ht [[D1 N1] | [D1 B1]]]]]; rewrite E; cbn [bind fst].
    + rewrite upload_calls_clean by assumption.
      exists l1, false. split; [reflexivity|]. repeat split; assumption.
    + apply IH; [exact D1|]. lia.
Qed.

(** After setDirty, n calls of the upload leave the loader clean (not
    dirty, a texture, m_nextScanline = -1) as soon as n chunks of
    max(1, chunkSize / width) lines cover the height of the raster,
    however short the time budget of each call: every call uploads at
    least one chunk, and a call on a clean loader changes nothing. *)
Theorem uploadToGPU_completes (n : nat) (budgets : nat -> nat)
  (l : LazyGLTextureLoader.t) (img : HDRImage) (chunkSize : Z) :
  width img <> 0 -> (1 <= n)%nat ->
  height img <= Z.of_nat n * Z.max 1 (Z.quot chunkSize (width img)) ->
  exists l' done,
    upload_calls n budgets (LazyGLTextureLoader.setDirty l) img chunkSize
    = Ok (l', done)
    /\ LazyGLTextureLoader.m_dirty l' = false
    /\ LazyGLTextureLoader.m_nextScanline l' = -1
    /\ LazyGLTextureLoader.m_texture l' <> 0.
Proof.
  intros Hw Hn Hh. destruct n as [|n]; [lia|].
  apply upload_calls_complete; [exact Hw | reflexivity|].
  cbn [LazyGLTextureLoader.setDirty LazyGLTextureLoader.m_nextScanline]. lia.
Qed.

Lemma uploadToGPU_completes_witness :
  exists l' done,
    upload_calls 3 (fun _ => 0%nat)
      (LazyGLTextureLoader.setDirty (LazyGLTextureLoader.mk 0 false 0))
      green_grid 10 = Ok (l', done)
    /\ LazyGLTextureLoader.m_dirty l' = false
    /\ LazyGLTextureLoader.m_nextScanline l' = -1
    /\ LazyGLTextureLoader.m_texture l' <> 0.
Proof.
  apply (uploadToGPU_completes 3 (fun _ => 0%nat)
           (LazyGLTextureLoader.mk 0 false 0) green_grid 10).
  - cbn. lia.
  - lia.
  - cbn. lia.
Defined.

(** A loader that is dirty or has no texture yet divides chunkSize by the
    width of the raster: on a raster of width 0, such as the empty
    raster a controller starts with, the upload is a division by
    zero. *)
Theorem uploadToGPU_empty_raster (l : LazyGLTextureLoader.t) (img : HDRImage)
  (chunkSize : Z) (budget : nat) :
  width img = 0 ->
  LazyGLTextureLoader.m_dirty l = true \/ LazyGLTextureLoader.m_texture l = 0 ->
  LazyGLTextureLoader.uploadToGPU l img chunkSize budget = Fault
  /\ forall s, GLImage.m_image s = img -> GLImage.m_texture s = l ->
       GLImage.uploadToGPU chunkSize budget s = Fault.
Proof.
  intros Hw Hl.
  assert (F : LazyGLTextureLoader.uploadToGPU l img chunkSize budget = Fault).
  { unfold LazyGLTextureLoader.uploadToGPU.
    replace (negb (LazyGLTextureLoader.m_dirty l)
             && negb (LazyGLTextureLoader.m_texture l =? 0)) with false.
    - rewrite Hw. reflexivity.
    - destruct Hl as [-> | ->]; [reflexivity|].
      cbn [Z.eqb negb]. rewrite andb_false_r. reflexivity. }
  split; [exact F|].
  intros s <- <-. unfold GLImage.uploadToGPU. rewrite F. reflexivity.
Qed.

Lemma uploadToGPU_empty_raster_witness :
  GLImage.uploadToGPU 1024 5 idle_controller = Fault.
Proof.
  destruct (uploadToGPU_empty_raster (GLImage.m_texture idle_controller)
              (GLImage.m_image idle_controller) 1024 5) as [_ F].
  - reflexivity.
  - left. reflexivity.
  - apply F; reflexivity.
Defined.

(** ** An edit and its result *)

(** An edit started on a controller with no command outstanding leaves
    raster and history as they are and makes canModify false.  The
    first waitForAsyncResult after it (the new raster having a width
    other than 0) returns true, installs the new raster, pushes the
    record of the edit on the history and marks the histogram dirty; a
    second one returns false and changes nothing, so the result is
    collected once.  From then on canModify is true exactly when the
    upload of the texture was completed within its time budget. *)
Theorem asyncModify_collected_once (chunkSize : Z) (budget : nat) (s : GLImage.t)
  (command : HDRImage -> HDRImage * ImageCommandUndo) :
  GLImage.m_asyncCommand s = None ->
  width (fst (command (GLImage.m_image s))) <> 0 ->
  exists s1 s2,
    GLImage.asyncModify chunkSize budget s command = Ok s1
    /\ canModify s1 = false
    /\ GLImage.m_image s1 = GLImage.m_image s
    /\ GLImage.m_history s1 = GLImage.m_history s
    /\ GLImage.waitForAsyncResult chunkSize budget s1 = Ok (s2, true)
    /\ GLImage.m_image s2 = fst (command (GLImage.m_image s))
    /\ GLImage.m_history s2
       = CommandHistory.addCommand (GLImage.m_history s)
           (snd (command (GLImage.m_image s)))
    /\ GLImage.m_histogramDirty s2 = true
    /\ GLImage.waitForAsyncResult chunkSize budget s2 = Ok (s2, false)
    /\ canModify s2 = negb (LazyGLTextureLoader.m_dirty (GLImage.m_texture s2)).
Proof.
  intros Hidle Hw.
  unfold GLImage.asyncModify.
  rewrite (waitForAsyncResult_idle chunkSize budget s (or_introl Hidle)).
  cbn [bind fst]. eexists. 
  destruct (uploadToGPU_step
              (LazyGLTextureLoader.setDirty (GLImage.m_texture s))
              (fst (command (GLImage.m_image s))) chunkSize budget Hw eq_refl)
    as [l' [E _]].
  exists (GLImage.mk (fst (command (GLImage.m_image s)))
            (CommandHistory.addCommand (GLImage.m_history s)
               (snd (command (GLImage.m_image s))))
            true l'
            (if negb (LazyGLTextureLoader.m_dirty l') then None
             else Some (GLImage.mkTask (command (GLImage.m_image s))))
            true).
  split; [reflexivity|].
  cbn [canModify GLImage.m_asyncCommand GLImage.m_image GLImage.m_history
       GLImage.m_histogramDirty GLImage.m_texture].
  split; [reflexivity|]. split; [reflexivity|]. split; [reflexivity|].
  split.
  - unfold GLImage.waitForAsyncResult.
    cbn [GLImage.m_asyncCommand GLImage.m_asyncRetrieved GLImage.get GLImage.m_image
         GLImage.m_history GLImage.m_texture].
    unfold GLImage.uploadToGPU.
    cbn [GLImage.m_asyncCommand GLImage.m_asyncRetrieved GLImage.m_image
         GLImage.m_history GLImage.m_texture GLImage.m_histogramDirty].
    rewrite E. cbn [bind]. reflexivity.
  - split; [reflexivity|]. split; [reflexivity|]. split; [reflexivity|]. split.
    + apply waitForAsyncResult_idle. right. reflexivity.
    + destruct (LazyGLTextureLoader.m_dirty l'); reflexivity.
Qed.

Lemma asyncModify_collected_once_witness :
  exists s1 s2,
    GLImage.asyncModify 16384 0 idle_controller paint_command = Ok s1
    /\ canModify s1 = false
    /\ GLImage.waitForAsyncResult 16384 0 s1 = Ok (s2, true)
    /\ GLImage.waitForAsyncResult 16384 0 s2 = Ok (s2, false).
Proof.
  destruct (asyncModify_collected_once 16384 0 idle_controller paint_command)
    as [s1 [s2 [E1 [C1 [_ [_ [E2 [_ [_ [_ [E3 _]]]]]]]]]]].
  - reflexivity.
  - cbn. lia.
  - exists s1, s2. repeat split; assumption.
Defined.

(** ** The table of the conversion to CIE L*a*b* *)

Lemma to_int_small (v : Z) : 0 <= v < 2147483648 -> to_int (to_size_t v) = v.
Proof.
  intros Hv. unfold to_int, to_size_t.
  change (2 ^ 64) with 18446744073709551616.
  change (2 ^ 31) with 2147483648. change (2 ^ 32) with 4294967296.
  rewrite (Z.mod_small v) by lia. rewrite Z.mod_small by lia. lia.
Qed.

Lemma clamp_bounds (v lo hi : Z) : lo <= hi -> lo <= clamp v lo hi <= hi.
Proof.
  intros H. unfold clamp.
  destruct (Z.ltb_spec v lo); [lia|]. destruct (Z.ltb_spec hi v); lia.
Qed.

Lemma arr_at_inside {A : Type} (buf : list A) (k : Z) :
  0 <= k < Z.of_nat (length buf) -> exists v, arr_at buf k = Ok v.
Proof.
  intros Hk. unfold arr_at.
  replace (k <? 0) with false by (symmetry; apply Z.ltb_ge; lia).
  destruct (nth_error buf (Z.to_nat k)) as [v|] eqn:E.
  - exists v. reflexivity.
  - apply nth_error_None in E. lia.
Qed.

Lemma arr_at_nil {A : Type} (k : Z) : arr_at (@nil A) k = Fault.
Proof.
  unfold arr_at. destruct (k <? 0); [reflexivity|].
  destruct (Z.to_nat k); reflexivity.
Qed.

Lemma lut_lookup_inside (LUT : list float) (v : float) :
  LUT <> [] -> Z.of_nat (length LUT) <= 2147483648 ->
  exists u, lut_lookup LUT v = Ok u.
Proof.
  intros Hne Hmax. unfold lut_lookup.
  assert (Hlen : 1 <= Z.of_nat (length LUT)).
  { destruct LUT; [contradiction | cbn [length]; lia]. }
  apply arr_at_inside. rewrite to_int_small by lia.
  pose proof (clamp_bounds (trunc_int (v * of_int (Z.of_nat (length LUT)))%Qc) 0
                (Z.of_nat (length LUT) - 1) ltac:(lia)).
  lia.
Qed.

(** With a table of at least one and at most 2^31 entries, cameraToLab
    reads inside the table, whatever the colour and the matrix: the
    index is clamped to 0 .. size-1. *)
Theorem cameraToLab_reads_inside_table (c : float * float * float)
  (cameraToXYZ : Z -> Z -> float) (LUT : list float) :
  LUT <> [] -> Z.of_nat (length LUT) <= 2147483648 ->
  exists lab, cameraToLab c cameraToXYZ LUT = Ok lab.
Proof.
  intros Hne Hmax. unfold cameraToLab.
  destruct (mat_vec cameraToXYZ c) as [[x0 y0] z0].
  destruct (lut_lookup_inside LUT x0 Hne Hmax) as [x Ex].
  destruct (lut_lookup_inside LUT y0 Hne Hmax) as [y Ey].
  destruct (lut_lookup_inside LUT z0 Hne Hmax) as [z Ez].
  rewrite Ex, Ey, Ez. cbn [bind]. eexists. reflexivity.
Qed.

Lemma cameraToLab_reads_inside_table_witness :
  exists lab,
    cameraToLab (half, half, half) (fun i j => if i =? j then 1%Qc else 0%Qc)
      [0%Qc; half; 1%Qc] = Ok lab.
Proof.
  apply (cameraToLab_reads_inside_table (half, half, half)
           (fun i j => if i =? j then 1%Qc else 0%Qc) [0%Qc; half; 1%Qc]).
  - discriminate.
  - cbn. lia.
Defined.

(** The table that demosaicAHD builds has no entry (the vector is
    reserved, its size stays 0, and the loop that fills it runs up to
    that size), so that the conversion to L*a*b* of a candidate with at
    least one pixel reads the table outside its size at the first
    pixel. *)
Theorem demosaicAHD_lab_table_empty (cube_root : float -> float)
  (this rgb : HDRImage) (scale : float) (cameraToXYZ : Z -> Z -> float) :
  0 < width rgb -> 0 < height rgb -> 0 < height this ->
  labLUT_of_demosaicAHD cube_root = Ok []
  /\ demosaicAHD_lab cube_root this rgb scale cameraToXYZ = Fault.
Proof.
  intros Hw Hh Hth. split; [reflexivity|].
  unfold demosaicAHD_lab.
  change (labLUT_of_demosaicAHD cube_root) with (Ok (@nil float)). cbn [bind].
  unfold lab_pass, for_range.
  destruct (Z.to_nat (height this - 0)) as [|n] eqn:En; [lia|].
  cbn [for_loop].
  destruct (Z.to_nat (width rgb - 0)) as [|m] eqn:Em; [lia|].
  cbn [for_loop].
  rewrite at_ok by lia. cbn [bind].
  rewrite !channel_ok by lia. cbn [bind].
  unfold cameraToLab.
  destruct (mat_vec cameraToXYZ _) as [[x0 y0] z0].
  unfold lut_lookup. rewrite arr_at_nil. reflexivity.
Qed.

Lemma demosaicAHD_lab_table_empty_witness :
  demosaicAHD_lab (fun v => v) ramp5 ramp5 1%Qc
    (fun i j => if i =? j then 1%Qc else 0%Qc) = Fault.
Proof.
  apply (demosaicAHD_lab_table_empty (fun v => v) ramp5 ramp5 1%Qc
           (fun i j => if i =? j then 1%Qc else 0%Qc)); reflexivity.
Defined.

(** ** Rasters the median filter leaves alone *)

Lemma set_channel_val_same (c : Color4) (k : Z) :
  0 <= k <= 3 -> set_channel_val c k (channel_val c k) = c.
Proof.
  intros Hk. destruct c.
  destruct (channel_cases k Hk) as [-> | [-> | [-> | ->]]]; reflexivity.
Qed.

Lemma pixel_val_some_pixel (img : HDRImage) (x y : Z) (mX mY : BorderMode) :
  0 < width img -> 0 < height img -> mX <> BLACK -> mY <> BLACK ->
  exists x' y', in_range img x' y' = true /\ pixel_val img x y mX mY = data img x' y'.
Proof.
  intros Hw Hh HmX HmY.
  destruct (wrapCoord_total x (width img) mX Hw HmX) as [p [Ep Bp]].
  destruct (wrapCoord_total y (height img) mY Hh HmY) as [q [Eq Bq]].
  exists p, q. split; [apply in_range_intro; lia|].
  rewrite (pixel_val_wrapped img x y p q mX mY Ep Eq) by lia.
  replace (p <? 0) with false by (symmetry; apply Z.ltb_ge; lia).
  replace (q <? 0) with false by (symmetry; apply Z.ltb_ge; lia).
  reflexivity.
Qed.

Lemma neighborhood_zero (radius : float) (round : bool) :
  Qceiling radius = 0 -> neighborhood radius round = [(0, 0)].
Proof.
  intros He. unfold neighborhood. rewrite He.
  change (zrange (- 0) (Z.to_nat (2 * 0 + 1))) with [0].
  cbn [list_prod map app filter fst snd]. change (0 * 0 + 0 * 0) with 0.
  rewrite sqr_nonneg_Qcleb, orb_true_r. reflexivity.
Qed.

(** The median filter returns the pixels of the raster as they are in
    two cases: when ceil(radius) is 0 (a radius in (-1, 0]), where the
    neighbourhood is the pixel alone, under every border mode; and, for
    a radius above -1 under border modes other than BLACK, when the
    filtered channel has the same value at every pixel. *)
Theorem medianFiltered_fixed (this : HDRImage) (radius : float) (channel_ : Z)
  (mX mY : BorderMode) (round : bool) :
  0 <= channel_ <= 3 -> 0 <= Qceiling radius ->
  Qceiling radius = 0
  \/ (mX <> BLACK /\ mY <> BLACK /\
      exists v, forall x y, in_range this x y = true ->
                  channel_val (data this x y) channel_ = v) ->
  exists out,
    medianFiltered this radius channel_ mX mY round = Ok out /\
    width out = width this /\ height out = height this /\
    forall x y, in_range this x y = true -> data out x y = data this x y.
Proof.
  intros Hc He Hcase.
  destruct (medianFiltered_spec this radius channel_ mX mY round Hc He)
    as [out [E [W [H D]]]].
  exists out. split; [exact E|]. split; [exact W|]. split; [exact H|].
  intros x y R. rewrite D by exact R.
  rewrite <- (set_channel_val_same (data this x y) channel_ Hc) at 2.
  f_equal. unfold median_value, neighborhood_values.
  destruct Hcase as [H0 | [HmX [HmY [v Hv]]]].
  - rewrite (neighborhood_zero radius round H0).
    cbn [map length sort insert_sorted]. change (median_rank 1) with 0%nat.
    cbn [nth]. rewrite !Z.add_0_r.
    rewrite pixel_val_in_range by exact R. reflexivity.
  - pose proof R as R'. apply in_range_iff in R'. destruct R' as [Hx Hy].
    set (vals := map (fun ij => channel_val
                        (pixel_val this (x + fst ij) (y + snd ij) mX mY) channel_)
                     (neighborhood radius round)).
    assert (Hlen : (1 <= length vals)%nat).
    { apply (neighborhood_values_length this radius channel_ mX mY round x y He). }
    destruct (median_rank_quot (length vals) Hlen) as [_ Hr].
    assert (Hin : In (nth (median_rank (length vals)) (sort vals) 0%Qc) vals).
    { apply (Permutation_in _ (Permutation_sym (sort_perm vals))).
      apply nth_In. rewrite <- (Permutation_length (sort_perm vals)). exact Hr. }
    rewrite (Hv x y R).
    subst vals. apply in_map_iff in Hin. destruct Hin as [[i j] [Eij _]].
    rewrite <- Eij. cbn [fst snd].
    destruct (pixel_val_some_pixel this (x + i) (y + j) mX mY) as [x' [y' [R' ->]]];
      try lia; try assumption.
    apply Hv. exact R'.
Qed.

Lemma medianFiltered_fixed_witness :
  exists out,
    medianFiltered ramp5 (- half)%Qc 1 BLACK BLACK true = Ok out /\
    width out = 5 /\ height out = 1 /\
    forall x y, in_range ramp5 x y = true -> data out x y = data ramp5 x y.
Proof.
  apply (medianFiltered_fixed ramp5 (- half)%Qc 1 BLACK BLACK true).
  - lia.
  - vm_compute. discriminate.
  - left. vm_compute. reflexivity.
Defined.

(** ** nextOddInt *)

(** nextOddInt returns an odd number, i itself when i is odd and i + 1
    when it is even; this holds for negative i as well, the remainder
    being compared with 0. *)
Theorem nextOddInt_odd (i : Z) :
  Z.odd (nextOddInt i) = true
  /\ (Z.odd i = true -> nextOddInt i = i)
  /\ (Z.even i = true -> nextOddInt i = i + 1).
Proof.
  unfold nextOddInt.
  assert (Hi : i = Z.rem i 2 + 2 * Z.quot i 2)
    by (pose proof (Z.quot_rem' i 2); lia).
  assert (Hb : Z.rem i 2 = -1 \/ Z.rem i 2 = 0 \/ Z.rem i 2 = 1).
  { destruct (Z.lt_ge_cases i 0).
    - pose proof (Z.rem_bound_pos (- i) 2 ltac:(lia) ltac:(lia)) as B.
      rewrite Z.rem_opp_l in B by lia. lia.
    - pose proof (Z.rem_bound_pos i 2 ltac:(lia) ltac:(lia)). lia. }
  assert (Ho : Z.odd i = Z.odd (Z.rem i 2))
    by (rewrite Hi at 1; apply Z.odd_add_mul_2).
  destruct Hb as [E | [E | E]]; rewrite E in *; cbn [Z.eqb Z.odd] in *.
  - split; [exact Ho|]. split; [reflexivity|].
    intros He. rewrite <- Z.negb_odd, Ho in He. discriminate.
  - split; [|split; [rewrite Ho; discriminate | reflexivity]].
    rewrite Z.odd_add, Ho. reflexivity.
  - split; [exact Ho|]. split; [reflexivity|].
    intros He. rewrite <- Z.negb_odd, Ho in He. discriminate.
Qed.

(** ** Histograms *)






Section HistogramProperties.

Variable LinearToSRGB : Color4 -> Color4.
Variable gain : float -> Color4.




End HistogramProperties.


(** ** Green interpolation along rows and columns *)

Ltac split_reads :=
  repeat match goal with
         | |- context [in_range ?i ?u ?v] => destruct (in_range i u v) eqn:?
         end.

Lemma interpGreenH_ok (raw : HDRImage) (x y : Z) :
  2 <= x < width raw - 2 -> 0 <= y < height raw ->
  exists v, interpGreenH raw x y = Ok v.
Proof.
  intros Hx Hy. unfold interpGreenH. rewrite !at_ok by lia. cbn [bind].
  eexists. reflexivity.
Qed.

Lemma interpGreenV_ok (raw : HDRImage) (x y : Z) :
  0 <= x < width raw -> 2 <= y < height raw - 2 ->
  exists v, interpGreenV raw x y = Ok v.
Proof.
  intros Hx Hy. unfold interpGreenV. rewrite !at_ok by lia. cbn [bind].
  eexists. reflexivity.
Qed.

Lemma interpGreenH_cases (raw : HDRImage) (x y : Z) :
  (2 <= x < width raw - 2 /\ 0 <= y < height raw
   /\ exists v, interpGreenH raw x y = Ok v)
  \/ (~ (2 <= x < width raw - 2 /\ 0 <= y < height raw)
      /\ interpGreenH raw x y = Fault).
Proof.
  destruct (Z_le_dec 2 x), (Z_lt_dec x (width raw - 2)),
           (Z_le_dec 0 y), (Z_lt_dec y (height raw));
    try (right; split; [lia|]; unfold interpGreenH, at_; split_reads; cbn [bind];
         try reflexivity; exfalso;
         repeat match goal with
                | H : in_range _ _ _ = true |- _ => apply in_range_iff in H
                end; lia).
  left. split; [lia|]. split; [lia|]. apply interpGreenH_ok; lia.
Qed.

Lemma interpGreenV_cases (raw : HDRImage) (x y : Z) :
  (0 <= x < width raw /\ 2 <= y < height raw - 2
   /\ exists v, interpGreenV raw x y = Ok v)
  \/ (~ (0 <= x < width raw /\ 2 <= y < height raw - 2)
      /\ interpGreenV raw x y = Fault).
Proof.
  destruct (Z_le_dec 0 x), (Z_lt_dec x (width raw)),
           (Z_le_dec 2 y), (Z_lt_dec y (height raw - 2));
    try (right; split; [lia|]; unfold interpGreenV, at_; split_reads; cbn [bind];
         try reflexivity; exfalso;
         repeat match goal with
                | H : in_range _ _ _ = true |- _ => apply in_range_iff in H
                end; lia).
  left. split; [lia|]. split; [lia|]. apply interpGreenV_ok; lia.
Qed.

Lemma set_green_keeps (orig this : HDRImage) (x y : Z) (v : float) :
  0 <= x < width this -> 0 <= y < height this ->
  same_but_green orig this ->
  exists out, set_green this x y v = Ok out /\ same_but_green orig out.
Proof.
  intros Hx Hy [W [H D]]. unfold set_green.
  rewrite at_ok by lia. cbn [bind]. rewrite assign_ok by lia.
  eexists. split; [reflexivity|].
  split; [exact W|]. split; [exact H|]. intros x' y'. cbn [data].
  destruct ((x' =? x) && (y' =? y)) eqn:E; [|apply D].
  apply andb_true_iff in E. destruct E as [E1 E2].
  apply Z.eqb_eq in E1. apply Z.eqb_eq in E2. subst. cbn [r b a]. apply D.
Qed.

Lemma set_green_sized (A this : HDRImage) (x y : Z) (v : float) :
  width this = width A -> height this = height A ->
  fault_or_sized A (set_green this x y v).
Proof.
  intros W H. unfold set_green, at_, assign.
  destruct (in_range this x y); cbn [bind]; [|left; reflexivity].
  right. eexists. split; [reflexivity|]. split; assumption.
Qed.

Lemma for_loop_sized (A : HDRImage) (n : nat) (lo : Z)
  (body : Z -> HDRImage -> result HDRImage) (s : HDRImage) :
  width s = width A -> height s = height A ->
  (forall j s', width s' = width A -> height s' = height A ->
     fault_or_sized A (body j s')) ->
  fault_or_sized A (for_loop n lo body s).
Proof.
  intros W H Hb. revert lo s W H. induction n as [|n IH]; intros lo s W H.
  - right. exists s. split; [reflexivity|]. split; assumption.
  - cbn [for_loop]. destruct (Hb lo s W H) as [E | [s1 [E [W1 H1]]]]; rewrite E.
    + left. reflexivity.
    + cbn [bind]. apply IH; assumption.
Qed.

Lemma for_loop_fault (A : HDRImage) (n : nat) (lo i : Z)
  (body : Z -> HDRImage -> result HDRImage) (s : HDRImage) :
  width s = width A -> height s = height A ->
  (forall j s', width s' = width A -> height s' = height A ->
     fault_or_sized A (body j s')) ->
  lo <= i < lo + Z.of_nat n ->
  (forall s', width s' = width A -> height s' = height A -> body i s' = Fault) ->
  for_loop n lo body s = Fault.
Proof.
  intros W H Hb. revert lo s W H. induction n as [|n IH]; intros lo s W H Hi Hf; [lia|].
  cbn [for_loop]. destruct (Z.eq_dec i lo) as [-> | Ni].
  - rewrite Hf by assumption. reflexivity.
  - destruct (Hb lo s W H) as [E | [s1 [E [W1 H1]]]]; rewrite E; [reflexivity|].
    cbn [bind]. apply IH; try assumption. lia.
Qed.

Lemma step2_index (lo hi k : Z) :
  0 <= k < 0 + Z.of_nat (Z.to_nat ((hi - lo + 2 - 1) / 2)) ->
  lo <= lo + 2 * k < hi.
Proof.
  intros Hk.
  pose proof (Z.div_mod (hi - lo + 2 - 1) 2 ltac:(lia)) as Dm.
  pose proof (Z.mod_pos_bound (hi - lo + 2 - 1) 2 ltac:(lia)) as Mb.
  lia.
Qed.

Lemma step2_count (lo hi i : Z) :
  lo <= i < hi -> (i - lo) mod 2 = 0 ->
  0 <= (i - lo) / 2 < 0 + Z.of_nat (Z.to_nat ((hi - lo + 2 - 1) / 2))
  /\ lo + 2 * ((i - lo) / 2) = i.
Proof.
  intros Hi Hp.
  pose proof (Z.div_mod (i - lo) 2 ltac:(lia)) as Di. rewrite Hp in Di.
  pose proof (Z.div_mod (hi - lo + 2 - 1) 2 ltac:(lia)) as Dm.
  pose proof (Z.mod_pos_bound (hi - lo + 2 - 1) 2 ltac:(lia)) as Mb.
  lia.
Qed.

Lemma for_range_step_keeps {St : Type} (I : St -> Prop) (lo hi : Z)
  (body : Z -> St -> result St) (s : St) :
  I s ->
  (forall i s1, lo <= i < hi -> (i - lo) mod 2 = 0 -> I s1 ->
     exists s2, body i s1 = Ok s2 /\ I s2) ->
  exists s', for_range_step lo hi 2 body s = Ok s' /\ I s'.
Proof.
  intros Hs Hb. unfold for_range_step. apply for_loop_inv; [exact Hs|].
  intros k s1 Hk I1. apply Hb; [apply step2_index; exact Hk | | exact I1].
  replace (lo + 2 * k - lo) with (k * 2) by lia. apply Z.mod_mul. lia.
Qed.

Lemma for_range_step_sized (A : HDRImage) (lo hi : Z)
  (body : Z -> HDRImage -> result HDRImage) (s : HDRImage) :
  width s = width A -> height s = height A ->
  (forall j s', width s' = width A -> height s' = height A ->
     fault_or_sized A (body j s')) ->
  fault_or_sized A (for_range_step lo hi 2 body s).
Proof.
  intros W H Hb. unfold for_range_step. apply for_loop_sized; try assumption.
  intros j s'. apply Hb.
Qed.

Lemma for_range_step_fault (A : HDRImage) (lo hi i : Z)
  (body : Z -> HDRImage -> result HDRImage) (s : HDRImage) :
  width s = width A -> height s = height A ->
  (forall j s', width s' = width A -> height s' = height A ->
     fault_or_sized A (body j s')) ->
  lo <= i < hi -> (i - lo) mod 2 = 0 ->
  (forall s', width s' = width A -> height s' = height A -> body i s' = Fault) ->
  for_range_step lo hi 2 body s = Fault.
Proof.
  intros W H Hb Hi Hp Hf. unfold for_range_step.
  destruct (step2_count lo hi i Hi Hp) as [Hk Ek].
  apply (for_loop_fault A _ 0 ((i - lo) / 2)); try assumption.
  - intros j s'. apply Hb.
  - intros s' W' H'. rewrite Ek. apply Hf; assumption.
Qed.

Ltac parity H :=
  match type of H with
  | ?t mod 2 = _ =>
      let D := fresh "D" in
      pose proof (Z.div_mod t 2 ltac:(lia)) as D; rewrite H in D
  end.

Lemma same_but_green_refl (A : HDRImage) : same_but_green A A.
Proof. split; [reflexivity|]. split; [reflexivity|]. intros. repeat split. Qed.

(** Where the width and the height of the raster differ from the
    coordinates of redOffset by even numbers (as for an even-sized
    raster with redOffset (0, 0)), demosaicGreenHorizontal and
    demosaicGreenVertical return a raster that has the red, blue and
    alpha of the raster they started from at every pixel: they write the
    green channel only. *)
Theorem demosaicGreen_keeps_red_blue (this raw : HDRImage) (redOffset : Z * Z) :
  0 <= fst redOffset -> 0 <= snd redOffset ->
  (width this - fst redOffset) mod 2 = 0 ->
  (height this - snd redOffset) mod 2 = 0 ->
  width raw = width this -> height raw = height this ->
  (exists out, demosaicGreenHorizontal this raw redOffset = Ok out
               /\ same_but_green this out)
  /\ (exists out, demosaicGreenVertical this raw redOffset = Ok out
                  /\ same_but_green this out).
Proof.
  intros Hrx Hry Pw Ph Wr Hr. parity Pw. parity Ph. split.
  - unfold demosaicGreenHorizontal.
    apply (for_range_step_keeps (fun tb => same_but_green this tb)).
    { apply same_but_green_refl. }
    intros y s1 Hy Py K1. parity Py. pose proof K1 as [W1 [H1 _]]. rewrite W1.
    apply (for_range_step_keeps (fun tb => same_but_green this tb)); [exact K1|].
    intros x s2 Hx Px K2. parity Px. pose proof K2 as [W2 [H2 _]].
    destruct (interpGreenH_ok raw x y) as [v Ev]; try lia.
    rewrite Ev. cbn [bind].
    destruct (set_green_keeps this s2 x y v) as [s3 [E3 K3]]; try lia; [exact K2|].
    rewrite E3. cbn [bind]. pose proof K3 as [W3 [H3 _]].
    destruct (interpGreenH_ok raw (x + 1) (y + 1)) as [v' Ev']; try lia.
    rewrite Ev'. cbn [bind].
    apply set_green_keeps; try lia. exact K3.
  - unfold demosaicGreenVertical.
    apply (for_range_step_keeps (fun tb => same_but_green this tb)).
    { apply same_but_green_refl. }
    intros y s1 Hy Py K1. parity Py. pose proof K1 as [W1 [H1 _]]. rewrite W1.
    apply (for_range_step_keeps (fun tb => same_but_green this tb)); [exact K1|].
    intros x s2 Hx Px K2. parity Px. pose proof K2 as [W2 [H2 _]].
    destruct (interpGreenV_ok raw x y) as [v Ev]; try lia.
    rewrite Ev. cbn [bind].
    destruct (set_green_keeps this s2 x y v) as [s3 [E3 K3]]; try lia; [exact K2|].
    rewrite E3. cbn [bind]. pose proof K3 as [W3 [H3 _]].
    destruct (interpGreenV_ok raw (x + 1) (y + 1)) as [v' Ev']; try lia.
    rewrite Ev'. cbn [bind].
    apply set_green_keeps; try lia. exact K3.
Qed.

Lemma demosaicGreen_keeps_red_blue_witness :
  (exists out, demosaicGreenHorizontal green_grid8 green_grid8 (0, 0) = Ok out
               /\ same_but_green green_grid8 out)
  /\ (exists out, demosaicGreenVertical green_grid8 green_grid8 (0, 0) = Ok out
                  /\ same_but_green green_grid8 out).
Proof.
  apply (demosaicGreen_keeps_red_blue green_grid8 green_grid8 (0, 0));
    cbn; try lia; reflexivity.
Defined.

Lemma green_H_step_sized (A raw this : HDRImage) (x y : Z) :
  width this = width A -> height this = height A ->
  fault_or_sized A
    (v <- interpGreenH raw x y ;;
     this <- set_green this x y v ;;
     v <- interpGreenH raw (x + 1) (y + 1) ;;
     set_green this (x + 1) (y + 1) v).
Proof.
  intros W H.
  destruct (interpGreenH_cases raw x y) as [[_ [_ [v ->]]] | [_ ->]];
    [|left; reflexivity].
  cbn [bind].
  destruct (set_green_sized A this x y v W H) as [-> | [t [-> [Wt Ht]]]];
    [left; reflexivity|].
  cbn [bind].
  destruct (interpGreenH_cases raw (x + 1) (y + 1)) as [[_ [_ [v' ->]]] | [_ ->]];
    [|left; reflexivity].
  cbn [bind]. apply set_green_sized; assumption.
Qed.

Lemma green_V_step_sized (A raw this : HDRImage) (x y : Z) :
  width this = width A -> height this = height A ->
  fault_or_sized A
    (v <- interpGreenV raw x y ;;
     this <- set_green this x y v ;;
     v <- interpGreenV raw (x + 1) (y + 1) ;;
     set_green this (x + 1) (y + 1) v).
Proof.
  intros W H.
  destruct (interpGreenV_cases raw x y) as [[_ [_ [v ->]]] | [_ ->]];
    [|left; reflexivity].
  cbn [bind].
  destruct (set_green_sized A this x y v W H) as [-> | [t [-> [Wt Ht]]]];
    [left; reflexivity|].
  cbn [bind].
  destruct (interpGreenV_cases raw (x + 1) (y + 1)) as [[_ [_ [v' ->]]] | [_ ->]];
    [|left; reflexivity].
  cbn [bind]. apply set_green_sized; assumption.
Qed.

Lemma green_H_step_fault (raw this : HDRImage) (x y : Z) :
  ~ (2 <= x + 1 < width raw - 2 /\ 0 <= y + 1 < height raw) ->
  (v <- interpGreenH raw x y ;;
   this <- set_green this x y v ;;
   v <- interpGreenH raw (x + 1) (y + 1) ;;
   set_green this (x + 1) (y + 1) v) = Fault.
Proof.
  intros Hn.
  destruct (interpGreenH_cases raw x y) as [[_ [_ [v ->]]] | [_ ->]];
    [|reflexivity].
  cbn [bind].
  destruct (set_green_sized this this x y v eq_refl eq_refl) as [-> | [t [-> _]]];
    [reflexivity|].
  cbn [bind].
  destruct (interpGreenH_cases raw (x + 1) (y + 1)) as [[B1 [B2 _]] | [_ ->]];
    [exfalso; apply Hn; split; assumption | reflexivity].
Qed.

Lemma green_V_step_fault (raw this : HDRImage) (x y : Z) :
  ~ (0 <= x + 1 < width raw /\ 2 <= y + 1 < height raw - 2) ->
  (v <- interpGreenV raw x y ;;
   this <- set_green this x y v ;;
   v <- interpGreenV raw (x + 1) (y + 1) ;;
   set_green this (x + 1) (y + 1) v) = Fault.
Proof.
  intros Hn.
  destruct (interpGreenV_cases raw x y) as [[_ [_ [v ->]]] | [_ ->]];
    [|reflexivity].
  cbn [bind].
  destruct (set_green_sized this this x y v eq_refl eq_refl) as [-> | [t [-> _]]];
    [reflexivity|].
  cbn [bind].
  destruct (interpGreenV_cases raw (x + 1) (y + 1)) as [[B1 [B2 _]] | [_ ->]];
    [exfalso; apply Hn; split; assumption | reflexivity].
Qed.

(** Where the width or the height of the raster differs from the
    coordinate of redOffset by an odd number (as for an even-sized
    raster with a redOffset of (1, 0) or (0, 1)), on a raster large
    enough for the loops to run, demosaicGreenHorizontal and
    demosaicGreenVertical read or write outside the raster: the second
    pixel of the last tile of a row or column, (x+1, y+1), or one of its
    neighbours, lies beyond the edge. *)
Theorem demosaicGreen_odd_offset_faults (this raw : HDRImage) (redOffset : Z * Z) :
  0 <= fst redOffset -> 0 <= snd redOffset ->
  fst redOffset + 5 <= width this -> snd redOffset + 5 <= height this ->
  width raw = width this -> height raw = height this ->
  (width this - fst redOffset) mod 2 = 1
  \/ (height this - snd redOffset) mod 2 = 1 ->
  demosaicGreenHorizontal this raw redOffset = Fault
  /\ demosaicGreenVertical this raw redOffset = Fault.
Proof.
  intros Hrx Hry Hw Hh Wr Hr Hodd.
  assert (SH : forall (y : Z) (s' : HDRImage),
             width s' = width this -> height s' = height this ->
             fault_or_sized this
               (for_range_step (2 + fst redOffset) (width s' - 2) 2
                  (fun x this0 =>
                     v <- interpGreenH raw x y ;;
                     this1 <- set_green this0 x y v ;;
                     v0 <- interpGreenH raw (x + 1) (y + 1) ;;
                     set_green this1 (x + 1) (y + 1) v0) s')).
  { intros y s' W' H'. apply for_range_step_sized; try assumption.
    intros j s'' W'' H''. apply green_H_step_sized; assumption. }
  assert (SV : forall (y : Z) (s' : HDRImage),
             width s' = width this -> height s' = height this ->
             fault_or_sized this
               (for_range_step (fst redOffset) (width s') 2
                  (fun x this0 =>
                     v <- interpGreenV raw x y ;;
                     this1 <- set_green this0 x y v ;;
                     v0 <- interpGreenV raw (x + 1) (y + 1) ;;
                     set_green this1 (x + 1) (y + 1) v0) s')).
  { intros y s' W' H'. apply for_range_step_sized; try assumption.
    intros j s'' W'' H''. apply green_V_step_sized; assumption. }
  split.
  - unfold demosaicGreenHorizontal. destruct Hodd as [Pw | Ph].
    + apply (for_range_step_fault this _ _ (snd redOffset));
        try reflexivity; try lia; [exact SH | rewrite Z.sub_diag; reflexivity |].
      intros s' W' H'. rewrite W'.
      apply (for_range_step_fault this _ _ (width this - 3)); try assumption; try lia.
      * intros j s'' W'' H''. apply green_H_step_sized; assumption.
      * replace (width this - 3 - (2 + fst redOffset))
          with (width this - fst redOffset - 1 + (-2) * 2) by lia.
        rewrite Z.mod_add by lia.
        pose proof (Z.div_mod (width this - fst redOffset) 2 ltac:(lia)) as Dm.
        rewrite Pw in Dm.
        replace (width this - fst redOffset - 1)
          with ((width this - fst redOffset) / 2 * 2) by lia.
        apply Z.mod_mul. lia.
      * intros s'' _ _. apply green_H_step_fault. lia.
    + apply (for_range_step_fault this _ _ (height this - 1));
        try reflexivity; try lia; [exact SH | |].
      * pose proof (Z.div_mod (height this - snd redOffset) 2 ltac:(lia)) as Dm.
        rewrite Ph in Dm.
        replace (height this - 1 - snd redOffset)
          with ((height this - snd redOffset) / 2 * 2) by lia.
        apply Z.mod_mul. lia.
      * intros s' W' H'. rewrite W'.
        apply (for_range_step_fault this _ _ (2 + fst redOffset));
          try assumption; try lia.
        -- intros j s'' W'' H''. apply green_H_step_sized; assumption.
        -- rewrite Z.sub_diag. reflexivity.
        -- intros s'' _ _. apply green_H_step_fault. lia.
  - unfold demosaicGreenVertical. destruct Hodd as [Pw | Ph].
    + apply (for_range_step_fault this _ _ (2 + snd redOffset));
        try reflexivity; try lia; [exact SV | rewrite Z.sub_diag; reflexivity |].
      intros s' W' H'. rewrite W'.
      apply (for_range_step_fault this _ _ (width this - 1)); try assumption; try lia.
      * intros j s'' W'' H''. apply green_V_step_sized; assumption.
      * pose proof (Z.div_mod (width this - fst redOffset) 2 ltac:(lia)) as Dm.
        rewrite Pw in Dm.
        replace (width this - 1 - fst redOffset)
          with ((width this - fst redOffset) / 2 * 2) by lia.
        apply Z.mod_mul. lia.
      * intros s'' _ _. apply green_V_step_fault. lia.
    + apply (for_range_step_fault this _ _ (height this - 3));
        try reflexivity; try lia; [exact SV | |].
      * replace (height this - 3 - (2 + snd redOffset))
          with (height this - snd redOffset - 1 + (-2) * 2) by lia.
        rewrite Z.mod_add by lia.
        pose proof (Z.div_mod (height this - snd redOffset) 2 ltac:(lia)) as Dm.
        rewrite Ph in Dm.
        replace (height this - snd redOffset - 1)
          with ((height this - snd redOffset) / 2 * 2) by lia.
        apply Z.mod_mul. lia.
      * intros s' W' H'. rewrite W'.
        apply (for_range_step_fault this _ _ (fst redOffset));
          try assumption; try lia.
        -- intros j s'' W'' H''. apply green_V_step_sized; assumption.
        -- rewrite Z.sub_diag. reflexivity.
        -- intros s'' _ _. apply green_V_step_fault. lia.
Qed.

Lemma demosaicGreen_odd_offset_faults_witness :
  demosaicGreenHorizontal green_grid8 green_grid8 (1, 0) = Fault
  /\ demosaicGreenVertical green_grid8 green_grid8 (1, 0) = Fault.
Proof.
  apply (demosaicGreen_odd_offset_faults green_grid8 green_grid8 (1, 0));
    cbn; try lia; reflexivity.
Defined.
